(** * Solar-system simulator: camera gestures and orbital positions

    A shallow embedding of [camera.py], [planet.py] and the link-resolution
    pass of [main.py], followed by the properties of the specification.

    Python floats are read as real numbers ([R]): the properties below are
    the algebraic ones, exact in real arithmetic.  A [pygame.Vector2] is a
    pair of reals with value semantics; this is sound here because every
    vector that is mutated in place ([position.update], [position.x = ...],
    [position -= ...]) is owned by one object: [__init__] allocates it and
    the only rebinding stores a [.copy()].  Objects that are shared by
    reference (a body's [parent]) live in a store and are named by index. *)

From Stdlib Require Import Reals Lra Lia ZArith.
From Stdlib Require PrimFloat.
From stdpp Require Import base list gmap strings.

Local Open Scope R_scope.

(** ** Python builtins used by the sources *)

(** [max(a, b)] returns [a] unless [b] is strictly greater. *)
Definition py_max (a b : R) : R := if Rlt_dec a b then b else a.

(** [min(a, b)] returns [a] unless [b] is strictly smaller. *)
Definition py_min (a b : R) : R := if Rlt_dec b a then b else a.

(** [a % b] on floats, for a positive modulus: [a - floor(a / b) * b]. *)
Definition py_mod (a b : R) : R := a - IZR (Int_part (a / b)) * b.

(** [int(x)] on a float: truncation towards zero. *)
Definition py_int (x : R) : Z :=
  if Rle_dec 0 x then Int_part x else (- Int_part (- x))%Z.

(** [range(start, stop, step)] for a positive step. *)
Definition py_range (start stop step : Z) : list Z :=
  map (fun k => (start + Z.of_nat k * step)%Z)
      (seq 0 (Z.to_nat ((stop - start + step - 1) / step))).

(** ** pygame.Vector2 *)

Record Vector2 := mkVector2 { vx : R; vy : R }.

Definition vadd (a b : Vector2) : Vector2 := mkVector2 (vx a + vx b) (vy a + vy b).
Definition vsub (a b : Vector2) : Vector2 := mkVector2 (vx a - vx b) (vy a - vy b).
Definition vmul (a : Vector2) (k : R) : Vector2 := mkVector2 (vx a * k) (vy a * k).

(** [a / k]; pygame raises [ZeroDivisionError] when [k] is zero, so every
    caller below tests the divisor before using [vdiv]. *)
Definition vdiv (a : Vector2) (k : R) : Vector2 := mkVector2 (vx a / k) (vy a / k).

Definition distance_to (a b : Vector2) : R :=
  sqrt ((vx b - vx a) * (vx b - vx a) + (vy b - vy a) * (vy b - vy a)).

Declare Scope vec_scope.
Delimit Scope vec_scope with V.
Bind Scope vec_scope with Vector2.
Infix "+" := vadd : vec_scope.
Infix "-" := vsub : vec_scope.
Infix "*" := vmul : vec_scope.
Infix "/" := vdiv : vec_scope.

(** ** A Python dict with insertion order, keyed by finger id *)

Module pydict.

Definition t := list (Z * Vector2).

(** [d.get(k)] *)
Fixpoint get (k : Z) (d : t) : option Vector2 :=
  match d with
  | [] => None
  | (k', v) :: d' => if Z.eqb k k' then Some v else get k d'
  end.

(** [d[k] = v]: an existing key keeps its place, a new key goes last. *)
Fixpoint set (k : Z) (v : Vector2) (d : t) : t :=
  match d with
  | [] => [(k, v)]
  | (k', v') :: d' => if Z.eqb k k' then (k, v) :: d' else (k', v') :: set k v d'
  end.

(** [del d[k]] *)
Fixpoint del (k : Z) (d : t) : t :=
  match d with
  | [] => []
  | (k', v') :: d' => if Z.eqb k k' then d' else (k', v') :: del k d'
  end.

(** [k in d] *)
Definition mem (k : Z) (d : t) : bool :=
  match get k d with Some _ => true | None => false end.

(** [list(d.values())] *)
Definition values (d : t) : list Vector2 := map snd d.

(** [list(d.keys())] *)
Definition keys (d : t) : list Z := map fst d.

End pydict.

(** ** camera.py *)

Module camera.

Record Camera := mkCamera {
  min_zoom : R;
  max_zoom : R;
  zoom_sensitivity : R;
  position : Vector2;
  zoom : R;
  pan_enabled : bool;
  _dragging : bool;
  _last_mouse_pos : Vector2;
  touches : pydict.t;
  last_pinch_dist : option R;
  is_dragging : bool
}.

(** Attribute assignments [self.f = v]. *)
Definition set_position (v : Vector2) (c : Camera) : Camera :=
  mkCamera (min_zoom c) (max_zoom c) (zoom_sensitivity c) v (zoom c)
    (pan_enabled c) (_dragging c) (_last_mouse_pos c) (touches c)
    (last_pinch_dist c) (is_dragging c).
Definition set_zoom (z : R) (c : Camera) : Camera :=
  mkCamera (min_zoom c) (max_zoom c) (zoom_sensitivity c) (position c) z
    (pan_enabled c) (_dragging c) (_last_mouse_pos c) (touches c)
    (last_pinch_dist c) (is_dragging c).
Definition set__dragging (b : bool) (c : Camera) : Camera :=
  mkCamera (min_zoom c) (max_zoom c) (zoom_sensitivity c) (position c) (zoom c)
    (pan_enabled c) b (_last_mouse_pos c) (touches c)
    (last_pinch_dist c) (is_dragging c).
Definition set__last_mouse_pos (v : Vector2) (c : Camera) : Camera :=
  mkCamera (min_zoom c) (max_zoom c) (zoom_sensitivity c) (position c) (zoom c)
    (pan_enabled c) (_dragging c) v (touches c)
    (last_pinch_dist c) (is_dragging c).
Definition set_touches (d : pydict.t) (c : Camera) : Camera :=
  mkCamera (min_zoom c) (max_zoom c) (zoom_sensitivity c) (position c) (zoom c)
    (pan_enabled c) (_dragging c) (_last_mouse_pos c) d
    (last_pinch_dist c) (is_dragging c).
Definition set_last_pinch_dist (o : option R) (c : Camera) : Camera :=
  mkCamera (min_zoom c) (max_zoom c) (zoom_sensitivity c) (position c) (zoom c)
    (pan_enabled c) (_dragging c) (_last_mouse_pos c) (touches c)
    o (is_dragging c).
Definition set_is_dragging (b : bool) (c : Camera) : Camera :=
  mkCamera (min_zoom c) (max_zoom c) (zoom_sensitivity c) (position c) (zoom c)
    (pan_enabled c) (_dragging c) (_last_mouse_pos c) (touches c)
    (last_pinch_dist c) b.

(** [Camera.__init__]: the three arguments are stored as given. *)
Definition __init__ (min_zoom max_zoom zoom_sensitivity : R) : Camera :=
  mkCamera min_zoom max_zoom zoom_sensitivity
    (mkVector2 0 0) 1 true false (mkVector2 0 0) [] None false.

(** [Camera()] with the default arguments. *)
Definition default_camera : Camera := __init__ 0.0015 20 1.

(** The display surface, as far as the camera looks at it: absent, or
    its size in pixels. *)
Definition Display := option (Z * Z).

Definition _screen_size (surf : Display) : Z * Z :=
  match surf with
  | None => (1, 1)%Z
  | Some size => size
  end.

(** The events [handle_event] tells apart by [event.type], with the
    attributes it reads.  The scroll wheel arrives as [MOUSEBUTTONDOWN]
    with button 4 or 5.  [OTHER] is any other event type. *)
Inductive Event :=
| FINGERDOWN (finger_id : Z) (x y : R)
| FINGERUP (finger_id : Z) (x y : R)
| FINGERMOTION (finger_id : Z) (x y : R)
| MOUSEBUTTONDOWN (button : Z) (pos : Vector2)
| MOUSEBUTTONUP (button : Z) (pos : Vector2)
| MOUSEMOTION (pos rel : Vector2)
| OTHER.

(** A method either returns, or lets a [ZeroDivisionError] escape; both
    carry the camera as the method left it. *)
Inductive outcome :=
| Returns (self : Camera)
| Raises (self : Camera).

Definition state_of (o : outcome) : Camera :=
  match o with Returns c => c | Raises c => c end.

Definition bind (o : outcome) (k : Camera -> outcome) : outcome :=
  match o with
  | Returns c => k c
  | Raises c => Raises c
  end.

Notation "o >>= k" := (bind o k) (at level 50, left associativity).

Definition screen_center (surf : Display) : Vector2 :=
  let '(screen_w, screen_h) := _screen_size surf in
  mkVector2 (IZR screen_w / 2) (IZR screen_h / 2).

Definition _apply_zoom_around_point (surf : Display) (new_zoom : R)
    (screen_point : Vector2) (self : Camera) : outcome :=
  let screen_center := screen_center surf in
  if Req_dec_T (zoom self) 0 then Raises self else
  let world_before := ((screen_point - screen_center) / zoom self + position self)%V in
  let self := set_zoom (py_max (min_zoom self) (py_min (max_zoom self) new_zoom)) self in
  if Req_dec_T (zoom self) 0 then Raises self else
  Returns (set_position (world_before - (screen_point - screen_center) / zoom self)%V self).

Definition PAN_BASE_SPEED : R := 3.

(** The divisor [zoom_factor] is at least 0.05, so the division cannot
    raise (lemma [zoom_factor_pos] below). *)
Definition _pan_with_delta (rel : Vector2) (self : Camera) : Camera :=
  let zoom_factor := py_max (zoom self) 0.05 in
  let move := (rel * (PAN_BASE_SPEED / zoom_factor))%V in
  set_position (position self - move)%V self.

Definition event_pos (surf : Display) (x y : R) : Vector2 :=
  let '(screen_w, screen_h) := _screen_size surf in
  mkVector2 (x * IZR screen_w) (y * IZR screen_h).

Definition _handle_finger_down (surf : Display) (finger_id : Z) (x y : R)
    (self : Camera) : Camera :=
  let pos := event_pos surf x y in
  let self := set_touches (pydict.set finger_id pos (touches self)) self in
  if Nat.eqb (length (touches self)) 1 then
    set__last_mouse_pos pos (set_is_dragging true (set__dragging true self))
  else if Nat.eqb (length (touches self)) 2 then
    match pydict.values (touches self) with
    | f0 :: f1 :: _ => set_last_pinch_dist (Some (distance_to f0 f1)) self
    | _ => self
    end
  else self.

Definition _handle_finger_up (finger_id : Z) (self : Camera) : Camera :=
  let self :=
    if pydict.mem finger_id (touches self)
    then set_touches (pydict.del finger_id (touches self)) self
    else self in
  if Nat.eqb (length (touches self)) 0 then
    set_last_pinch_dist None (set_is_dragging false (set__dragging false self))
  else if Nat.eqb (length (touches self)) 1 then
    match pydict.values (touches self) with
    | remaining_pos :: _ =>
        set_last_pinch_dist None (set__last_mouse_pos remaining_pos self)
    | [] => self
    end
  else self.

Definition _handle_finger_motion (surf : Display) (finger_id : Z) (x y : R)
    (self : Camera) : outcome :=
  let new_pos := event_pos surf x y in
  let old_pos := default new_pos (pydict.get finger_id (touches self)) in
  let self := set_touches (pydict.set finger_id new_pos (touches self)) self in
  if Nat.eqb (length (touches self)) 1 then
    let rel := (new_pos - old_pos)%V in
    Returns (_pan_with_delta rel (set_is_dragging true (set__dragging true self)))
  else if Nat.eqb (length (touches self)) 2 then
    match pydict.values (touches self) with
    | p1 :: p2 :: _ =>
        let new_dist := distance_to p1 p2 in
        (match last_pinch_dist self with
         | Some last =>
             if Rlt_dec 0 last then
               let dist_ratio := new_dist / last in
               if Rlt_dec 1.01 dist_ratio then
                 let new_zoom := zoom self * 0.9 in
                 let pinch_center := ((p1 + p2) / 2)%V in
                 _apply_zoom_around_point surf new_zoom pinch_center self
               else if Rlt_dec dist_ratio 0.99 then
                 let new_zoom := zoom self * 1.1 in
                 let pinch_center := ((p1 + p2) / 2)%V in
                 _apply_zoom_around_point surf new_zoom pinch_center self
               else Returns self
             else Returns self
         | None => Returns self
         end) >>= fun self => Returns (set_last_pinch_dist (Some new_dist) self)
    | _ => Returns self
    end
  else Returns self.

(** The mouse half of [handle_event], reached only with no active touch. *)
Definition handle_mouse (surf : Display) (event : Event) (self : Camera) : outcome :=
  match event with
  | MOUSEBUTTONDOWN button pos =>
      if Z.eqb button 3 && pan_enabled self then
        Returns (set__last_mouse_pos pos
                   (set_is_dragging true (set__dragging true self)))
      else if Z.eqb button 4 then
        _apply_zoom_around_point surf (zoom self * 0.9) pos self
      else if Z.eqb button 5 then
        _apply_zoom_around_point surf (zoom self * 1.1) pos self
      else Returns self
  | MOUSEBUTTONUP button _ =>
      if Z.eqb button 3 then
        Returns (set_is_dragging false (set__dragging false self))
      else Returns self
  | MOUSEMOTION _ rel =>
      if _dragging self && pan_enabled self then
        Returns (_pan_with_delta rel self)
      else Returns self
  | _ => Returns self
  end.

Definition handle_event (surf : Display) (event : Event) (self : Camera) : outcome :=
  match event with
  | FINGERDOWN finger_id x y => Returns (_handle_finger_down surf finger_id x y self)
  | FINGERUP finger_id _ _ => Returns (_handle_finger_up finger_id self)
  | FINGERMOTION finger_id x y => _handle_finger_motion surf finger_id x y self
  | _ =>
      match touches self with
      | _ :: _ => Returns self
      | [] => handle_mouse surf event self
      end
  end.

(** The events of a session, delivered in order as the main loop does;
    an escaping exception ends the session. *)
Fixpoint run (surf : Display) (events : list Event) (self : Camera) : outcome :=
  match events with
  | [] => Returns self
  | event :: events' => handle_event surf event self >>= run surf events'
  end.

(** World to screen, as [Planet.draw] and [Planet.is_clicked] compute it. *)
Definition project (surf : Display) (self : Camera) (world : Vector2) : Vector2 :=
  ((world - position self) * zoom self + screen_center surf)%V.

(** Screen to world: the [world_before] of [_apply_zoom_around_point]. *)
Definition unproject (surf : Display) (self : Camera) (screen_point : Vector2) : Vector2 :=
  ((screen_point - screen_center surf) / zoom self + position self)%V.

End camera.

(** *** The pan on binary64 floats

    The module [camera] reads Python's floats as real numbers.  This one keeps
    them as the IEEE binary64 values CPython and [pygame.Vector2] store, with
    every operation rounded, for the part of the camera a pan touches. *)
Module float64.

Import PrimFloat.

Record Vector2 := mkVector2 { vx : float; vy : float }.

(** [max(a, b)]: [b] when [b > a], else [a]. *)
Definition py_max (a b : float) : float := if ltb a b then b else a.

(** The two fields of [Camera] that [_pan_with_delta] reads or writes. *)
Record Camera := mkCamera { position : Vector2; zoom : float }.

(** [Camera._pan_with_delta(rel)]. *)
#[warnings="-inexact-float"]
Definition _pan_with_delta (rel : Vector2) (self : Camera) : Camera :=
  let PAN_BASE_SPEED := 3%float in
  let zoom_factor := py_max (zoom self) 0.05%float in
  let scale := div PAN_BASE_SPEED zoom_factor in
  let move := mkVector2 (mul (vx rel) scale) (mul (vy rel) scale) in
  mkCamera
    (mkVector2 (sub (vx (position self)) (vx move))
               (sub (vy (position self)) (vy move)))
    (zoom self).

(** [-rel]. *)
Definition neg (v : Vector2) : Vector2 := mkVector2 (opp (vx v)) (opp (vy v)).

(** A camera at [(0.1, 0)] with zoom [1.0], and a drag of one pixel to the
    right. *)
#[warnings="-inexact-float"]
Definition off_centre : Camera := mkCamera (mkVector2 0.1 0) 1.

Definition one_pixel : Vector2 := mkVector2 1 0.

(** The double six units in the last place above [0.1], printed
    [0.10000000000000009] by Python. *)
#[warnings="-inexact-float"]
Definition drifted : float := 0x1.99999999999a0p-4.

End float64.

(** ** planet.py *)

Module planet.

(** A loaded sprite; only its presence matters here. *)
Definition Surface := string.

(** A body.  [parent] refers to another body of the store by index. *)
Record Planet := mkPlanet {
  planet_name : string;
  radius_km : R;
  a_au : R;
  period_days : R;
  color : Z * Z * Z;
  draw_orbit : bool;
  fact : string;
  angle : R;
  radius_px : R;
  au_to_px : R;
  time_scale : R;
  position : Vector2;
  parent_name : option string;
  parent : option nat;
  image : option Surface
}.

Definition set_angle (a : R) (p : Planet) : Planet :=
  mkPlanet (planet_name p) (radius_km p) (a_au p) (period_days p) (color p)
    (draw_orbit p) (fact p) a (radius_px p) (au_to_px p) (time_scale p)
    (position p) (parent_name p) (parent p) (image p).
Definition set_position (v : Vector2) (p : Planet) : Planet :=
  mkPlanet (planet_name p) (radius_km p) (a_au p) (period_days p) (color p)
    (draw_orbit p) (fact p) (angle p) (radius_px p) (au_to_px p) (time_scale p)
    v (parent_name p) (parent p) (image p).
Definition set_parent (o : option nat) (p : Planet) : Planet :=
  mkPlanet (planet_name p) (radius_km p) (a_au p) (period_days p) (color p)
    (draw_orbit p) (fact p) (angle p) (radius_px p) (au_to_px p) (time_scale p)
    (position p) (parent_name p) o (image p).

(** [Planet.__init__].  [color] is the value of [hex_to_rgb(color_hex)]
    and [image] what [_load_image_if_available] found on disk. *)
Definition __init__ (name : string) (radius_km a_au period_days : R)
    (color : Z * Z * Z) (draw_orbit : bool) (fact : string)
    (parent_name : option string) (image : option Surface) : Planet :=
  mkPlanet name radius_km a_au period_days color draw_orbit fact
    0 5 1000 20000 (mkVector2 0 0) parent_name None image.

(** The bodies of a session, by object identity. *)
Abbreviation Store := (list Planet).

(** [period_days <= 0.0 or a_au <= 0.0] *)
Definition degenerate (self : Planet) : bool :=
  (if Rle_dec (period_days self) 0 then true else false)
  || (if Rle_dec (a_au self) 0 then true else false).

(** [self.update_position(delta)] for the body at index [i].  A [parent]
    reference always names a live body; the [None] cases of the two
    lookups are outside what Python can reach and leave the store as is. *)
Definition update_position (delta : R) (i : nat) (st : Store) : Store :=
  match st !! i with
  | None => st
  | Some self =>
      if degenerate self then
        match parent self with
        | None => <[i := set_position (mkVector2 0 0) self]> st
        | Some j =>
            match st !! j with
            | Some par => <[i := set_position (position par) self]> st
            | None => st
            end
        end
      else
        let T_real := period_days self * 86400 in
        if Req_dec_T T_real 0 then st else
        let omega := (2 * PI * time_scale self) / T_real in
        let self := set_angle (py_mod (angle self + omega * delta) (2 * PI)) self in
        let st := <[i := self]> st in
        let r := a_au self * au_to_px self in
        let rel_x := cos (angle self) * r in
        let rel_y := sin (angle self) * r in
        match parent self with
        | None => <[i := set_position (mkVector2 rel_x rel_y) self]> st
        | Some j =>
            match st !! j with
            | Some par =>
                <[i := set_position
                         (mkVector2 (vx (position par) + rel_x)
                                    (vy (position par) + rel_y)) self]> st
            | None => st
            end
        end
  end.

(** One frame of the main loop: [for p in bodies: p.update_position(dt)],
    [order] being the list [bodies] as object indices. *)
Definition frame (dt : R) (order : list nat) (st : Store) : Store :=
  foldl (fun st i => update_position dt i st) st order.

(** *** Visual scale and hit test *)

Definition set_radius_px (r : R) (p : Planet) : Planet :=
  mkPlanet (planet_name p) (radius_km p) (a_au p) (period_days p) (color p)
    (draw_orbit p) (fact p) (angle p) r (au_to_px p) (time_scale p)
    (position p) (parent_name p) (parent p) (image p).
Definition set_au_to_px (r : R) (p : Planet) : Planet :=
  mkPlanet (planet_name p) (radius_km p) (a_au p) (period_days p) (color p)
    (draw_orbit p) (fact p) (angle p) (radius_px p) r (time_scale p)
    (position p) (parent_name p) (parent p) (image p).
Definition set_time_scale (r : R) (p : Planet) : Planet :=
  mkPlanet (planet_name p) (radius_km p) (a_au p) (period_days p) (color p)
    (draw_orbit p) (fact p) (angle p) (radius_px p) (au_to_px p) r
    (position p) (parent_name p) (parent p) (image p).

(** [clamp(value, vmin, vmax)] *)
Definition clamp (value vmin vmax : R) : R := py_max vmin (py_min vmax value).

Definition set_visual_scale (radius_px_min radius_px_max radius_scale au_to_px : R)
    (self : Planet) : Planet :=
  let self := set_au_to_px au_to_px self in
  let raw_px := radius_km self * radius_scale in
  set_radius_px (clamp raw_px radius_px_min radius_px_max) self.


End planet.

(** ** main.py: the second pass of [load_solar_system] *)

Module main.

Import planet.

(** [{p.planet_name: p for p in bodies}]: a later body of the same name
    replaces an earlier one. *)
Fixpoint by_name_from (i : nat) (bodies : list Planet) (m : gmap string nat)
    : gmap string nat :=
  match bodies with
  | [] => m
  | p :: bodies' => by_name_from (S i) bodies' (<[planet_name p := i]> m)
  end.

Definition by_name (bodies : list Planet) : gmap string nat :=
  by_name_from 0 bodies ∅.

(** Truth value of [getattr(p, "parent_name", None)]. *)
Definition truthy (o : option string) : bool :=
  match o with
  | None => false
  | Some s => negb (String.eqb s "")
  end.

(** The body of the linking loop, for one [p]; a name that is not found
    only prints a warning. *)
Definition link (names : gmap string nat) (p : Planet) : Planet :=
  if truthy (parent_name p) then
    match parent_name p with
    | Some s =>
        match names !! s with
        | Some j => set_parent (Some j) p
        | None => p
        end
    | None => p
    end
  else p.

Definition link_parents (bodies : list Planet) : Store :=
  map (link (by_name bodies)) bodies.

Definition has_parent (st : Store) (i : nat) : bool :=
  match st !! i with
  | Some p => match parent p with Some _ => true | None => false end
  | None => false
  end.

(** [bodies.sort(key=...)] with keys 0 and 1: the sort is stable, so the
    parentless bodies come first, each group in its former order. *)
Definition sort_parents_first (st : Store) : list nat :=
  let ids := seq 0 (length st) in
  filter (fun i => has_parent st i = false) ids ++
  filter (fun i => has_parent st i = true) ids.

(** What [load_solar_system] returns after its second pass: the linked
    bodies and the order of the returned list. *)
Definition second_pass (bodies : list Planet) : Store * list nat :=
  let st := link_parents bodies in
  (st, sort_parents_first st).

(** Following [parent] references [n] times from body [i]. *)
Fixpoint ancestor (st : Store) (n : nat) (i : nat) : option nat :=
  match n with
  | O => Some i
  | S n' =>
      match st !! i with
      | Some p =>
          match parent p with
          | Some j => ancestor st n' j
          | None => None
          end
      | None => None
      end
  end.

(** Body [i] is its own parent, directly or transitively. *)
Definition on_cycle (st : Store) (i : nat) : bool :=
  existsb (fun n => bool_decide (ancestor st (S n) i = Some i))
          (seq 0 (length st)).

(** The same, read off the loaded records: the parent a [parent_name]
    designates, and following these designations [n] times. *)
Definition named_parent (bodies : list Planet) (i : nat) : option nat :=
  match bodies !! i with
  | Some p =>
      if truthy (parent_name p) then
        match parent_name p with
        | Some s => by_name bodies !! s
        | None => None
        end
      else None
  | None => None
  end.

Fixpoint named_ancestor (bodies : list Planet) (n : nat) (i : nat) : option nat :=
  match n with
  | O => Some i
  | S n' =>
      match named_parent bodies i with
      | Some j => named_ancestor bodies n' j
      | None => None
      end
  end.

(** *** The button bar order *)

Section Names.

(** [str.lower], Python's. *)
Variable lower : string -> string.

(** [b.planet_name.lower() in names], for the body [b] of the store. *)
Definition lower_name_in (st : Store) (b : nat) (names : list string) : bool :=
  match st !! b with
  | Some p => existsb (String.eqb (lower (planet_name p))) names
  | None => false
  end.

(** The first loop of [reorder_bodies_for_buttons]: the last body called
    terra or earth, and the last other body called lua or moon. *)
Fixpoint find_earth_moon (st : Store) (bodies : list nat)
    (earth moon : option nat) : option nat * option nat :=
  match bodies with
  | [] => (earth, moon)
  | b :: bodies' =>
      if lower_name_in st b ["terra"; "earth"] then
        find_earth_moon st bodies' (Some b) moon
      else if lower_name_in st b ["lua"; "moon"] then
        find_earth_moon st bodies' earth (Some b)
      else find_earth_moon st bodies' earth moon
  end.

(** The second loop: what it appends to [new_list], in order. *)
Fixpoint place_moon (earth moon : nat) (bodies : list nat) (added_moon : bool)
    : list nat :=
  match bodies with
  | [] => []
  | b :: bodies' =>
      if Nat.eqb b earth then
        b :: moon :: place_moon earth moon bodies' true
      else if Nat.eqb b moon then
        if added_moon then place_moon earth moon bodies' added_moon
        else b :: place_moon earth moon bodies' added_moon
      else b :: place_moon earth moon bodies' added_moon
  end.

(** [bodies] is the list of objects, by index in the store. *)
Definition reorder_bodies_for_buttons (st : Store) (bodies : list nat) : list nat :=
  match find_earth_moon st bodies None None with
  | (Some earth, Some moon) => place_moon earth moon bodies false
  | _ => bodies
  end.

End Names.

(** *** The button bar layout *)

(** What a Python int becomes when it is stored in a C int of 32 bits: its
    low 32 bits, read as a signed number. *)
Definition wrap32 (z : Z) : Z := ((z + 2 ^ 31) mod 2 ^ 32 - 2 ^ 31)%Z.

(** The Python ints [PyLong_AsLong] can read, for a C long of 64 bits. *)
Definition in_long (z : Z) : bool := (- 2 ^ 63 <=? z)%Z && (z <? 2 ^ 63)%Z.

(** [pygame.Rect]: four C ints. *)
Record Rect := mkRect { rect_x : Z; rect_y : Z; rect_w : Z; rect_h : Z }.

(** [pygame.Rect(x, y, w, h)] on Python ints.  Each argument is read as a
    C long and stored in a C int, so it keeps its low 32 bits; an argument
    that no C long holds makes the constructor raise [TypeError], which is
    [None] here.  The C long is taken to have 64 bits; an argument within
    32 bits is stored as it is whatever the size of a long. *)
Definition Rect_new (x y w h : Z) : option Rect :=
  if in_long x && in_long y && in_long w && in_long h
  then Some (mkRect (wrap32 x) (wrap32 y) (wrap32 w) (wrap32 h))
  else None.

(** [rect.collidepoint(p)], for [p] a pair of C ints as [event.pos] is: the
    right and bottom edges are outside, and the two sums are sums of C
    ints. *)
Definition collidepoint (r : Rect) (p : Z * Z) : bool :=
  (rect_x r <=? fst p)%Z && (fst p <? wrap32 (rect_x r + rect_w r))%Z
  && (rect_y r <=? snd p)%Z && (snd p <? wrap32 (rect_y r + rect_h r))%Z.

(** The loop of [build_planet_buttons]; a button is the pair of its
    planet and its rectangle.  An exception of [pygame.Rect] leaves the
    loop and the function. *)
Fixpoint place_buttons (bodies : list nat) (x y button_width button_height margin : Z)
    : option (list (nat * Rect)) :=
  match bodies with
  | [] => Some []
  | p :: bodies' =>
      match Rect_new x y button_width button_height with
      | None => None
      | Some rect =>
          match place_buttons bodies' (x + button_width + margin)%Z y
                  button_width button_height margin with
          | None => None
          | Some buttons => Some ((p, rect) :: buttons)
          end
      end
  end.

(** [build_planet_buttons(bodies, screen_width, screen_height, font)], for
    the sizes of a screen, which are C ints.  [int(a / n)] is a float
    division followed by a truncation; on ints of that size the division
    is exact enough for the result to be the quotient truncated towards
    zero. *)
Definition build_planet_buttons (bodies : list nat) (screen_width screen_height : Z)
    : option (list (nat * Rect)) :=
  let margin := 10%Z in
  let button_height := 36%Z in
  let y := (screen_height - button_height - margin)%Z in
  let n := Z.of_nat (length bodies) in
  if (n =? 0)%Z then Some [] else
  let available_width := (screen_width - 2 * margin)%Z in
  let button_width :=
    Z.max 80 (Z.quot (available_width - (n - 1) * margin) n) in
  place_buttons bodies margin y button_width button_height margin.

(** The search of the main loop for the clicked button: the first one
    whose rectangle holds the mouse position. *)
Definition clicked_button (buttons : list (nat * Rect)) (mouse_pos : Z * Z)
    : option (nat * Rect) :=
  List.find (fun btn => collidepoint (snd btn) mouse_pos) buttons.

(** *** Text wrapping *)

Section Text.

(** The width [font.size(s)[0]] of a rendered string. *)
Variable font_width : string -> Z.

(** Truth value of a string. *)
Definition nonempty (s : string) : bool := negb (String.eqb s "").

(** The loop of [wrap_text] over the words, from [lines] and
    [current_line]. *)
Fixpoint wrap_words (words : list string) (max_width : Z)
    (lines : list string) (current_line : string) : list string * string :=
  match words with
  | [] => (lines, current_line)
  | w :: words' =>
      let test_line :=
        (current_line ++ (if nonempty current_line then " " else "") ++ w)%string in
      if (font_width test_line <=? max_width)%Z then
        wrap_words words' max_width lines test_line
      else
        wrap_words words' max_width
          (if nonempty current_line then lines ++ [current_line] else lines) w
  end.

(** [wrap_text(text, font, max_width)], [words] being [text.split()]. *)
Definition wrap_text (words : list string) (max_width : Z) : list string :=
  let '(lines, current_line) := wrap_words words max_width [] "" in
  if nonempty current_line then lines ++ [current_line] else lines.

End Text.

(** *** Placement of the information box *)

(** Lines 200 to 211 of [draw_planet_info_box]: the corner of the box
    beside the planet, kept inside the screen. *)
Definition info_box_corner (planet_screen_pos : Vector2) (box_width box_height : R)
    (screen_w screen_h : Z) : R * R :=
  let OFFSET_X := 60 in
  let box_x := vx planet_screen_pos + OFFSET_X in
  let box_y := vy planet_screen_pos - box_height / 2 in
  let box_x :=
    if Rlt_dec (IZR screen_w - 10) (box_x + box_width)
    then vx planet_screen_pos - box_width - OFFSET_X else box_x in
  let box_x := if Rlt_dec box_x 10 then 10 else box_x in
  let box_y := if Rlt_dec box_y 10 then 10 else box_y in
  let box_y :=
    if Rlt_dec (IZR screen_h - 10) (box_y + box_height)
    then IZR screen_h - box_height - 10 else box_y in
  (box_x, box_y).

(** *** The tiled background *)

(** Where [draw_tiled_background] blits a loaded image, in blit order;
    [None] when a dimension of the image is 0 and [%] raises. *)
Definition tile_positions (screen_w screen_h bg_w bg_h : Z) (cam : camera.Camera)
    : option (list (Z * Z)) :=
  let PARALLAX := 0.1 in
  if (bg_w =? 0)%Z then None else
  let offset_x := (py_int (- vx (camera.position cam) * PARALLAX) mod bg_w)%Z in
  if (bg_h =? 0)%Z then None else
  let offset_y := (py_int (- vy (camera.position cam) * PARALLAX) mod bg_h)%Z in
  Some (flat_map
          (fun x => map (fun y => (x + offset_x, y + offset_y)%Z)
                        (py_range (- bg_h) (screen_h + bg_h) bg_h))
          (py_range (- bg_w) (screen_w + bg_w) bg_w)).

End main.

(** ** Vocabulary of the properties *)

(** *** Zoom steps *)

Module session.

Import camera.

(** The zoom after an event is the old one or a clamped positive request. *)
Definition zoom_step (c c' : Camera) : Prop :=
  min_zoom c' = min_zoom c /\ max_zoom c' = max_zoom c
  /\ (zoom c' = zoom c
      \/ exists new_zoom, 0 < new_zoom
           /\ zoom c' = py_max (min_zoom c) (py_min (max_zoom c) new_zoom)).

(** A positive zoom that stays positive under the clamp. *)
Definition zoom_safe (c : Camera) : Prop :=
  0 < zoom c /\ (0 < min_zoom c \/ 0 < max_zoom c).

(** The fields that no event writes. *)
Definition same_settings (c c' : Camera) : Prop :=
  min_zoom c' = min_zoom c /\ max_zoom c' = max_zoom c
  /\ zoom_sensitivity c' = zoom_sensitivity c /\ pan_enabled c' = pan_enabled c.

End session.

(** *** Touch streams *)

Module touch_stream.
Import camera.

(** [k in active] *)
Definition elem (k : Z) (active : list Z) : bool := existsb (Z.eqb k) active.

Fixpoint remove_first (k : Z) (active : list Z) : list Z :=
  match active with
  | [] => []
  | k' :: active' => if Z.eqb k k' then active' else k' :: remove_first k active'
  end.

(** A stream of events is well formed over the active finger ids when a
    touch-down brings an id that is not active, and a touch-up or a
    touch-motion an id that is. *)
Fixpoint well_formed (active : list Z) (events : list Event) : bool :=
  match events with
  | [] => true
  | FINGERDOWN k _ _ :: events' =>
      negb (elem k active) && well_formed (active ++ [k]) events'
  | FINGERUP k _ _ :: events' =>
      elem k active && well_formed (remove_first k active) events'
  | FINGERMOTION k _ _ :: events' =>
      elem k active && well_formed active events'
  | _ :: events' => well_formed active events'
  end.

Fixpoint downs (events : list Event) : nat :=
  match events with
  | [] => 0
  | FINGERDOWN _ _ _ :: events' => S (downs events')
  | _ :: events' => downs events'
  end.

Fixpoint ups (events : list Event) : nat :=
  match events with
  | [] => 0
  | FINGERUP _ _ _ :: events' => S (ups events')
  | _ :: events' => ups events'
  end.

(** The pinch baseline is set exactly when two or more touches are active. *)
Definition pinch_inv (c : Camera) : Prop :=
  match last_pinch_dist c with
  | Some _ => (2 <= length (touches c))%nat
  | None => (length (touches c) < 2)%nat
  end.

(** The touch set after an event. *)
Definition next_touches (surf : Display) (e : Event) (d : pydict.t) : pydict.t :=
  match e with
  | FINGERDOWN k x y | FINGERMOTION k x y => pydict.set k (event_pos surf x y) d
  | FINGERUP k _ _ => if pydict.mem k d then pydict.del k d else d
  | _ => d
  end.
End touch_stream.

(** *** Frame of a body update *)

Module planet_frame.
Import planet.
(** Every field of a body other than [angle] and [position]. *)
Definition same_static (p p' : Planet) : Prop :=
  planet_name p' = planet_name p /\ radius_km p' = radius_km p
  /\ a_au p' = a_au p /\ period_days p' = period_days p
  /\ color p' = color p /\ draw_orbit p' = draw_orbit p /\ fact p' = fact p
  /\ radius_px p' = radius_px p /\ au_to_px p' = au_to_px p
  /\ time_scale p' = time_scale p /\ parent p' = parent p
  /\ parent_name p' = parent_name p /\ image p' = image p.

(** The degenerate body [c] has parent [p] and sits where [p] is. *)
Definition co_located (c p : nat) (st : Store) : Prop :=
  exists child par,
    st !! c = Some child /\ st !! p = Some par
    /\ parent child = Some p /\ degenerate child = true
    /\ position child = position par.

(** The angle a step of [dt] leads to. *)
Definition next_angle (dt : R) (self : Planet) : R :=
  py_mod (angle self
          + 2 * PI * time_scale self / (period_days self * 86400) * dt)
         (2 * PI).

End planet_frame.

(** *** Links between bodies *)

Module linking.
Import planet.

(** Body [j] is the last one of the list called [s]. *)
Definition last_named (bodies : list Planet) (s : string) (j : nat) : Prop :=
  exists q, bodies !! j = Some q /\ planet_name q = s
            /\ forall k q', bodies !! k = Some q' -> planet_name q' = s -> (k <= j)%nat.

(** Every field of a body other than [parent]. *)
Definition same_but_parent (p p' : Planet) : Prop :=
  planet_name p' = planet_name p /\ radius_km p' = radius_km p
  /\ a_au p' = a_au p /\ period_days p' = period_days p
  /\ color p' = color p /\ draw_orbit p' = draw_orbit p /\ fact p' = fact p
  /\ angle p' = angle p /\ radius_px p' = radius_px p
  /\ au_to_px p' = au_to_px p /\ time_scale p' = time_scale p
  /\ position p' = position p /\ parent_name p' = parent_name p
  /\ image p' = image p.

(** Where body [c] is relative to its parent: on the parent when its
    orbit is degenerate, else on its ring at its angle. *)
Definition orbit_offset (child : Planet) : Vector2 :=
  if degenerate child then mkVector2 0 0
  else mkVector2 (cos (angle child) * (a_au child * au_to_px child))
                 (sin (angle child) * (a_au child * au_to_px child)).

(** Body [c] has parent [p] and is placed from where [p] is now. *)
Definition attached (c p : nat) (st : Store) : Prop :=
  exists child par,
    st !! c = Some child /\ st !! p = Some par
    /\ parent child = Some p
    /\ vx (position child) = vx (position par) + vx (orbit_offset child)
    /\ vy (position child) = vy (position par) + vy (orbit_offset child).

End linking.

(** *** Layout of the interface *)

Module layout.

Import main.

(** The width [build_planet_buttons] gives the buttons of [n] bodies. *)
Definition button_width (n screen_width : Z) : Z :=
  Z.max 80 (Z.quot (screen_width - 2 * 10 - (n - 1) * 10) n)%Z.

(** The values a C int holds. *)
Definition in_int (z : Z) : Prop := (- 2 ^ 31 <= z < 2 ^ 31)%Z.

(** Where [x] stands when the loop of [build_planet_buttons] ends: the
    largest sum the function computes. *)
Definition bar_end (n screen_width : Z) : Z :=
  (10 + n * (button_width n screen_width + 10))%Z.

(** The lines so far, with the line being filled when it has words. *)
Definition flush (lines : list string) (current_line : string) : list string :=
  if nonempty current_line then (lines ++ [current_line])%list else lines.

(** A line is good when it is not empty and either fits or is one word
    of the text. *)
Definition good_line (font_width : string -> Z) (max_width : Z)
    (words : list string) (line : string) : Prop :=
  line <> "" /\ ((font_width line <= max_width)%Z \/ line ∈ words).

End layout.

(** *** Sample bodies *)

Module examples.
(** A star, a planet and a station that sits on the planet. *)
Definition sun : planet.Planet :=
  planet.__init__ "Sol" 696340 0 0 (255, 204, 0)%Z false "" None None.
Definition earth : planet.Planet :=
  planet.__init__ "Terra" 6371 1 365.25 (0, 102, 255)%Z true "" None None.
Definition station : planet.Planet :=
  planet.__init__ "Base" 1 0 0 (255, 255, 255)%Z false "" (Some "Terra") None.
Definition system : list planet.Planet :=
  fst (main.second_pass [sun; earth; station]).

(** Two bodies that name each other as parent. *)
Definition body_a : planet.Planet :=
  planet.__init__ "A" 1 1 1 (255, 255, 255)%Z true "" (Some "B") None.
Definition body_b : planet.Planet :=
  planet.__init__ "B" 1 1 1 (255, 255, 255)%Z true "" (Some "A") None.

End examples.

(** *** More sample bodies *)

Module samples.
(** [str.lower] on ASCII letters, for the examples. *)
Definition ascii_lower_char (a : Ascii.ascii) : Ascii.ascii :=
  let n := Ascii.nat_of_ascii a in
  if (Nat.leb 65 n && Nat.leb n 90)%bool then Ascii.ascii_of_nat (n + 32) else a.
Fixpoint ascii_lower (s : string) : string :=
  match s with
  | EmptyString => EmptyString
  | String a s' => String (ascii_lower_char a) (ascii_lower s')
  end.

Definition mars : planet.Planet :=
  planet.__init__ "Marte" 3389 1.52 687 (255, 80, 40)%Z true "" None None.
Definition moon : planet.Planet :=
  planet.__init__ "Lua" 1737 0.00257 27.3 (200, 200, 200)%Z true "" (Some "Terra") None.
(** Sun, Earth, Mars and the Moon, as the second pass links them. *)
Definition inner_system : list planet.Planet :=
  fst (main.second_pass [examples.sun; examples.earth; mars; moon]).

(** A moon listed with no parent, a base that sits on it, and an earth that
    names the sun as its parent. *)
Definition lone_moon : planet.Planet :=
  planet.__init__ "Lua" 1737 0.003 1 (200, 200, 200)%Z true "" None None.
Definition moon_base : planet.Planet :=
  planet.__init__ "Base" 1 0 0 (255, 255, 255)%Z false "" (Some "Lua") None.
Definition late_earth : planet.Planet :=
  planet.__init__ "Terra" 6371 1 365.25 (0, 102, 255)%Z true "" (Some "Sol") None.
Definition moon_first : list planet.Planet :=
  [examples.sun; lone_moon; moon_base; late_earth].
End samples.

(** * Properties *)

(** ** Arithmetic of the builtins *)

Lemma py_max_Rmax a b : py_max a b = Rmax a b.
Proof. unfold py_max, Rmax. destruct (Rlt_dec a b), (Rle_dec a b); lra. Qed.

Lemma py_min_Rmin a b : py_min a b = Rmin a b.
Proof. unfold py_min, Rmin. destruct (Rlt_dec b a), (Rle_dec a b); lra. Qed.

Lemma py_max_lower a b : a <= py_max a b.
Proof. unfold py_max. destruct (Rlt_dec a b); lra. Qed.

Lemma py_max_upper b a : b <= py_max a b.
Proof. unfold py_max. destruct (Rlt_dec a b); lra. Qed.

Lemma clamp_bounds lo hi v : lo <= hi -> lo <= py_max lo (py_min hi v) <= hi.
Proof.
  intros Hle. unfold py_max, py_min.
  destruct (Rlt_dec v hi); destruct (Rlt_dec lo _); lra.
Qed.

Lemma clamp_id lo hi v : lo <= v <= hi -> py_max lo (py_min hi v) = v.
Proof.
  intros Hb. unfold py_max, py_min.
  destruct (Rlt_dec v hi); destruct (Rlt_dec lo _); lra.
Qed.

Lemma clamp_pos lo hi v : 0 < hi -> 0 < v -> 0 < py_max lo (py_min hi v).
Proof.
  intros Hhi Hv. unfold py_max, py_min.
  destruct (Rlt_dec v hi); destruct (Rlt_dec lo _); lra.
Qed.

Lemma Vector2_eq a b : vx a = vx b -> vy a = vy b -> a = b.
Proof. destruct a, b; simpl; intros -> ->; reflexivity. Qed.

(** ** The camera *)

Section CameraFacts.

Import camera.

Variable surf : Display.

(** The pan divisor never vanishes. *)
Lemma zoom_factor_pos z : 0 < py_max z 0.05.
Proof. pose proof (py_max_upper 0.05 z). lra. Qed.

Lemma apply_zoom_returns new_zoom A c :
  zoom c <> 0 ->
  py_max (min_zoom c) (py_min (max_zoom c) new_zoom) <> 0 ->
  _apply_zoom_around_point surf new_zoom A c =
    Returns
      (set_position
         (unproject surf c A
          - (A - screen_center surf)
            / py_max (min_zoom c) (py_min (max_zoom c) new_zoom))%V
         (set_zoom (py_max (min_zoom c) (py_min (max_zoom c) new_zoom)) c)).
Proof.
  intros Hz Hclamp. unfold _apply_zoom_around_point.
  destruct (Req_dec_T (zoom c) 0) as [E|_]; [contradiction|].
  cbn [zoom set_zoom min_zoom max_zoom].
  destruct (Req_dec_T _ 0) as [E|_]; [contradiction|].
  reflexivity.
Qed.

Lemma apply_zoom_raises_after_commit new_zoom A c :
  zoom c <> 0 ->
  py_max (min_zoom c) (py_min (max_zoom c) new_zoom) = 0 ->
  _apply_zoom_around_point surf new_zoom A c = Raises (set_zoom 0 c).
Proof.
  intros Hz Hclamp. unfold _apply_zoom_around_point.
  destruct (Req_dec_T (zoom c) 0) as [E|_]; [contradiction|].
  cbn [zoom set_zoom min_zoom max_zoom]. rewrite Hclamp.
  destruct (Req_dec_T 0 0) as [_|N]; [reflexivity|contradiction].
Qed.

(** Projecting under any non-zero zoom what was read back under the
    same zoom gives the screen point again. *)
Lemma project_anchor c A w z :
  z <> 0 ->
  project surf (set_position (w - (A - screen_center surf) / z)%V (set_zoom z c)) w = A.
Proof.
  intros Hz. unfold project. apply Vector2_eq; simpl; field; exact Hz.
Qed.

End CameraFacts.

(** C1, as amended. Zoom-anchor invariance: for a camera with positive zoom
    and a target zoom whose clamped value [max(min_zoom, min(max_zoom,
    new_zoom))] is not zero, [_apply_zoom_around_point(new_zoom, A)]
    returns, commits the clamped zoom, and the world point that projected
    to the anchor [A] before the call projects exactly to [A] afterwards. *)
Theorem zoom_anchor_invariance
    (surf : camera.Display) (c : camera.Camera) (new_zoom : R) (A : Vector2) :
  0 < camera.zoom c ->
  py_max (camera.min_zoom c) (py_min (camera.max_zoom c) new_zoom) <> 0 ->
  exists c',
    camera._apply_zoom_around_point surf new_zoom A c = camera.Returns c'
    /\ camera.zoom c' = py_max (camera.min_zoom c) (py_min (camera.max_zoom c) new_zoom)
    /\ camera.project surf c' (camera.unproject surf c A) = A.
Proof.
  intros Hz Hclamp. eexists. split.
  - apply apply_zoom_returns; [lra | exact Hclamp].
  - split; [reflexivity|]. apply project_anchor. exact Hclamp.
Qed.

Lemma zoom_anchor_invariance_witness :
  exists c',
    camera._apply_zoom_around_point (Some (800, 600)%Z) 0.9
      (mkVector2 500 300) camera.default_camera = camera.Returns c'
    /\ camera.zoom c' = py_max 0.0015 (py_min 20 0.9)
    /\ camera.project (Some (800, 600)%Z) c'
         (camera.unproject (Some (800, 600)%Z) camera.default_camera
            (mkVector2 500 300)) = mkVector2 500 300.
Proof.
  apply (zoom_anchor_invariance (Some (800, 600)%Z) camera.default_camera 0.9
           (mkVector2 500 300)).
  - simpl. lra.
  - simpl. unfold py_max, py_min.
    destruct (Rlt_dec 0.9 20); destruct (Rlt_dec 0.0015 _); lra.
Defined.

(** C1, counterexample. [Camera(min_zoom=0.0)] has zoom 1; asked for a
    target zoom of 0 around (500, 300) on an 800x600 display, the clamped
    zoom 0 is committed, the second division raises, and the world point
    that was under the anchor now projects to the screen centre. *)
Lemma zoom_anchor_invariance_counterexample :
  let surf := Some (800, 600)%Z in
  let c := camera.__init__ 0 20 1 in
  let A := mkVector2 500 300 in
  0 < camera.zoom c
  /\ camera._apply_zoom_around_point surf 0 A c = camera.Raises (camera.set_zoom 0 c)
  /\ camera.project surf
       (camera.state_of (camera._apply_zoom_around_point surf 0 A c))
       (camera.unproject surf c A) <> A.
Proof.
  intros surf c A.
  assert (Hraise : camera._apply_zoom_around_point surf 0 A c
                   = camera.Raises (camera.set_zoom 0 c)).
  { apply apply_zoom_raises_after_commit.
    - simpl. lra.
    - simpl. unfold py_max, py_min.
      destruct (Rlt_dec 0 20); destruct (Rlt_dec 0 _); lra. }
  split; [simpl; lra|]. split; [exact Hraise|].
  rewrite Hraise. intros Heq. apply (f_equal vx) in Heq.
  simpl in Heq. lra.
Qed.

(** C6, as amended.  Pan reversibility in real arithmetic (floats read as
    real numbers): a pan leaves the zoom alone and moves the camera by
    [-rel * (PAN_BASE_SPEED / max(zoom, 0.05))]; panning by [d] and then by
    [-d] puts [position] back where it was. *)
Theorem pan_reversibility (c : camera.Camera) (d : Vector2) :
  camera.zoom (camera._pan_with_delta d c) = camera.zoom c
  /\ camera.position (camera._pan_with_delta d c)
     = (camera.position c
        - d * (camera.PAN_BASE_SPEED / py_max (camera.zoom c) 0.05))%V
  /\ camera.position
       (camera._pan_with_delta (mkVector2 (- vx d) (- vy d))
          (camera._pan_with_delta d c))
     = camera.position c.
Proof.
  split; [reflexivity|]. split; [reflexivity|].
  pose proof (zoom_factor_pos (camera.zoom c)) as Hpos.
  apply Vector2_eq; simpl; field; lra.
Qed.

(** C6, counterexample. On the binary64 floats the program computes with,
    from [position.x = 0.1] at zoom [1.0]: a pan by [(1, 0)] gives [-2.9],
    and the pan by [(-1, 0)] that follows gives [0.10000000000000009], with
    the zoom as it was. *)
Lemma pan_reversibility_counterexample :
  let there := float64._pan_with_delta float64.one_pixel float64.off_centre in
  let back := float64._pan_with_delta (float64.neg float64.one_pixel) there in
  PrimFloat.eqb (float64.zoom back) (float64.zoom float64.off_centre) = true
  /\ PrimFloat.eqb (float64.vx (float64.position back)) float64.drifted = true
  /\ PrimFloat.eqb (float64.vx (float64.position back))
       (float64.vx (float64.position float64.off_centre)) = false.
Proof. vm_compute. repeat split. Qed.

(** C9. Event routing: with at least one active touch, a mouse button
    press (scroll steps included), a mouse button release and a mouse
    motion each return with the camera exactly as it was. *)
Theorem mouse_ignored_while_touching
    (surf : camera.Display) (c : camera.Camera)
    (button : Z) (pos rel : Vector2) :
  camera.touches c <> [] ->
  camera.handle_event surf (camera.MOUSEBUTTONDOWN button pos) c = camera.Returns c
  /\ camera.handle_event surf (camera.MOUSEBUTTONUP button pos) c = camera.Returns c
  /\ camera.handle_event surf (camera.MOUSEMOTION pos rel) c = camera.Returns c.
Proof.
  intros Hne. unfold camera.handle_event.
  destruct (camera.touches c) as [|t ts]; [contradiction|].
  repeat split.
Qed.

Lemma mouse_ignored_while_touching_witness :
  let c := camera._handle_finger_down (Some (800, 600)%Z) 0 0.5 0.5
             camera.default_camera in
  camera.touches c <> []
  /\ camera.handle_event (Some (800, 600)%Z)
       (camera.MOUSEBUTTONDOWN 4 (mkVector2 10 20)) c = camera.Returns c
  /\ camera.handle_event (Some (800, 600)%Z)
       (camera.MOUSEBUTTONUP 4 (mkVector2 10 20)) c = camera.Returns c
  /\ camera.handle_event (Some (800, 600)%Z)
       (camera.MOUSEMOTION (mkVector2 10 20) (mkVector2 1 1)) c = camera.Returns c.
Proof.
  intros c.
  assert (Hne : camera.touches c <> []) by (simpl; discriminate).
  split; [exact Hne|].
  apply (mouse_ignored_while_touching (Some (800, 600)%Z) c 4
           (mkVector2 10 20) (mkVector2 1 1) Hne).
Defined.

(** ** The pinch gesture *)

Lemma distance_to_same_y x1 x2 y :
  x1 <= x2 -> distance_to (mkVector2 x1 y) (mkVector2 x2 y) = x2 - x1.
Proof.
  intros Hle. unfold distance_to. simpl.
  replace ((x2 - x1) * (x2 - x1) + (y - y) * (y - y)) with ((x2 - x1) * (x2 - x1)) by ring.
  apply sqrt_square. lra.
Qed.

Lemma event_pos_normalised (w h : Z) (px py : R) :
  (w <> 0)%Z -> (h <> 0)%Z ->
  camera.event_pos (Some (w, h)) (px / IZR w) (py / IZR h) = mkVector2 px py.
Proof.
  intros Hw Hh. unfold camera.event_pos. simpl.
  assert (IZR w <> 0) by (apply not_0_IZR; exact Hw).
  assert (IZR h <> 0) by (apply not_0_IZR; exact Hh).
  apply Vector2_eq; simpl; field; assumption.
Qed.

(** A motion of the first of two touches that spreads them by more than
    one percent: the new position is stored first, and the zoom request
    is anchored at the midpoint of the stored positions. *)
Lemma motion_spreading_pinch surf a b pa pb x y last c :
  camera.touches c = [(a, pa); (b, pb)] ->
  camera.last_pinch_dist c = Some last ->
  0 < last ->
  1.01 < distance_to (camera.event_pos surf x y) pb / last ->
  camera.handle_event surf (camera.FINGERMOTION a x y) c =
    camera.bind
      (camera._apply_zoom_around_point surf (camera.zoom c * 0.9)
         ((camera.event_pos surf x y + pb) / 2)%V
         (camera.set_touches [(a, camera.event_pos surf x y); (b, pb)] c))
      (fun c' => camera.Returns
         (camera.set_last_pinch_dist
            (Some (distance_to (camera.event_pos surf x y) pb)) c')).
Proof.
  intros Ht Hl Hpos Hratio.
  unfold camera.handle_event, camera._handle_finger_motion.
  rewrite Ht. cbn [pydict.set]. rewrite Z.eqb_refl.
  cbn [camera.touches camera.set_touches length Nat.eqb pydict.values map snd
       camera.last_pinch_dist camera.zoom].
  rewrite Hl.
  destruct (Rlt_dec 0 last) as [_|N]; [|contradiction].
  destruct (Rlt_dec 1.01 _) as [_|N]; [|contradiction].
  reflexivity.
Qed.

Lemma finger_down_first surf k x y c :
  camera.touches c = [] ->
  camera._handle_finger_down surf k x y c =
    camera.set__last_mouse_pos (camera.event_pos surf x y)
      (camera.set_is_dragging true
         (camera.set__dragging true
            (camera.set_touches [(k, camera.event_pos surf x y)] c))).
Proof. intros Ht. unfold camera._handle_finger_down. rewrite Ht. reflexivity. Qed.

Lemma finger_down_second surf a pa k x y c :
  camera.touches c = [(a, pa)] -> k <> a ->
  camera._handle_finger_down surf k x y c =
    camera.set_last_pinch_dist (Some (distance_to pa (camera.event_pos surf x y)))
      (camera.set_touches [(a, pa); (k, camera.event_pos surf x y)] c).
Proof.
  intros Ht Hk. unfold camera._handle_finger_down. rewrite Ht.
  cbn [pydict.set]. destruct (Z.eqb_spec k a) as [E|_]; [contradiction|].
  reflexivity.
Qed.

(** C3, as amended. Pinch scenario: with exactly two active touches at
    (100,300) and (200,300) and baseline 100, moving the first touch to
    (50,300) requests one zoom-in step [zoom * 0.9] through
    [_apply_zoom_around_point], anchored at the midpoint (125,300) of the
    touches after the move; with positive zoom and [max_zoom] the call
    returns with the clamped zoom, which is [zoom * 0.9] when that lies
    within the bounds, and the baseline becomes 150. *)
Theorem pinch_scenario (w h a b : Z) (c : camera.Camera) :
  (w <> 0)%Z -> (h <> 0)%Z -> a <> b ->
  camera.touches c = [(a, mkVector2 100 300); (b, mkVector2 200 300)] ->
  camera.last_pinch_dist c = Some 100 ->
  0 < camera.zoom c -> 0 < camera.max_zoom c ->
  exists c',
    camera._apply_zoom_around_point (Some (w, h)) (camera.zoom c * 0.9)
      (mkVector2 125 300)
      (camera.set_touches [(a, mkVector2 50 300); (b, mkVector2 200 300)] c)
    = camera.Returns c'
    /\ camera.handle_event (Some (w, h))
         (camera.FINGERMOTION a (50 / IZR w) (300 / IZR h)) c
       = camera.Returns (camera.set_last_pinch_dist (Some 150) c')
    /\ camera.zoom c'
       = py_max (camera.min_zoom c) (py_min (camera.max_zoom c) (camera.zoom c * 0.9))
    /\ (camera.min_zoom c <= camera.zoom c * 0.9 <= camera.max_zoom c ->
        camera.zoom c' = camera.zoom c * 0.9)
    /\ camera.project (Some (w, h)) c'
         (camera.unproject (Some (w, h)) c (mkVector2 125 300))
       = mkVector2 125 300.
Proof.
  intros Hw Hh _ Ht Hl Hz Hmax.
  set (c1 := camera.set_touches [(a, mkVector2 50 300); (b, mkVector2 200 300)] c).
  assert (Hclamp : 0 < py_max (camera.min_zoom c)
                         (py_min (camera.max_zoom c) (camera.zoom c * 0.9)))
    by (apply clamp_pos; lra).
  assert (Hret := apply_zoom_returns (Some (w, h)) (camera.zoom c * 0.9)
                    (mkVector2 125 300) c1).
  cbn [c1 camera.zoom camera.min_zoom camera.max_zoom camera.set_touches] in Hret.
  specialize (Hret ltac:(lra) ltac:(lra)).
  eexists. split; [exact Hret|]. split; [|split; [|split]].
  - rewrite (motion_spreading_pinch (Some (w, h)) a b (mkVector2 100 300)
               (mkVector2 200 300) _ _ 100 c Ht Hl ltac:(lra)).
    + rewrite (event_pos_normalised w h 50 300 Hw Hh).
      rewrite (distance_to_same_y 50 200 300 ltac:(lra)).
      replace ((mkVector2 50 300 + mkVector2 200 300) / 2)%V
        with (mkVector2 125 300) by (apply Vector2_eq; simpl; lra).
      fold c1. rewrite Hret. cbn [camera.bind].
      replace (200 - 50) with 150 by lra. reflexivity.
    + rewrite (event_pos_normalised w h 50 300 Hw Hh).
      rewrite (distance_to_same_y 50 200 300 ltac:(lra)). lra.
  - reflexivity.
  - intros Hb. cbn [camera.zoom camera.set_position camera.set_zoom].
    apply clamp_id. exact Hb.
  - apply (project_anchor (Some (w, h)) c1 (mkVector2 125 300)
             (camera.unproject (Some (w, h)) c (mkVector2 125 300))). lra.
Qed.

Lemma pinch_scenario_witness :
  let c := camera.set_last_pinch_dist (Some 100)
             (camera.set_touches [(0%Z, mkVector2 100 300); (1%Z, mkVector2 200 300)]
                camera.default_camera) in
  exists c',
    camera._apply_zoom_around_point (Some (800, 600)%Z) (camera.zoom c * 0.9)
      (mkVector2 125 300)
      (camera.set_touches [(0%Z, mkVector2 50 300); (1%Z, mkVector2 200 300)] c)
    = camera.Returns c'
    /\ camera.handle_event (Some (800, 600)%Z)
         (camera.FINGERMOTION 0 (50 / IZR 800) (300 / IZR 600)) c
       = camera.Returns (camera.set_last_pinch_dist (Some 150) c')
    /\ camera.zoom c'
       = py_max (camera.min_zoom c) (py_min (camera.max_zoom c) (camera.zoom c * 0.9))
    /\ (camera.min_zoom c <= camera.zoom c * 0.9 <= camera.max_zoom c ->
        camera.zoom c' = camera.zoom c * 0.9)
    /\ camera.project (Some (800, 600)%Z) c'
         (camera.unproject (Some (800, 600)%Z) c (mkVector2 125 300))
       = mkVector2 125 300.
Proof.
  intros c.
  apply (pinch_scenario 800 600 0 1 c); try reflexivity; try lia; simpl; lra.
Defined.

(** C3, counterexample. The scenario on an 800x600 display, from
    [Camera()]: after the two touch-downs and the motion the zoom is
    0.9 and the baseline 150, but the world point that was under the
    pre-move midpoint (150,300) is no longer projected there, so that
    point is not the anchor of the zoom step. *)
Lemma pinch_scenario_counterexample :
  let surf := Some (800, 600)%Z in
  let c := camera.state_of
             (camera.run surf
                [camera.FINGERDOWN 0 (100 / IZR 800) (300 / IZR 600);
                 camera.FINGERDOWN 1 (200 / IZR 800) (300 / IZR 600)]
                camera.default_camera) in
  let o := camera.handle_event surf
             (camera.FINGERMOTION 0 (50 / IZR 800) (300 / IZR 600)) c in
  camera.touches c = [(0%Z, mkVector2 100 300); (1%Z, mkVector2 200 300)]
  /\ camera.last_pinch_dist c = Some 100
  /\ camera.zoom (camera.state_of o) = camera.zoom c * 0.9
  /\ camera.last_pinch_dist (camera.state_of o) = Some 150
  /\ camera.project surf (camera.state_of o)
       (camera.unproject surf c (mkVector2 150 300)) <> mkVector2 150 300.
Proof.
  intros surf c o.
  assert (Hw : (800 <> 0)%Z) by lia. assert (Hh : (600 <> 0)%Z) by lia.
  assert (Hc : c = camera.set_last_pinch_dist (Some 100)
                 (camera.set_touches [(0%Z, mkVector2 100 300); (1%Z, mkVector2 200 300)]
                    (camera.set__last_mouse_pos (mkVector2 100 300)
                       (camera.set_is_dragging true
                          (camera.set__dragging true camera.default_camera))))).
  { subst c surf. cbn [camera.run camera.handle_event camera.bind camera.state_of].
    rewrite (finger_down_first _ 0 _ _ camera.default_camera eq_refl).
    rewrite (event_pos_normalised 800 600 100 300 Hw Hh).
    erewrite (finger_down_second _ 0 (mkVector2 100 300) 1); [|reflexivity|lia].
    rewrite (event_pos_normalised 800 600 200 300 Hw Hh).
    rewrite (distance_to_same_y 100 200 300 ltac:(lra)).
    replace (200 - 100) with 100 by lra. reflexivity. }
  clearbody c.
  assert (Ht : camera.touches c = [(0%Z, mkVector2 100 300); (1%Z, mkVector2 200 300)])
    by (rewrite Hc; reflexivity).
  assert (Hl : camera.last_pinch_dist c = Some 100) by (rewrite Hc; reflexivity).
  assert (Hz : camera.zoom c = 1) by (rewrite Hc; reflexivity).
  assert (Hp : camera.position c = mkVector2 0 0) by (rewrite Hc; reflexivity).
  assert (Hmn : camera.min_zoom c = 0.0015) by (rewrite Hc; reflexivity).
  assert (Hmx : camera.max_zoom c = 20) by (rewrite Hc; reflexivity).
  clear Hc.
  assert (Hclamp : py_max 0.0015 (py_min 20 (1 * 0.9)) = 1 * 0.9).
  { unfold py_max, py_min. destruct (Rlt_dec (1 * 0.9) 20); destruct (Rlt_dec 0.0015 _); lra. }
  split; [exact Ht|]. split; [exact Hl|].
  subst o surf.
  rewrite (motion_spreading_pinch _ 0 1 (mkVector2 100 300) (mkVector2 200 300)
             _ _ 100 c Ht Hl ltac:(lra)).
  - rewrite (event_pos_normalised 800 600 50 300 Hw Hh).
    rewrite (distance_to_same_y 50 200 300 ltac:(lra)).
    rewrite apply_zoom_returns.
    + cbn [camera.bind camera.state_of]. simpl. rewrite ?Hz, ?Hmn, ?Hmx, ?Hclamp.
      split; [reflexivity|]. split; [f_equal; lra|].
      unfold camera.project, camera.unproject, camera.screen_center.
      intros Heq. apply (f_equal vx) in Heq. simpl in Heq.
      rewrite Hz, Hp in Heq. simpl in Heq. lra.
    + simpl. lra.
    + simpl. rewrite Hz, Hmn, Hmx, Hclamp. lra.
  - rewrite (event_pos_normalised 800 600 50 300 Hw Hh).
    rewrite (distance_to_same_y 50 200 300 ltac:(lra)). lra.
Qed.

(** ** Sessions of events *)

Section Sessions.

Import camera session.

Variable surf : Display.

(** What a zoom request leaves alone. *)
Lemma apply_zoom_frame new_zoom A c :
  let c' := state_of (_apply_zoom_around_point surf new_zoom A c) in
  min_zoom c' = min_zoom c /\ max_zoom c' = max_zoom c
  /\ touches c' = touches c /\ last_pinch_dist c' = last_pinch_dist c.
Proof.
  unfold _apply_zoom_around_point.
  destruct (Req_dec_T (zoom c) 0); [repeat split|].
  destruct (Req_dec_T _ 0); repeat split.
Qed.

Lemma clamp_safe c new_zoom :
  zoom_safe c -> 0 < new_zoom ->
  0 < py_max (min_zoom c) (py_min (max_zoom c) new_zoom).
Proof.
  intros [_ [Hmin|Hmax]] Hnz.
  - pose proof (py_max_lower (min_zoom c) (py_min (max_zoom c) new_zoom)). lra.
  - apply clamp_pos; assumption.
Qed.

Lemma apply_zoom_step new_zoom A c :
  zoom_safe c -> 0 < new_zoom ->
  exists c', _apply_zoom_around_point surf new_zoom A c = Returns c'
             /\ zoom_step c c'
             /\ touches c' = touches c
             /\ last_pinch_dist c' = last_pinch_dist c.
Proof.
  intros Hs Hnz. pose proof (clamp_safe c new_zoom Hs Hnz) as Hc.
  destruct Hs as [Hz _].
  rewrite apply_zoom_returns by lra.
  eexists. split; [reflexivity|]. repeat split.
  right. exists new_zoom. split; [exact Hnz|reflexivity].
Qed.

Ltac same_zoom :=
  eexists; split; [reflexivity|];
  unfold zoom_step; repeat split; left; reflexivity.

Lemma finger_motion_step k x y c :
  zoom_safe c ->
  exists c', _handle_finger_motion surf k x y c = Returns c' /\ zoom_step c c'.
Proof.
  intros Hs. unfold _handle_finger_motion.
  set (c1 := set_touches _ c).
  assert (Hs1 : zoom_safe c1) by exact Hs.
  destruct (Nat.eqb (length (touches c1)) 1);
    [same_zoom|].
  destruct (Nat.eqb (length (touches c1)) 2);
    [|same_zoom].
  destruct (pydict.values (touches c1)) as [|p1 [|p2 ps]];
    try (same_zoom).
  destruct (last_pinch_dist c1) as [last|];
    [|same_zoom].
  destruct (Rlt_dec 0 last);
    [|same_zoom].
  destruct Hs as [Hz Hm].
  destruct (Rlt_dec 1.01 _).
  { destruct (apply_zoom_step (zoom c1 * 0.9) ((p1 + p2) / 2)%V c1 Hs1)
      as (c' & -> & Hstep & _); [change (zoom c1) with (zoom c); lra|].
    eexists. split; [reflexivity|exact Hstep]. }
  destruct (Rlt_dec _ 0.99).
  { destruct (apply_zoom_step (zoom c1 * 1.1) ((p1 + p2) / 2)%V c1 Hs1)
      as (c' & -> & Hstep & _); [change (zoom c1) with (zoom c); lra|].
    eexists. split; [reflexivity|exact Hstep]. }
  same_zoom.
Qed.

Lemma handle_mouse_step e c :
  zoom_safe c ->
  exists c', handle_mouse surf e c = Returns c' /\ zoom_step c c'
             /\ touches c' = touches c
             /\ last_pinch_dist c' = last_pinch_dist c.
Proof.
  intros Hs. pose proof Hs as [Hz _].
  destruct e; cbn [handle_mouse];
    try (same_zoom).
  - destruct (Z.eqb button 3 && pan_enabled c);
      [same_zoom|].
    destruct (Z.eqb button 4); [apply apply_zoom_step; [exact Hs|lra]|].
    destruct (Z.eqb button 5); [apply apply_zoom_step; [exact Hs|lra]|].
    same_zoom.
  - destruct (Z.eqb button 3);
      same_zoom.
  - destruct (_dragging c && pan_enabled c);
      same_zoom.
Qed.

Lemma finger_down_fields k x y c :
  let c' := _handle_finger_down surf k x y c in
  min_zoom c' = min_zoom c /\ max_zoom c' = max_zoom c /\ zoom c' = zoom c
  /\ touches c' = pydict.set k (event_pos surf x y) (touches c).
Proof.
  unfold _handle_finger_down.
  set (c1 := set_touches _ c).
  destruct (Nat.eqb (length (touches c1)) 1); [repeat split|].
  destruct (Nat.eqb (length (touches c1)) 2); [|repeat split].
  destruct (pydict.values (touches c1)) as [|f0 [|f1 fs]]; repeat split.
Qed.

Lemma finger_up_fields k c :
  let c' := _handle_finger_up k c in
  min_zoom c' = min_zoom c /\ max_zoom c' = max_zoom c /\ zoom c' = zoom c
  /\ touches c' = if pydict.mem k (touches c)
                  then pydict.del k (touches c) else touches c.
Proof.
  unfold _handle_finger_up.
  destruct (pydict.mem k (touches c));
    match goal with |- context [Nat.eqb (length (touches ?c1)) 0] =>
      destruct (Nat.eqb (length (touches c1)) 0); [repeat split|];
      destruct (Nat.eqb (length (touches c1)) 1); [|repeat split];
      destruct (pydict.values (touches c1)); repeat split
    end.
Qed.

Lemma handle_event_step e c :
  zoom_safe c ->
  exists c', handle_event surf e c = Returns c' /\ zoom_step c c'.
Proof.
  intros Hs.
  destruct e as [k x y|k x y|k x y|button pos|button pos|pos rel|].
  - exists (_handle_finger_down surf k x y c). split; [reflexivity|].
    destruct (finger_down_fields k x y c) as (H1 & H2 & H3 & _).
    unfold zoom_step. auto.
  - exists (_handle_finger_up k c). split; [reflexivity|].
    destruct (finger_up_fields k c) as (H1 & H2 & H3 & _).
    unfold zoom_step. auto.
  - apply finger_motion_step. exact Hs.
  - cbn [handle_event]. destruct (touches c); [|same_zoom].
    destruct (handle_mouse_step (MOUSEBUTTONDOWN button pos) c Hs)
      as (c' & E & Hstep & _). eauto.
  - cbn [handle_event]. destruct (touches c); [|same_zoom].
    destruct (handle_mouse_step (MOUSEBUTTONUP button pos) c Hs)
      as (c' & E & Hstep & _). eauto.
  - cbn [handle_event]. destruct (touches c); [|same_zoom].
    destruct (handle_mouse_step (MOUSEMOTION pos rel) c Hs)
      as (c' & E & Hstep & _). eauto.
  - cbn [handle_event]. destruct (touches c); same_zoom.
Qed.

Lemma zoom_step_safe c c' : zoom_safe c -> zoom_step c c' -> zoom_safe c'.
Proof.
  intros Hs (Hmin & Hmax & Hz). split.
  - destruct Hz as [-> | (nz & Hnz & ->)]; [apply Hs|].
    apply clamp_safe; assumption.
  - rewrite Hmin, Hmax. apply Hs.
Qed.

Lemma step_within_bounds c c' :
  min_zoom c <= zoom c <= max_zoom c -> zoom_step c c' ->
  min_zoom c' <= zoom c' <= max_zoom c'.
Proof.
  intros Hb (Hmin & Hmax & Hz). rewrite Hmin, Hmax.
  destruct Hz as [-> | (nz & _ & ->)]; [exact Hb|].
  apply clamp_bounds. lra.
Qed.

(** An invariant of every returning event is an invariant of sessions,
    and such sessions run to their end. *)
Lemma run_invariant (P : Camera -> Prop) :
  (forall e c, P c -> exists c', handle_event surf e c = Returns c' /\ P c') ->
  forall events c, P c -> exists c', run surf events c = Returns c' /\ P c'.
Proof.
  intros Hstep events. induction events as [|e events IH]; intros c HP.
  - exists c. split; [reflexivity|exact HP].
  - destruct (Hstep e c HP) as (c1 & E & HP1).
    destruct (IH c1 HP1) as (c' & Erun & HP').
    exists c'. split; [|exact HP'].
    cbn [run]. rewrite E. exact Erun.
Qed.

Lemma run_zoom_safe events c :
  zoom_safe c ->
  exists c', run surf events c = Returns c'
             /\ zoom_safe c'
             /\ min_zoom c' = min_zoom c /\ max_zoom c' = max_zoom c.
Proof.
  intros Hs.
  apply (run_invariant
           (fun c' => zoom_safe c'
                      /\ min_zoom c' = min_zoom c /\ max_zoom c' = max_zoom c));
    [|split; [exact Hs|split; reflexivity]].
  intros e c0 (Hs0 & Hmin & Hmax).
  destruct (handle_event_step e c0 Hs0) as (c1 & E & Hstep).
  exists c1. split; [exact E|].
  split; [eapply zoom_step_safe; eassumption|].
  destruct Hstep as (H1 & H2 & _). split; congruence.
Qed.

Lemma run_within_bounds events c :
  zoom_safe c -> min_zoom c <= zoom c <= max_zoom c ->
  exists c', run surf events c = Returns c'
             /\ min_zoom c' = min_zoom c /\ max_zoom c' = max_zoom c
             /\ min_zoom c' <= zoom c' <= max_zoom c'.
Proof.
  intros Hs Hb.
  destruct (run_invariant
           (fun c' => zoom_safe c'
                      /\ (min_zoom c' = min_zoom c /\ max_zoom c' = max_zoom c)
                      /\ min_zoom c' <= zoom c' <= max_zoom c'))
    with (events := events) (c := c) as (c' & E & _ & Hcfg & Hb').
  - intros e c0 (Hs0 & (Hmin & Hmax) & Hb0).
    destruct (handle_event_step e c0 Hs0) as (c1 & E & Hstep).
    exists c1. split; [exact E|].
    split; [eapply zoom_step_safe; eassumption|].
    split; [destruct Hstep as (H1 & H2 & _); split; congruence|].
    eapply step_within_bounds; eassumption.
  - split; [exact Hs|]. split; [split; reflexivity|exact Hb].
  - exists c'. split; [exact E|]. split; [apply Hcfg|]. split; [apply Hcfg|exact Hb'].
Qed.

End Sessions.

(** C8, as amended. Zoom positivity: [Camera.__init__] stores [min_zoom]
    as given and enforces nothing; for a camera constructed with
    [min_zoom > 0], every session of events runs without a division by
    zero and ends with [zoom > 0]; the pan divisor [max(zoom, 0.05)] is
    positive for any zoom. *)
Theorem zoom_positivity
    (mn mx zs : R) (surf : camera.Display) (events : list camera.Event) :
  0 < mn ->
  camera.min_zoom (camera.__init__ mn mx zs) = mn
  /\ (exists c, camera.run surf events (camera.__init__ mn mx zs) = camera.Returns c
                /\ 0 < camera.zoom c
                /\ 0 < py_max (camera.zoom c) 0.05).
Proof.
  intros Hmn. split; [reflexivity|].
  destruct (run_zoom_safe surf events (camera.__init__ mn mx zs))
    as (c & E & [Hz _] & _).
  - split; [simpl; lra|left; exact Hmn].
  - exists c. split; [exact E|]. split; [exact Hz|apply zoom_factor_pos].
Qed.

Lemma zoom_positivity_witness :
  0 < 0.0015
  /\ camera.min_zoom (camera.__init__ 0.0015 10 1) = 0.0015
  /\ (exists c,
        camera.run (Some (800, 600)%Z)
          [camera.MOUSEBUTTONDOWN 4 (mkVector2 400 300)]
          (camera.__init__ 0.0015 10 1) = camera.Returns c
        /\ 0 < camera.zoom c
        /\ 0 < py_max (camera.zoom c) 0.05).
Proof.
  assert (H : 0 < 0.0015) by lra.
  split; [exact H|].
  exact (zoom_positivity 0.0015 10 1 (Some (800, 600)%Z)
           [camera.MOUSEBUTTONDOWN 4 (mkVector2 400 300)] H).
Defined.

(** C8, counterexample. [Camera(min_zoom=0.0, max_zoom=0.0)] is
    constructed with its [min_zoom] of 0 kept; one scroll-up step commits
    zoom 0 and the division that follows raises.
    [Camera(min_zoom=-2.0, max_zoom=-1.0)] ends the same step with the
    negative zoom -1. *)
Lemma zoom_positivity_counterexample :
  let surf := Some (800, 600)%Z in
  let scroll_up := camera.MOUSEBUTTONDOWN 4 (mkVector2 400 300) in
  camera.min_zoom (camera.__init__ 0 0 1) = 0
  /\ camera.run surf [scroll_up] (camera.__init__ 0 0 1)
     = camera.Raises (camera.set_zoom 0 (camera.__init__ 0 0 1))
  /\ camera.zoom (camera.state_of
                    (camera.run surf [scroll_up] (camera.__init__ (-2) (-1) 1)))
     = -1.
Proof.
  intros surf scroll_up. subst surf scroll_up. split; [reflexivity|]. split.
  - cbn [camera.run camera.handle_event camera.__init__ camera.touches
         camera.handle_mouse Z.eqb Pos.eqb andb camera.zoom].
    rewrite apply_zoom_raises_after_commit; [reflexivity| |].
    + simpl. lra.
    + simpl. unfold py_max, py_min.
      destruct (Rlt_dec (1 * 0.9) 0); destruct (Rlt_dec 0 _); lra.
  - cbn [camera.run camera.handle_event camera.__init__ camera.touches
         camera.handle_mouse Z.eqb Pos.eqb andb camera.zoom].
    rewrite apply_zoom_returns.
    + simpl. unfold py_max, py_min.
      destruct (Rlt_dec (1 * 0.9) (-1)); destruct (Rlt_dec (-2) _); lra.
    + simpl. lra.
    + simpl. unfold py_max, py_min.
      destruct (Rlt_dec (1 * 0.9) (-1)); destruct (Rlt_dec (-2) _); lra.
Qed.

(** C4, as amended. Zoom bounds: for a camera constructed with
    [min_zoom <= 1 <= max_zoom] (the initial zoom is 1), every session
    of events runs to its end and leaves
    [min_zoom <= zoom <= max_zoom], the two bounds being unchanged. *)
Theorem zoom_bounds
    (mn mx zs : R) (surf : camera.Display) (events : list camera.Event) :
  mn <= 1 <= mx ->
  exists c, camera.run surf events (camera.__init__ mn mx zs) = camera.Returns c
            /\ camera.min_zoom c = mn /\ camera.max_zoom c = mx
            /\ mn <= camera.zoom c <= mx.
Proof.
  intros Hb.
  destruct (run_within_bounds surf events (camera.__init__ mn mx zs))
    as (c & E & Hmin & Hmax & Hz).
  - split; [simpl; lra|right; simpl; lra].
  - simpl. lra.
  - simpl in Hmin, Hmax. exists c. rewrite Hmin, Hmax in Hz. auto.
Qed.

Lemma zoom_bounds_witness :
  0.0015 <= 1 <= 20
  /\ exists c,
       camera.run (Some (800, 600)%Z)
         [camera.MOUSEBUTTONDOWN 5 (mkVector2 400 300);
          camera.MOUSEBUTTONDOWN 4 (mkVector2 10 10)]
         (camera.__init__ 0.0015 20 1) = camera.Returns c
       /\ camera.min_zoom c = 0.0015 /\ camera.max_zoom c = 20
       /\ 0.0015 <= camera.zoom c <= 20.
Proof.
  assert (H : 0.0015 <= 1 <= 20) by lra.
  split; [exact H|].
  exact (zoom_bounds 0.0015 20 1 (Some (800, 600)%Z)
           [camera.MOUSEBUTTONDOWN 5 (mkVector2 400 300);
            camera.MOUSEBUTTONDOWN 4 (mkVector2 10 10)] H).
Defined.

(** C4, counterexample. [Camera(min_zoom=2.0, max_zoom=20.0)] starts
    with zoom 1, below its [min_zoom], before any zoom operation; and
    [Camera(min_zoom=5.0, max_zoom=2.0)] has zoom 5, above its
    [max_zoom], after one scroll-up step. *)
Lemma zoom_bounds_counterexample :
  let surf := Some (800, 600)%Z in
  let within c := camera.min_zoom c <= camera.zoom c <= camera.max_zoom c in
  ~ within (camera.state_of (camera.run surf [] (camera.__init__ 2 20 1)))
  /\ ~ within (camera.state_of
                 (camera.run surf [camera.MOUSEBUTTONDOWN 4 (mkVector2 400 300)]
                    (camera.__init__ 5 2 1))).
Proof.
  intros surf within. split.
  - unfold within. simpl. lra.
  - unfold within.
    cbn [camera.run camera.handle_event camera.__init__ camera.touches
         camera.handle_mouse Z.eqb Pos.eqb andb camera.zoom].
    rewrite apply_zoom_returns.
    + simpl. unfold py_max, py_min.
      destruct (Rlt_dec (1 * 0.9) 2); destruct (Rlt_dec 5 _); lra.
    + simpl. lra.
    + simpl. unfold py_max, py_min.
      destruct (Rlt_dec (1 * 0.9) 2); destruct (Rlt_dec 5 _); lra.
Qed.

(** ** The touch set *)

Section Dict.
Import touch_stream.

Lemma mem_keys k d : pydict.mem k d = elem k (pydict.keys d).
Proof.
  unfold pydict.mem, elem. induction d as [|[k' v] d IH]; [reflexivity|].
  simpl. destruct (Z.eqb k k'); [reflexivity|exact IH].
Qed.

Lemma length_set k v d :
  length (pydict.set k v d) = if pydict.mem k d then length d else S (length d).
Proof.
  unfold pydict.mem. induction d as [|[k' v'] d IH]; [reflexivity|].
  simpl. destruct (Z.eqb k k'); [reflexivity|].
  simpl. rewrite IH. destruct (pydict.get k d); reflexivity.
Qed.

Lemma length_del k d :
  pydict.mem k d = true -> S (length (pydict.del k d)) = length d.
Proof.
  unfold pydict.mem. induction d as [|[k' v'] d IH]; [discriminate|].
  simpl. destruct (Z.eqb k k'); [reflexivity|].
  intros H. simpl. rewrite IH; [reflexivity|exact H].
Qed.

Lemma keys_set k v d :
  pydict.keys (pydict.set k v d)
  = if pydict.mem k d then pydict.keys d else pydict.keys d ++ [k].
Proof.
  unfold pydict.mem. induction d as [|[k' v'] d IH]; [reflexivity|].
  simpl. destruct (Z.eqb_spec k k') as [->|Hne]; [reflexivity|].
  simpl. rewrite IH. destruct (pydict.get k d); reflexivity.
Qed.

Lemma keys_del k d : pydict.keys (pydict.del k d) = remove_first k (pydict.keys d).
Proof.
  induction d as [|[k' v'] d IH]; [reflexivity|].
  simpl. destruct (Z.eqb k k'); [reflexivity|]. simpl. rewrite IH. reflexivity.
Qed.

Lemma length_values d : length (pydict.values d) = length d.
Proof. apply length_map. Qed.

End Dict.

Section Touches.
Import camera touch_stream.
Variable surf : Display.

Lemma finger_down_pinch k x y c :
  let c' := _handle_finger_down surf k x y c in
  (length (touches c') = 2%nat -> is_Some (last_pinch_dist c'))
  /\ (length (touches c') <> 2%nat -> last_pinch_dist c' = last_pinch_dist c).
Proof.
  intros c'. destruct (finger_down_fields surf k x y c) as (_ & _ & _ & Ht).
  fold c' in Ht. rewrite Ht. subst c'. unfold _handle_finger_down.
  set (c1 := set_touches _ c).
  change (touches c1) with (pydict.set k (event_pos surf x y) (touches c)).
  destruct (Nat.eqb_spec (length (pydict.set k (event_pos surf x y) (touches c))) 1)
    as [E1|N1]; [split; [lia|reflexivity]|].
  destruct (Nat.eqb_spec (length (pydict.set k (event_pos surf x y) (touches c))) 2)
    as [E2|N2]; [|split; [lia|reflexivity]].
  pose proof (length_values (pydict.set k (event_pos surf x y) (touches c))) as Hv.
  destruct (pydict.values _) as [|f0 [|f1 fs]]; simpl in Hv; try lia.
  split; [eexists; reflexivity|lia].
Qed.

Lemma finger_up_pinch k c :
  let c' := _handle_finger_up k c in
  ((length (touches c') < 2)%nat -> last_pinch_dist c' = None)
  /\ ((2 <= length (touches c'))%nat -> last_pinch_dist c' = last_pinch_dist c).
Proof.
  intros c'. destruct (finger_up_fields k c) as (_ & _ & _ & Ht).
  fold c' in Ht. rewrite Ht. subst c'. unfold _handle_finger_up.
  set (c1 := if pydict.mem k (touches c) then _ else c).
  assert (Ht1 : touches c1
                = if pydict.mem k (touches c) then pydict.del k (touches c)
                  else touches c) by (subst c1; destruct (pydict.mem _ _); reflexivity).
  assert (Hl1 : last_pinch_dist c1 = last_pinch_dist c)
    by (subst c1; destruct (pydict.mem _ _); reflexivity).
  rewrite <- Ht1. clearbody c1.
  destruct (Nat.eqb_spec (length (touches c1)) 0) as [E0|N0];
    [split; [reflexivity|lia]|].
  destruct (Nat.eqb_spec (length (touches c1)) 1) as [E1|N1];
    [|split; [lia|exact (fun _ => Hl1)]].
  pose proof (length_values (touches c1)) as Hv.
  destruct (pydict.values _) as [|f0 fs]; simpl in Hv; [lia|].
  split; [reflexivity|lia].
Qed.

Lemma finger_motion_pinch k x y c c' :
  _handle_finger_motion surf k x y c = Returns c' ->
  touches c' = pydict.set k (event_pos surf x y) (touches c)
  /\ (length (touches c') = 2%nat -> is_Some (last_pinch_dist c'))
  /\ (length (touches c') <> 2%nat -> last_pinch_dist c' = last_pinch_dist c).
Proof.
  unfold _handle_finger_motion.
  set (c1 := set_touches _ c).
  change (touches c1) with (pydict.set k (event_pos surf x y) (touches c)).
  set (d1 := pydict.set k (event_pos surf x y) (touches c)).
  destruct (Nat.eqb_spec (length d1) 1) as [E1|N1].
  { intros [= <-]. repeat split; simpl; fold d1; intros; lia || reflexivity. }
  destruct (Nat.eqb_spec (length d1) 2) as [E2|N2].
  2:{ intros [= <-]. repeat split; simpl; fold d1; intros; lia || reflexivity. }
  pose proof (length_values d1) as Hv.
  destruct (pydict.values d1) as [|p1 [|p2 ps]]; simpl in Hv; try lia.
  match goal with |- (?inner >>= _) = _ -> _ => destruct inner as [c2|c2] eqn:Einner end;
    [|discriminate].
  cbn [bind]. intros [= <-]. cbn [touches set_last_pinch_dist last_pinch_dist].
  assert (Ht2 : touches c2 = d1).
  { destruct (last_pinch_dist c1) as [last|]; [|injection Einner as <-; reflexivity].
    destruct (Rlt_dec 0 last); [|injection Einner as <-; reflexivity].
    destruct (Rlt_dec 1.01 _).
    { pose proof (apply_zoom_frame surf (zoom c1 * 0.9) ((p1 + p2) / 2)%V c1) as H.
      rewrite Einner in H. apply H. }
    destruct (Rlt_dec _ 0.99).
    { pose proof (apply_zoom_frame surf (zoom c1 * 1.1) ((p1 + p2) / 2)%V c1) as H.
      rewrite Einner in H. apply H. }
    injection Einner as <-; reflexivity. }
  rewrite Ht2. split; [reflexivity|]. split; [eexists; reflexivity|lia].
Qed.

End Touches.

Section TouchSessions.
Import camera touch_stream.
Variable surf : Display.

Lemma handle_mouse_touches e c c' :
  handle_mouse surf e c = Returns c' ->
  touches c' = touches c /\ last_pinch_dist c' = last_pinch_dist c.
Proof.
  assert (Hzoom : forall nz A, _apply_zoom_around_point surf nz A c = Returns c' ->
            touches c' = touches c /\ last_pinch_dist c' = last_pinch_dist c).
  { intros nz A E. pose proof (apply_zoom_frame surf nz A c) as H.
    rewrite E in H. split; apply H. }
  destruct e; cbn [handle_mouse]; try (intros [= <-]; split; reflexivity).
  - destruct (Z.eqb button 3 && pan_enabled c); [intros [= <-]; split; reflexivity|].
    destruct (Z.eqb button 4); [apply Hzoom|].
    destruct (Z.eqb button 5); [apply Hzoom|].
    intros [= <-]; split; reflexivity.
  - destruct (Z.eqb button 3); intros [= <-]; split; reflexivity.
  - destruct (_dragging c && pan_enabled c); intros [= <-]; split; reflexivity.
Qed.

Lemma handle_event_touches e c c' :
  handle_event surf e c = Returns c' ->
  touches c' = next_touches surf e (touches c).
Proof.
  destruct e as [k x y|k x y|k x y|button pos|button pos|pos rel|];
    cbn [handle_event next_touches].
  - intros [= <-]. apply finger_down_fields.
  - intros [= <-]. apply finger_up_fields.
  - intros E. apply (finger_motion_pinch surf k x y c c' E).
  - destruct (touches c) eqn:Et; [|intros [= <-]; exact Et].
    intros E. apply handle_mouse_touches in E. rewrite <- Et. apply E.
  - destruct (touches c) eqn:Et; [|intros [= <-]; exact Et].
    intros E. apply handle_mouse_touches in E. rewrite <- Et. apply E.
  - destruct (touches c) eqn:Et; [|intros [= <-]; exact Et].
    intros E. apply handle_mouse_touches in E. rewrite <- Et. apply E.
  - destruct (touches c) eqn:Et; intros [= <-]; exact Et.
Qed.

Lemma pinch_inv_same c c' :
  touches c' = touches c -> last_pinch_dist c' = last_pinch_dist c ->
  pinch_inv c -> pinch_inv c'.
Proof. unfold pinch_inv. intros -> ->. trivial. Qed.

Lemma handle_event_pinch_inv e c c' :
  handle_event surf e c = Returns c' -> pinch_inv c -> pinch_inv c'.
Proof.
  intros E Hinv. pose proof (handle_event_touches e c c' E) as Ht.
  destruct e as [k x y|k x y|k x y|button pos|button pos|pos rel|];
    cbn [handle_event next_touches] in E, Ht.
  - injection E as <-.
    destruct (finger_down_pinch surf k x y c) as [H2 Hn2].
    unfold pinch_inv in *. rewrite Ht in *.
    pose proof (length_set k (event_pos surf x y) (touches c)) as Hlen.
    destruct (Nat.eq_dec (length (pydict.set k (event_pos surf x y) (touches c))) 2%nat)
      as [E2|N2].
    + destruct (H2 E2) as [d ->]. lia.
    + rewrite (Hn2 N2).
      destruct (last_pinch_dist c), (pydict.mem k (touches c)); lia.
  - injection E as <-.
    destruct (finger_up_pinch k c) as [Hlt Hge].
    unfold pinch_inv in *. rewrite Ht in *.
    destruct (pydict.mem k (touches c)) eqn:Em.
    + pose proof (length_del k (touches c) Em) as Hlen.
      destruct (lt_dec (length (pydict.del k (touches c))) 2%nat) as [L|G].
      * rewrite (Hlt L). exact L.
      * rewrite (Hge ltac:(lia)). destruct (last_pinch_dist c); lia.
    + destruct (lt_dec (length (touches c)) 2%nat) as [L|G].
      * rewrite (Hlt L). exact L.
      * rewrite (Hge ltac:(lia)). exact Hinv.
  - destruct (finger_motion_pinch surf k x y c c' E) as (_ & H2 & Hn2).
    unfold pinch_inv in *. rewrite Ht in *.
    pose proof (length_set k (event_pos surf x y) (touches c)) as Hlen.
    destruct (Nat.eq_dec (length (pydict.set k (event_pos surf x y) (touches c))) 2%nat)
      as [E2|N2].
    + destruct (H2 E2) as [d ->]. lia.
    + rewrite (Hn2 N2).
      destruct (last_pinch_dist c), (pydict.mem k (touches c)); lia.
  - destruct (touches c) eqn:Et.
    + apply handle_mouse_touches in E as [E1 E2].
      eapply pinch_inv_same; eassumption.
    + injection E as <-. exact Hinv.
  - destruct (touches c) eqn:Et.
    + apply handle_mouse_touches in E as [E1 E2].
      eapply pinch_inv_same; eassumption.
    + injection E as <-. exact Hinv.
  - destruct (touches c) eqn:Et.
    + apply handle_mouse_touches in E as [E1 E2].
      eapply pinch_inv_same; eassumption.
    + injection E as <-. exact Hinv.
  - destruct (touches c); injection E as <-; exact Hinv.
Qed.

Lemma run_pinch_inv events : forall c c',
  run surf events c = Returns c' -> pinch_inv c -> pinch_inv c'.
Proof.
  induction events as [|e events IH]; intros c c'; cbn [run].
  - intros [= <-]. trivial.
  - destruct (handle_event surf e c) as [c1|c1] eqn:E; cbn [bind]; [|discriminate].
    intros Erun Hinv. apply (IH c1 c' Erun).
    eapply handle_event_pinch_inv; eassumption.
Qed.

(** Over a well-formed stream the number of active touches is the
    number of touch-downs minus the number of touch-ups. *)
Lemma run_touch_count events : forall c c',
  run surf events c = Returns c' ->
  well_formed (pydict.keys (touches c)) events = true ->
  (Z.of_nat (length (touches c'))
   = Z.of_nat (length (touches c)) + Z.of_nat (downs events) - Z.of_nat (ups events))%Z.
Proof.
  induction events as [|e events IH]; intros c c'; cbn [run].
  - intros [= <-] _. simpl. lia.
  - destruct (handle_event surf e c) as [c1|c1] eqn:E; cbn [bind]; [|discriminate].
    intros Erun Hwf. pose proof (handle_event_touches e c c1 E) as Ht.
    specialize (IH c1 c' Erun). rewrite Ht in IH.
    destruct e as [k x y|k x y|k x y|button pos|button pos|pos rel|];
      cbn [well_formed downs ups next_touches] in *;
      try (specialize (IH Hwf); lia).
    + apply andb_prop in Hwf as [Hk Hwf]. rewrite <- mem_keys in Hk.
      apply negb_true_iff in Hk.
      rewrite keys_set, length_set, Hk in IH. specialize (IH Hwf). lia.
    + apply andb_prop in Hwf as [Hk Hwf]. rewrite <- mem_keys in Hk.
      rewrite Hk, keys_del in IH. specialize (IH Hwf).
      pose proof (length_del k (touches c) Hk). lia.
    + apply andb_prop in Hwf as [Hk Hwf]. rewrite <- mem_keys in Hk.
      rewrite keys_set, length_set, Hk in IH. specialize (IH Hwf). lia.
Qed.

End TouchSessions.

(** C2, as amended. Touch count invariant: for a camera constructed with
    a positive [min_zoom] or [max_zoom], every session of events runs to
    its end; if each touch-down brings a finger id that is not active and
    each touch-up and touch-motion one that is, [len(touches)] equals the
    number of touch-downs minus the number of touch-ups; and
    [last_pinch_dist] is not [None] only when at least two touches are
    active. *)
Theorem touch_count_invariant
    (mn mx zs : R) (surf : camera.Display) (events : list camera.Event) :
  0 < mn \/ 0 < mx ->
  exists c,
    camera.run surf events (camera.__init__ mn mx zs) = camera.Returns c
    /\ (touch_stream.well_formed [] events = true ->
        Z.of_nat (length (camera.touches c))
        = (Z.of_nat (touch_stream.downs events)
           - Z.of_nat (touch_stream.ups events))%Z)
    /\ (camera.last_pinch_dist c <> None -> (2 <= length (camera.touches c))%nat).
Proof.
  intros Hm.
  destruct (run_zoom_safe surf events (camera.__init__ mn mx zs))
    as (c & E & _).
  { split; [simpl; lra|exact Hm]. }
  exists c. split; [exact E|]. split.
  - intros Hwf. rewrite (run_touch_count surf events _ c E Hwf). simpl. lia.
  - assert (Hinv : touch_stream.pinch_inv c).
    { apply (run_pinch_inv surf events _ c E). unfold touch_stream.pinch_inv. simpl. lia. }
    unfold touch_stream.pinch_inv in Hinv.
    destruct (camera.last_pinch_dist c); intros; [exact Hinv|congruence].
Qed.

Lemma touch_count_invariant_witness :
  (0 < 0.0015 \/ 0 < 20)
  /\ exists c,
       camera.run (Some (800, 600)%Z)
         [camera.FINGERDOWN 0 0.125 0.5; camera.FINGERDOWN 1 0.25 0.5;
          camera.FINGERMOTION 0 0.0625 0.5; camera.FINGERUP 0 0.0625 0.5]
         (camera.__init__ 0.0015 20 1) = camera.Returns c
       /\ (touch_stream.well_formed []
             [camera.FINGERDOWN 0 0.125 0.5; camera.FINGERDOWN 1 0.25 0.5;
              camera.FINGERMOTION 0 0.0625 0.5; camera.FINGERUP 0 0.0625 0.5] = true ->
           Z.of_nat (length (camera.touches c))
           = (Z.of_nat (touch_stream.downs
                [camera.FINGERDOWN 0 0.125 0.5; camera.FINGERDOWN 1 0.25 0.5;
                 camera.FINGERMOTION 0 0.0625 0.5; camera.FINGERUP 0 0.0625 0.5])
              - Z.of_nat (touch_stream.ups
                [camera.FINGERDOWN 0 0.125 0.5; camera.FINGERDOWN 1 0.25 0.5;
                 camera.FINGERMOTION 0 0.0625 0.5; camera.FINGERUP 0 0.0625 0.5]))%Z)
       /\ (camera.last_pinch_dist c <> None -> (2 <= length (camera.touches c))%nat).
Proof.
  assert (H : 0 < 0.0015 \/ 0 < 20) by (left; lra).
  split; [exact H|].
  exact (touch_count_invariant 0.0015 20 1 (Some (800, 600)%Z) _ H).
Defined.

(** C2, counterexample. On [Camera()] with an 800x600 display: three
    fingers put down one after the other leave three active touches and a
    pinch baseline that is still set; and a touch-motion for a finger that
    was never put down adds a touch, so one touch is active after no
    touch-down at all. *)
Lemma touch_count_invariant_counterexample :
  let surf := Some (800, 600)%Z in
  let three := [camera.FINGERDOWN 0 0.125 0.5; camera.FINGERDOWN 1 0.25 0.5;
                camera.FINGERDOWN 2 0.375 0.5] in
  let stray := [camera.FINGERMOTION 7 0.5 0.5] in
  (exists c, camera.run surf three camera.default_camera = camera.Returns c
             /\ length (camera.touches c) = 3%nat
             /\ camera.last_pinch_dist c <> None)
  /\ (exists c, camera.run surf stray camera.default_camera = camera.Returns c
                /\ Z.of_nat (length (camera.touches c))
                   <> (Z.of_nat (touch_stream.downs stray)
                       - Z.of_nat (touch_stream.ups stray))%Z).
Proof.
  intros surf three stray. split.
  - eexists. split; [reflexivity|]. split; [reflexivity|]. simpl. discriminate.
  - eexists. split; [reflexivity|]. simpl. lia.
Qed.

(** ** Orbits *)

Section Orbits.
Import planet planet_frame.

Lemma same_static_refl p : same_static p p.
Proof. repeat split. Qed.

Lemma same_static_trans p q r : same_static p q -> same_static q r -> same_static p r.
Proof. unfold same_static. intuition congruence. Qed.

Lemma degenerate_true self :
  degenerate self = true <-> period_days self <= 0 \/ a_au self <= 0.
Proof.
  unfold degenerate.
  destruct (Rle_dec (period_days self) 0), (Rle_dec (a_au self) 0); simpl;
    split; auto; try discriminate; intros [?|?]; contradiction.
Qed.

Lemma update_position_length dt i st :
  length (update_position dt i st) = length st.
Proof.
  unfold update_position.
  destruct (st !! i) as [self|]; [|reflexivity].
  destruct (degenerate self).
  - destruct (parent self) as [j|]; [destruct (st !! j)|];
      rewrite ?length_insert; reflexivity.
  - destruct (Req_dec_T _ 0); [reflexivity|].
    cbn [parent set_angle].
    destruct (parent self) as [j|]; [destruct (_ !! j)|];
      rewrite ?length_insert; reflexivity.
Qed.

Lemma update_position_other dt i j st :
  j <> i -> update_position dt i st !! j = st !! j.
Proof.
  intros Hji. unfold update_position.
  destruct (st !! i) as [self|]; [|reflexivity].
  destruct (degenerate self).
  - destruct (parent self) as [k|]; [destruct (st !! k)|];
      rewrite ?list_lookup_insert_ne by congruence; reflexivity.
  - destruct (Req_dec_T _ 0); [reflexivity|].
    cbn [parent set_angle].
    destruct (parent self) as [k|]; [destruct (_ !! k)|];
      rewrite ?list_lookup_insert_ne by congruence; reflexivity.
Qed.

(** What [update_position] does to the body it is called on. *)
Lemma update_position_self dt i st self :
  st !! i = Some self ->
  exists self',
    update_position dt i st !! i = Some self'
    /\ same_static self self'
    /\ (degenerate self = true -> angle self' = angle self).
Proof.
  intros Hi. pose proof (lookup_lt_Some _ _ _ Hi) as Hlt.
  unfold update_position. rewrite Hi.
  destruct (degenerate self).
  - destruct (parent self) as [j|]; [destruct (st !! j) as [par|]|].
    + rewrite list_lookup_insert_eq by exact Hlt.
      eexists. split; [reflexivity|]. split; [repeat split|reflexivity].
    + exists self. split; [exact Hi|]. split; [repeat split|reflexivity].
    + rewrite list_lookup_insert_eq by exact Hlt.
      eexists. split; [reflexivity|]. split; [repeat split|reflexivity].
  - destruct (Req_dec_T _ 0).
    { exists self. split; [exact Hi|]. split; [repeat split|discriminate]. }
    cbn [parent set_angle].
    destruct (parent self) as [j|]; [destruct (_ !! j) as [par|]|].
    + rewrite list_lookup_insert_eq by (rewrite length_insert; exact Hlt).
      eexists. split; [reflexivity|]. split; [repeat split|discriminate].
    + rewrite list_lookup_insert_eq by exact Hlt.
      eexists. split; [reflexivity|]. split; [repeat split|discriminate].
    + rewrite list_lookup_insert_eq by (rewrite length_insert; exact Hlt).
      eexists. split; [reflexivity|]. split; [repeat split|discriminate].
Qed.

Lemma update_position_degenerate dt i st self :
  st !! i = Some self -> degenerate self = true ->
  (parent self = None ->
   update_position dt i st !! i = Some (set_position (mkVector2 0 0) self))
  /\ (forall j par, parent self = Some j -> st !! j = Some par ->
      update_position dt i st !! i = Some (set_position (position par) self)).
Proof.
  intros Hi Hdeg. pose proof (lookup_lt_Some _ _ _ Hi) as Hlt.
  unfold update_position. rewrite Hi, Hdeg. split.
  - intros ->. apply list_lookup_insert_eq. exact Hlt.
  - intros j par -> ->. apply list_lookup_insert_eq. exact Hlt.
Qed.

Lemma frame_app dt l1 l2 st :
  frame dt (l1 ++ l2) st = frame dt l2 (frame dt l1 st).
Proof. unfold frame. apply foldl_app. Qed.

Lemma frame_cons dt i l st :
  frame dt (i :: l) st = frame dt l (update_position dt i st).
Proof. reflexivity. Qed.

Lemma frame_length dt order : forall st, length (frame dt order st) = length st.
Proof.
  induction order as [|i order IH]; intros st; [reflexivity|].
  rewrite frame_cons, IH. apply update_position_length.
Qed.

Lemma frame_other dt order j : forall st,
  j ∉ order -> frame dt order st !! j = st !! j.
Proof.
  induction order as [|i order IH]; intros st Hj; [reflexivity|].
  rewrite frame_cons, IH by set_solver.
  apply update_position_other. set_solver.
Qed.

Lemma frame_static dt order : forall st i self,
  st !! i = Some self ->
  exists self', frame dt order st !! i = Some self' /\ same_static self self'.
Proof.
  induction order as [|k order IH]; intros st i self Hi.
  - exists self. split; [exact Hi|apply same_static_refl].
  - rewrite frame_cons.
    destruct (decide (i = k)) as [->|Hne].
    + destruct (update_position_self dt k st self Hi) as (s1 & H1 & Hs1 & _).
      destruct (IH _ _ _ H1) as (s2 & H2 & Hs2).
      exists s2. split; [exact H2|]. eapply same_static_trans; eassumption.
    + apply IH. rewrite update_position_other by exact Hne. exact Hi.
Qed.

(** Updating a degenerate child puts it where its parent is, also when
    the body is its own parent. *)
Lemma co_located_after_update dt c p st child :
  st !! c = Some child -> parent child = Some p ->
  degenerate child = true -> (p < length st)%nat ->
  co_located c p (update_position dt c st).
Proof.
  intros Hc Hpar Hdeg Hp.
  destruct (lookup_lt_is_Some_2 st p Hp) as (par & Hpp).
  destruct (update_position_degenerate dt c st child Hc Hdeg) as [_ Hsnap].
  specialize (Hsnap p par Hpar Hpp).
  destruct (decide (p = c)) as [->|Hne].
  - exists (set_position (position par) child), (set_position (position par) child).
    repeat split; assumption.
  - exists (set_position (position par) child), par.
    rewrite (update_position_other dt c p st Hne).
    repeat split; assumption.
Qed.

(** Updating any body other than the parent keeps the two together. *)
Lemma co_located_step dt k c p st :
  k <> p -> co_located c p st -> co_located c p (update_position dt k st).
Proof.
  intros Hkp (child & par & Hc & Hp & Hpar & Hdeg & Hpos).
  destruct (decide (k = c)) as [->|Hkc].
  - apply (co_located_after_update dt c p st child Hc Hpar Hdeg).
    apply (lookup_lt_Some _ _ _ Hp).
  - exists child, par.
    rewrite !update_position_other by congruence.
    repeat split; assumption.
Qed.

Lemma co_located_frame dt order c p : forall st,
  p ∉ order -> co_located c p st -> co_located c p (frame dt order st).
Proof.
  induction order as [|k order IH]; intros st Hp Hco; [exact Hco|].
  rewrite frame_cons. apply IH; [set_solver|].
  apply co_located_step; [set_solver|exact Hco].
Qed.

(** A co-located child updated after its parent, the parent not being
    updated again, ends the frame where its parent is. *)
Lemma frame_rigid dt l1 l2 l3 st c p child :
  st !! c = Some child -> parent child = Some p ->
  degenerate child = true -> (p < length st)%nat ->
  p ∉ l3 ->
  co_located c p (frame dt (l1 ++ p :: l2 ++ c :: l3) st).
Proof.
  intros Hc Hpar Hdeg Hp Hp3.
  replace (l1 ++ p :: l2 ++ c :: l3) with ((l1 ++ p :: l2) ++ c :: l3)
    by (rewrite <- app_assoc; reflexivity).
  rewrite frame_app, frame_cons.
  apply co_located_frame; [exact Hp3|].
  destruct (frame_static dt (l1 ++ p :: l2) st c child Hc)
    as (child1 & Hc1 & Hs1).
  apply (co_located_after_update dt c p _ child1 Hc1).
  - destruct Hs1 as (_ & _ & _ & _ & _ & _ & _ & _ & _ & _ & -> & _). exact Hpar.
  - unfold degenerate in *. destruct Hs1 as (_ & _ & -> & -> & _). exact Hdeg.
  - rewrite frame_length. exact Hp.
Qed.

End Orbits.

(** C5, as amended. Degenerate orbit and parent rigidity: when
    [period_days <= 0] or [a_au <= 0], [update_position] leaves the body at
    (0,0) if it has no parent and at the value of its parent's position
    otherwise; and a frame in which the parent is updated before such a
    child, and not again after it, ends with the child where its parent
    is. *)
Theorem degenerate_orbit_and_parent_rigidity
    (dt : R) (st : list planet.Planet) (i : nat) (self : planet.Planet) :
  st !! i = Some self ->
  planet.period_days self <= 0 \/ planet.a_au self <= 0 ->
  (planet.parent self = None ->
   planet.update_position dt i st !! i
   = Some (planet.set_position (mkVector2 0 0) self))
  /\ (forall j par,
        planet.parent self = Some j -> st !! j = Some par ->
        planet.update_position dt i st !! i
        = Some (planet.set_position (planet.position par) self))
  /\ (forall l1 l2 l3 p,
        planet.parent self = Some p -> (p < length st)%nat -> p ∉ l3 ->
        exists child' parent',
          planet.frame dt (l1 ++ p :: l2 ++ i :: l3) st !! i = Some child'
          /\ planet.frame dt (l1 ++ p :: l2 ++ i :: l3) st !! p = Some parent'
          /\ planet.position child' = planet.position parent').
Proof.
  intros Hi Hdeg. apply degenerate_true in Hdeg.
  destruct (update_position_degenerate dt i st self Hi Hdeg) as [Hnone Hsome].
  split; [exact Hnone|]. split; [exact Hsome|].
  intros l1 l2 l3 p Hpar Hp Hp3.
  destruct (frame_rigid dt l1 l2 l3 st i p self Hi Hpar Hdeg Hp Hp3)
    as (child' & parent' & Hc' & Hp' & _ & _ & Hpos).
  exists child', parent'. auto.
Qed.

Lemma degenerate_orbit_and_parent_rigidity_witness :
  examples.system !! 2%nat = Some (planet.set_parent (Some 1%nat) examples.station)
  /\ exists child' parent',
       planet.frame 0.016 [0; 1; 2]%nat examples.system !! 2%nat = Some child'
       /\ planet.frame 0.016 [0; 1; 2]%nat examples.system !! 1%nat = Some parent'
       /\ planet.position child' = planet.position parent'.
Proof.
  assert (Hi : examples.system !! 2%nat
               = Some (planet.set_parent (Some 1%nat) examples.station))
    by reflexivity.
  assert (Hdeg : planet.period_days (planet.set_parent (Some 1%nat) examples.station) <= 0
                 \/ planet.a_au (planet.set_parent (Some 1%nat) examples.station) <= 0)
    by (right; simpl; lra).
  split; [exact Hi|].
  destruct (degenerate_orbit_and_parent_rigidity 0.016 examples.system 2
              (planet.set_parent (Some 1%nat) examples.station) Hi Hdeg)
    as (_ & _ & Hframe).
  apply (Hframe [0%nat] [] [] 1%nat).
  - reflexivity.
  - simpl. lia.
  - apply not_elem_of_nil.
Defined.

(** C10. Frame of [update_position]: the body keeps every field other
    than [angle] and [position]; in the degenerate branch it keeps
    [angle] too; and no other body of the store changes. *)
Theorem update_position_frame
    (dt : R) (st : list planet.Planet) (i : nat) (self : planet.Planet) :
  st !! i = Some self ->
  exists self',
    planet.update_position dt i st !! i = Some self'
    /\ planet.planet_name self' = planet.planet_name self
    /\ planet.radius_km self' = planet.radius_km self
    /\ planet.a_au self' = planet.a_au self
    /\ planet.period_days self' = planet.period_days self
    /\ planet.color self' = planet.color self
    /\ planet.draw_orbit self' = planet.draw_orbit self
    /\ planet.fact self' = planet.fact self
    /\ planet.radius_px self' = planet.radius_px self
    /\ planet.au_to_px self' = planet.au_to_px self
    /\ planet.time_scale self' = planet.time_scale self
    /\ planet.parent self' = planet.parent self
    /\ planet.parent_name self' = planet.parent_name self
    /\ planet.image self' = planet.image self
    /\ (planet.period_days self <= 0 \/ planet.a_au self <= 0 ->
        planet.angle self' = planet.angle self)
    /\ (forall j, j <> i -> planet.update_position dt i st !! j = st !! j).
Proof.
  intros Hi.
  destruct (update_position_self dt i st self Hi) as (self' & Hi' & Hs & Hangle).
  exists self'. split; [exact Hi'|].
  unfold planet_frame.same_static in Hs.
  repeat (split; [apply Hs|]).
  split.
  - intros Hdeg. apply Hangle. apply degenerate_true. exact Hdeg.
  - intros j Hj. apply update_position_other. exact Hj.
Qed.

Lemma update_position_frame_witness :
  examples.system !! 1%nat = Some examples.earth
  /\ exists self',
       planet.update_position 0.016 1 examples.system !! 1%nat = Some self'
       /\ planet.planet_name self' = planet.planet_name examples.earth
       /\ planet.parent self' = planet.parent examples.earth.
Proof.
  assert (Hi : examples.system !! 1%nat = Some examples.earth) by reflexivity.
  split; [exact Hi|].
  destruct (update_position_frame 0.016 examples.system 1 examples.earth Hi)
    as (self' & H & Hname & _ & _ & _ & _ & _ & _ & _ & _ & _ & Hparent & _).
  exists self'. auto.
Defined.

(** ** Link resolution *)

Section Linking.
Import planet main.

Lemma link_parents_lookup bodies i p :
  bodies !! i = Some p ->
  link_parents bodies !! i = Some (link (by_name bodies) p).
Proof. intros Hi. unfold link_parents. rewrite list_lookup_fmap, Hi. reflexivity. Qed.

Lemma link_parents_length bodies : length (link_parents bodies) = length bodies.
Proof. unfold link_parents. apply length_map. Qed.

(** The loop binds [parent] to whatever body the name designates. *)
Lemma named_parent_linked bodies i j :
  named_parent bodies i = Some j ->
  exists p', link_parents bodies !! i = Some p' /\ parent p' = Some j.
Proof.
  unfold named_parent. destruct (bodies !! i) as [p|] eqn:Hi; [|discriminate].
  intros Hn. exists (link (by_name bodies) p).
  split; [apply link_parents_lookup; exact Hi|].
  unfold link. destruct (truthy (parent_name p)); [|discriminate].
  destruct (parent_name p) as [s|]; [|discriminate].
  rewrite Hn. reflexivity.
Qed.

Lemma named_ancestor_linked bodies n : forall i j,
  named_ancestor bodies n i = Some j ->
  ancestor (link_parents bodies) n i = Some j.
Proof.
  induction n as [|n IH]; intros i j; cbn [named_ancestor ancestor]; [trivial|].
  destruct (named_parent bodies i) as [k|] eqn:Hk; [|discriminate].
  destruct (named_parent_linked bodies i k Hk) as (p' & -> & ->).
  apply IH.
Qed.

End Linking.

(** C7, as amended. Link resolution has no cycle detection: the second
    pass always returns the linked bodies with an update order, and
    whenever the [parent_name] designations lead from a body back to
    itself in [n > 0] steps, so do the [parent] references of the bodies
    it returns. *)
Theorem cyclic_links_are_kept (bodies : list planet.Planet) (i n : nat) :
  (0 < n)%nat ->
  main.named_ancestor bodies n i = Some i ->
  exists st order,
    main.second_pass bodies = (st, order)
    /\ length st = length bodies
    /\ main.ancestor st n i = Some i.
Proof.
  intros _ Hcycle. eexists _, _. split; [reflexivity|].
  split; [apply link_parents_length|].
  apply named_ancestor_linked. exact Hcycle.
Qed.

Lemma cyclic_links_are_kept_witness :
  (0 < 2)%nat
  /\ main.named_ancestor [examples.body_a; examples.body_b] 2 0 = Some 0%nat
  /\ exists st order,
       main.second_pass [examples.body_a; examples.body_b] = (st, order)
       /\ length st = length [examples.body_a; examples.body_b]
       /\ main.ancestor st 2 0 = Some 0%nat.
Proof.
  assert (H1 : (0 < 2)%nat) by lia.
  assert (H2 : main.named_ancestor [examples.body_a; examples.body_b] 2 0 = Some 0%nat) by reflexivity.
  split; [exact H1|]. split; [exact H2|].
  exact (cyclic_links_are_kept [examples.body_a; examples.body_b] 0 2 H1 H2).
Defined.

Lemma cycle_detection_counterexample :
  main.second_pass [examples.body_a; examples.body_b]
  = ([planet.set_parent (Some 1%nat) examples.body_a; planet.set_parent (Some 0%nat) examples.body_b],
     [0%nat; 1%nat])
  /\ main.on_cycle (fst (main.second_pass [examples.body_a; examples.body_b])) 0 = true.
Proof. split; reflexivity. Qed.

(** * Further properties *)

(** ** More on the camera *)

(** X1. Zooming around the centre of the screen commits the clamped zoom
    and leaves [position] where it was. *)
Theorem zoom_at_centre_keeps_position
    (surf : camera.Display) (c : camera.Camera) (new_zoom : R) :
  camera.zoom c <> 0 ->
  py_max (camera.min_zoom c) (py_min (camera.max_zoom c) new_zoom) <> 0 ->
  camera._apply_zoom_around_point surf new_zoom (camera.screen_center surf) c
  = camera.Returns
      (camera.set_zoom
         (py_max (camera.min_zoom c) (py_min (camera.max_zoom c) new_zoom)) c).
Proof.
  intros Hz Hclamp. rewrite apply_zoom_returns by assumption.
  f_equal. destruct c as [mn mx zs [px py] z pe dr lm ts lp isd].
  unfold camera.set_position, camera.set_zoom, camera.unproject. cbn in *.
  f_equal. apply Vector2_eq; cbn; field; auto.
Qed.

Lemma zoom_at_centre_keeps_position_witness :
  camera.zoom camera.default_camera <> 0
  /\ camera._apply_zoom_around_point (Some (800, 600)%Z) 0.9
       (camera.screen_center (Some (800, 600)%Z)) camera.default_camera
     = camera.Returns
         (camera.set_zoom (py_max 0.0015 (py_min 20 0.9)) camera.default_camera).
Proof.
  assert (Hz : camera.zoom camera.default_camera <> 0) by (simpl; lra).
  split; [exact Hz|].
  apply (zoom_at_centre_keeps_position (Some (800, 600)%Z) camera.default_camera 0.9 Hz).
  simpl. pose proof (py_max_lower 0.0015 (py_min 20 0.9)). lra.
Defined.



Section SessionStates.

Import camera session.

Variable surf : Display.

(** What holds of the camera after every event, returned or raised,
    holds after every session. *)
Lemma run_state_invariant (P : Camera -> Prop) :
  (forall e c, P c -> P (state_of (handle_event surf e c))) ->
  forall events c, P c -> P (state_of (run surf events c)).
Proof.
  intros Hstep events. induction events as [|e events IH]; intros c HP; [exact HP|].
  cbn [run]. specialize (Hstep e c HP).
  destruct (handle_event surf e c) as [c1|c1]; cbn [bind state_of] in *.
  - apply IH. exact Hstep.
  - exact Hstep.
Qed.

Ltac split_event :=
  repeat match goal with
         | |- context [match ?x with _ => _ end] => destruct x
         end.

Lemma apply_zoom_controls new_zoom A c :
  let c' := state_of (_apply_zoom_around_point surf new_zoom A c) in
  zoom_sensitivity c' = zoom_sensitivity c /\ pan_enabled c' = pan_enabled c
  /\ _dragging c' = _dragging c /\ is_dragging c' = is_dragging c.
Proof.
  unfold _apply_zoom_around_point.
  destruct (Req_dec_T (zoom c) 0); [repeat split|].
  destruct (Req_dec_T _ 0); repeat split.
Qed.

Lemma handle_event_flags e c :
  _dragging c = is_dragging c ->
  _dragging (state_of (handle_event surf e c))
  = is_dragging (state_of (handle_event surf e c)).
Proof.
  intros Hflags.
  assert (Hzoom : forall nz A c0, _dragging c0 = is_dragging c0 ->
            _dragging (state_of (_apply_zoom_around_point surf nz A c0))
            = is_dragging (state_of (_apply_zoom_around_point surf nz A c0))).
  { intros nz A c0 H0. destruct (apply_zoom_controls nz A c0) as (_ & _ & -> & ->).
    exact H0. }
  destruct e as [k x y|k x y|k x y|button pos|button pos|pos rel|];
    cbn [handle_event state_of].
  - unfold _handle_finger_down. split_event; cbn; auto.
  - unfold _handle_finger_up. split_event; cbn; auto.
  - unfold _handle_finger_motion.
    set (c1 := set_touches _ c).
    assert (H1 : _dragging c1 = is_dragging c1) by exact Hflags.
    destruct (Nat.eqb (length (touches c1)) 1); [reflexivity|].
    destruct (Nat.eqb (length (touches c1)) 2); [|exact H1].
    destruct (pydict.values (touches c1)) as [|p1 [|p2 ps]]; try exact H1.
    match goal with
    | |- context [?inner >>= _] =>
        assert (Hin : _dragging (state_of inner) = is_dragging (state_of inner));
        [|destruct inner; cbn [bind state_of] in *; exact Hin]
    end.
    destruct (last_pinch_dist c1); [|exact H1].
    destruct (Rlt_dec 0 r); [|exact H1].
    destruct (Rlt_dec 1.01 _); [apply Hzoom; exact H1|].
    destruct (Rlt_dec _ 0.99); [apply Hzoom; exact H1|exact H1].
  - destruct (touches c); [|exact Hflags]. cbn [handle_mouse].
    destruct (Z.eqb button 3 && pan_enabled c); [reflexivity|].
    destruct (Z.eqb button 4); [apply Hzoom; exact Hflags|].
    destruct (Z.eqb button 5); [apply Hzoom; exact Hflags|exact Hflags].
  - destruct (touches c); [|exact Hflags]. cbn [handle_mouse].
    destruct (Z.eqb button 3); [reflexivity|exact Hflags].
  - destruct (touches c); [|exact Hflags]. cbn [handle_mouse].
    destruct (_dragging c && pan_enabled c); exact Hflags.
  - destruct (touches c); exact Hflags.
Qed.

Lemma apply_zoom_settings new_zoom A c :
  same_settings c (state_of (_apply_zoom_around_point surf new_zoom A c)).
Proof.
  unfold _apply_zoom_around_point.
  destruct (Req_dec_T (zoom c) 0); [repeat split|].
  destruct (Req_dec_T _ 0); repeat split.
Qed.

Lemma handle_event_settings e c :
  same_settings c (state_of (handle_event surf e c)).
Proof.
  destruct e as [k x y|k x y|k x y|button pos|button pos|pos rel|];
    cbn [handle_event state_of].
  - unfold _handle_finger_down. split_event; repeat split.
  - unfold _handle_finger_up. split_event; repeat split.
  - unfold _handle_finger_motion.
    set (c1 := set_touches _ c).
    destruct (Nat.eqb (length (touches c1)) 1); [repeat split|].
    destruct (Nat.eqb (length (touches c1)) 2); [|repeat split].
    destruct (pydict.values (touches c1)) as [|p1 [|p2 ps]];
      [repeat split|repeat split|].
    match goal with
    | |- context [?inner >>= _] =>
        assert (Hin : same_settings c (state_of inner));
        [|destruct inner; cbn [bind state_of] in *; exact Hin]
    end.
    destruct (last_pinch_dist c1); [|repeat split].
    destruct (Rlt_dec 0 r); [|repeat split].
    destruct (Rlt_dec 1.01 _); [apply (apply_zoom_settings _ _ c1)|].
    destruct (Rlt_dec _ 0.99); [apply (apply_zoom_settings _ _ c1)|repeat split].
  - destruct (touches c); [|repeat split]. cbn [handle_mouse].
    destruct (Z.eqb button 3 && pan_enabled c); [repeat split|].
    destruct (Z.eqb button 4); [apply apply_zoom_settings|].
    destruct (Z.eqb button 5); [apply apply_zoom_settings|repeat split].
  - destruct (touches c); [|repeat split]. cbn [handle_mouse].
    destruct (Z.eqb button 3); repeat split.
  - destruct (touches c); [|repeat split]. cbn [handle_mouse].
    destruct (_dragging c && pan_enabled c); repeat split.
  - destruct (touches c); repeat split.
Qed.

End SessionStates.

(** X3. The public flag [is_dragging] mirrors the private [_dragging]:
    starting from a fresh camera they agree after every session of
    events, also when the session ends in an exception. *)
Theorem dragging_flags_agree
    (mn mx zs : R) (surf : camera.Display) (events : list camera.Event) :
  camera._dragging (camera.state_of (camera.run surf events (camera.__init__ mn mx zs)))
  = camera.is_dragging
      (camera.state_of (camera.run surf events (camera.__init__ mn mx zs))).
Proof.
  apply (run_state_invariant surf
           (fun c => camera._dragging c = camera.is_dragging c)).
  - intros e c. apply handle_event_flags.
  - reflexivity.
Qed.

(** X4. No event writes [min_zoom], [max_zoom], [zoom_sensitivity] or
    [pan_enabled]: they are the same after every session, returned or
    raised, from any camera. *)
Theorem session_keeps_settings
    (surf : camera.Display) (events : list camera.Event) (c : camera.Camera) :
  let c' := camera.state_of (camera.run surf events c) in
  camera.min_zoom c' = camera.min_zoom c
  /\ camera.max_zoom c' = camera.max_zoom c
  /\ camera.zoom_sensitivity c' = camera.zoom_sensitivity c
  /\ camera.pan_enabled c' = camera.pan_enabled c.
Proof.
  apply (run_state_invariant surf (fun c' => session.same_settings c c')).
  - intros e c0 (H1 & H2 & H3 & H4).
    destruct (handle_event_settings surf e c0) as (E1 & E2 & E3 & E4).
    unfold session.same_settings. rewrite E1, E2, E3, E4. auto.
  - repeat split.
Qed.

(** X5. The pinch dead zone: with two active touches, a motion of the
    first one whose distance ratio lies within [0.99, 1.01], or that meets
    a baseline that is not positive, returns with zoom and position as
    they were, whatever the zoom, and only records the new distance. *)
Theorem pinch_dead_zone
    (surf : camera.Display) (a b : Z) (pa pb : Vector2) (x y last : R)
    (c : camera.Camera) :
  camera.touches c = [(a, pa); (b, pb)] ->
  camera.last_pinch_dist c = Some last ->
  last <= 0
  \/ 0.99 <= distance_to (camera.event_pos surf x y) pb / last <= 1.01 ->
  camera.handle_event surf (camera.FINGERMOTION a x y) c
  = camera.Returns
      (camera.set_last_pinch_dist
         (Some (distance_to (camera.event_pos surf x y) pb))
         (camera.set_touches [(a, camera.event_pos surf x y); (b, pb)] c)).
Proof.
  intros Ht Hl Hquiet.
  unfold camera.handle_event, camera._handle_finger_motion.
  rewrite Ht. cbn [pydict.set]. rewrite Z.eqb_refl.
  cbn [camera.touches camera.set_touches length Nat.eqb pydict.values map snd
       camera.last_pinch_dist camera.zoom].
  rewrite Hl.
  destruct (Rlt_dec 0 last) as [Hpos|Hneg]; [|reflexivity].
  destruct Hquiet as [Hle|[Hlo Hhi]]; [lra|].
  destruct (Rlt_dec 1.01 _) as [H|_]; [lra|].
  destruct (Rlt_dec _ 0.99) as [H|_]; [lra|].
  reflexivity.
Qed.

Lemma pinch_dead_zone_witness :
  let c := camera.set_zoom 0
             (camera.set_last_pinch_dist (Some 0)
                (camera.set_touches [(0%Z, mkVector2 100 300); (1%Z, mkVector2 100 300)]
                   camera.default_camera)) in
  camera.zoom c = 0
  /\ camera.handle_event (Some (800, 600)%Z) (camera.FINGERMOTION 0 0.5 0.5) c
     = camera.Returns
         (camera.set_last_pinch_dist
            (Some (distance_to (camera.event_pos (Some (800, 600)%Z) 0.5 0.5)
                     (mkVector2 100 300)))
            (camera.set_touches
               [(0%Z, camera.event_pos (Some (800, 600)%Z) 0.5 0.5);
                (1%Z, mkVector2 100 300)] c)).
Proof.
  intros c. split; [reflexivity|].
  apply (pinch_dead_zone (Some (800, 600)%Z) 0 1 (mkVector2 100 300)
           (mkVector2 100 300) 0.5 0.5 0 c); [reflexivity|reflexivity|].
  left. lra.
Defined.

(** X6. One-finger pan: from a camera with no touch, putting a finger down
    and moving it pans by the finger's displacement times
    [3 / max(zoom, 0.05)], leaves the zoom alone and raises both dragging
    flags, whatever [pan_enabled] says. *)
Theorem one_finger_pan
    (surf : camera.Display) (k : Z) (x0 y0 x1 y1 : R) (c : camera.Camera) :
  camera.touches c = [] ->
  exists c',
    camera.run surf [camera.FINGERDOWN k x0 y0; camera.FINGERMOTION k x1 y1] c
    = camera.Returns c'
    /\ camera.position c'
       = (camera.position c
          - (camera.event_pos surf x1 y1 - camera.event_pos surf x0 y0)
            * (camera.PAN_BASE_SPEED / py_max (camera.zoom c) 0.05))%V
    /\ camera.zoom c' = camera.zoom c
    /\ camera.touches c' = [(k, camera.event_pos surf x1 y1)]
    /\ camera._dragging c' = true /\ camera.is_dragging c' = true.
Proof.
  intros Ht. cbn [camera.run camera.handle_event camera.bind].
  rewrite (finger_down_first surf k x0 y0 c Ht).
  unfold camera._handle_finger_motion.
  cbn [camera.touches camera.set_touches camera.set__last_mouse_pos
       camera.set_is_dragging camera.set__dragging pydict.set pydict.get].
  rewrite Z.eqb_refl. cbn [length Nat.eqb default].
  eexists. split; [reflexivity|]. repeat split.
Qed.

Lemma one_finger_pan_witness :
  camera.touches camera.default_camera = []
  /\ exists c',
       camera.run (Some (800, 600)%Z)
         [camera.FINGERDOWN 3 0.5 0.5; camera.FINGERMOTION 3 0.25 0.5]
         camera.default_camera = camera.Returns c'
       /\ camera.zoom c' = camera.zoom camera.default_camera
       /\ camera.is_dragging c' = true.
Proof.
  split; [reflexivity|].
  destruct (one_finger_pan (Some (800, 600)%Z) 3 0.5 0.5 0.25 0.5
              camera.default_camera eq_refl)
    as (c' & E & _ & Hz & _ & _ & Hd).
  exists c'. auto.
Defined.

(** ** More on the bodies *)

Section Scale.
Import planet.

Lemma clamp_monotone lo hi v w :
  v <= w -> clamp v lo hi <= clamp w lo hi.
Proof.
  intros Hvw. unfold clamp, py_max, py_min.
  destruct (Rlt_dec v hi), (Rlt_dec w hi);
    repeat match goal with |- context [Rlt_dec ?a ?b] => destruct (Rlt_dec a b) end;
    lra.
Qed.

End Scale.

(** X7. The visual scale: [set_visual_scale] stores [au_to_px], puts
    [radius_px] within [radius_px_min, radius_px_max] when these are in
    order, equal to [radius_km * radius_scale] when that is within them,
    and with a scale that is not negative a body that is not larger in
    kilometres is not drawn larger. *)
Theorem visual_scale_bounds_and_order
    (lo hi scale au : R) (p q : planet.Planet) :
  lo <= hi ->
  planet.au_to_px (planet.set_visual_scale lo hi scale au p) = au
  /\ lo <= planet.radius_px (planet.set_visual_scale lo hi scale au p) <= hi
  /\ (lo <= planet.radius_km p * scale <= hi ->
      planet.radius_px (planet.set_visual_scale lo hi scale au p)
      = planet.radius_km p * scale)
  /\ (0 <= scale -> planet.radius_km p <= planet.radius_km q ->
      planet.radius_px (planet.set_visual_scale lo hi scale au p)
      <= planet.radius_px (planet.set_visual_scale lo hi scale au q)).
Proof.
  intros Hle. cbn. split; [reflexivity|]. split; [apply clamp_bounds; exact Hle|].
  split.
  - intros Hin. apply clamp_id. exact Hin.
  - intros Hs Hkm. apply clamp_monotone. nra.
Qed.

Lemma visual_scale_bounds_and_order_witness :
  1 <= 120
  /\ 1 <= planet.radius_px
            (planet.set_visual_scale 1 120 0.001 3000 examples.earth) <= 120.
Proof.
  assert (H : 1 <= 120) by lra. split; [exact H|].
  apply (visual_scale_bounds_and_order 1 120 0.001 3000 examples.earth examples.sun H).
Defined.

Section HitTest.
Import planet.




End HitTest.





(** ** Arithmetic of the float modulo *)

Lemma py_mod_range a b : 0 < b -> 0 <= py_mod a b < b.
Proof.
  intros Hb. unfold py_mod.
  destruct (base_Int_part (a / b)) as [Hlo Hhi].
  assert (Ha : a = a / b * b) by (field; lra).
  split.
  - assert (IZR (Int_part (a / b)) * b <= a / b * b)
      by (apply Rmult_le_compat_r; lra). lra.
  - assert (a / b * b < (IZR (Int_part (a / b)) + 1) * b)
      by (apply Rmult_lt_compat_r; lra). lra.
Qed.

Lemma py_mod_small a b : 0 <= a < b -> py_mod a b = a.
Proof.
  intros [Ha Hab]. unfold py_mod.
  assert (Hq : 0 <= a / b < 1).
  { split.
    - apply Rmult_le_pos; [exact Ha|]. apply Rlt_le, Rinv_0_lt_compat. lra.
    - apply Rmult_lt_reg_r with b; [lra|]. replace (a / b * b) with a by (field; lra). lra. }
  rewrite <- (Int_part_spec (a / b) 0); [simpl; lra|]. simpl. lra.
Qed.

Lemma py_mod_add_turns a b (k : Z) :
  0 < b -> py_mod (a + IZR k * b) b = py_mod a b.
Proof.
  intros Hb. unfold py_mod.
  destruct (base_Int_part (a / b)) as [Hlo Hhi].
  rewrite <- (Int_part_spec ((a + IZR k * b) / b) (Int_part (a / b) + k)).
  - rewrite plus_IZR. ring.
  - replace ((a + IZR k * b) / b) with (a / b + IZR k) by (field; lra).
    rewrite plus_IZR. lra.
Qed.

Lemma py_mod_add_l a c b :
  0 < b -> py_mod (py_mod a b + c) b = py_mod (a + c) b.
Proof.
  intros Hb. unfold py_mod at 2.
  replace (a - IZR (Int_part (a / b)) * b + c)
    with ((a + c) + IZR (- Int_part (a / b)) * b)
    by (rewrite opp_IZR; ring).
  apply py_mod_add_turns. exact Hb.
Qed.

(** ** Orbits, continued *)

Section Orbiting.
Import planet planet_frame.

Lemma not_degenerate self :
  degenerate self = false <-> 0 < period_days self /\ 0 < a_au self.
Proof.
  unfold degenerate.
  destruct (Rle_dec (period_days self) 0), (Rle_dec (a_au self) 0); simpl;
    split; try discriminate; try lra; auto; intros; lra.
Qed.

(** What [update_position] does to a body that orbits. *)
Lemma update_position_orbiting dt i st self :
  st !! i = Some self -> degenerate self = false ->
  let moved := set_angle (next_angle dt self) self in
  let r := a_au self * au_to_px self in
  (parent self = None ->
   update_position dt i st !! i
   = Some (set_position
             (mkVector2 (cos (next_angle dt self) * r)
                        (sin (next_angle dt self) * r)) moved))
  /\ (forall j par,
        parent self = Some j -> j <> i -> st !! j = Some par ->
        update_position dt i st !! i
        = Some (set_position
                  (mkVector2 (vx (position par) + cos (next_angle dt self) * r)
                             (vy (position par) + sin (next_angle dt self) * r))
                  moved))
  /\ (exists self', update_position dt i st !! i = Some self'
                    /\ angle self' = next_angle dt self).
Proof.
  intros Hi Hnd. pose proof (lookup_lt_Some _ _ _ Hi) as Hlt.
  apply not_degenerate in Hnd as Hpos. destruct Hpos as [Hp Ha].
  unfold update_position. rewrite Hi, Hnd.
  destruct (Req_dec_T (period_days self * 86400) 0) as [E|_]; [lra|].
  cbn [parent set_angle a_au au_to_px angle].
  fold (next_angle dt self).
  split; [|split].
  - intros ->. rewrite list_lookup_insert_eq by (rewrite length_insert; exact Hlt).
    reflexivity.
  - intros j par -> Hji Hj.
    rewrite list_lookup_insert_ne by congruence. rewrite Hj.
    rewrite list_lookup_insert_eq by (rewrite length_insert; exact Hlt).
    reflexivity.
  - destruct (parent self) as [j|]; [destruct (_ !! j) as [par|]|].
    + rewrite list_lookup_insert_eq by (rewrite length_insert; exact Hlt).
      eexists. split; reflexivity.
    + rewrite list_lookup_insert_eq by exact Hlt.
      eexists. split; reflexivity.
    + rewrite list_lookup_insert_eq by (rewrite length_insert; exact Hlt).
      eexists. split; reflexivity.
Qed.

Lemma distance_on_circle (c : Vector2) (t r : R) :
  0 <= r ->
  distance_to c (mkVector2 (vx c + cos t * r) (vy c + sin t * r)) = r.
Proof.
  intros Hr. unfold distance_to. cbn.
  replace ((vx c + cos t * r - vx c) * (vx c + cos t * r - vx c)
           + (vy c + sin t * r - vy c) * (vy c + sin t * r - vy c))
    with ((r * r) * ((sin t)² + (cos t)²)) by (unfold Rsqr; ring).
  rewrite sin2_cos2, Rmult_1_r. apply sqrt_square. exact Hr.
Qed.

End Orbiting.

(** X10. An orbiting body stays on its ring, in real arithmetic (floats
    read as real numbers): after [update_position] a body with positive
    period and semi-major axis, and a scale that is not negative, lies at
    distance [a_au * au_to_px] from the origin when it has no parent, and
    from its parent's position otherwise. *)
Theorem orbit_keeps_radius
    (dt : R) (st : list planet.Planet) (i : nat) (self : planet.Planet) :
  st !! i = Some self ->
  0 < planet.period_days self -> 0 < planet.a_au self ->
  0 <= planet.au_to_px self ->
  (planet.parent self = None ->
   exists self', planet.update_position dt i st !! i = Some self'
     /\ distance_to (mkVector2 0 0) (planet.position self')
        = planet.a_au self * planet.au_to_px self)
  /\ (forall j par,
        planet.parent self = Some j -> j <> i -> st !! j = Some par ->
        exists self', planet.update_position dt i st !! i = Some self'
          /\ distance_to (planet.position par) (planet.position self')
             = planet.a_au self * planet.au_to_px self).
Proof.
  intros Hi Hp Ha Hau.
  assert (Hnd : planet.degenerate self = false) by (apply not_degenerate; auto).
  assert (Hr : 0 <= planet.a_au self * planet.au_to_px self) by nra.
  destruct (update_position_orbiting dt i st self Hi Hnd) as (Hnone & Hsome & _).
  split.
  - intros Hpar. eexists. split; [apply Hnone; exact Hpar|]. cbn.
    rewrite <- (distance_on_circle (mkVector2 0 0) (planet_frame.next_angle dt self) _ Hr) at 3.
    f_equal. apply Vector2_eq; cbn; ring.
  - intros j par Hpar Hji Hj. eexists. split; [apply (Hsome j par); assumption|].
    cbn. apply distance_on_circle. exact Hr.
Qed.

Lemma orbit_keeps_radius_witness :
  examples.system !! 1%nat = Some examples.earth
  /\ exists self',
       planet.update_position 0.016 1 examples.system !! 1%nat = Some self'
       /\ distance_to (mkVector2 0 0) (planet.position self')
          = planet.a_au examples.earth * planet.au_to_px examples.earth.
Proof.
  assert (Hi : examples.system !! 1%nat = Some examples.earth) by reflexivity.
  split; [exact Hi|].
  destruct (orbit_keeps_radius 0.016 examples.system 1 examples.earth Hi)
    as [Hnone _]; try (simpl; lra).
  apply Hnone. reflexivity.
Defined.

(** X11. In real arithmetic (floats read as real numbers) the angle of an
    orbiting body is kept in [0, 2*pi): whatever it was, after
    [update_position] it is the old angle plus
    [2*pi*time_scale/(period_days*86400) * dt], reduced modulo [2*pi].
    (On binary64 floats the result of [%] is rounded, and can be the
    modulus itself.) *)
Theorem orbit_angle_in_range
    (dt : R) (st : list planet.Planet) (i : nat) (self : planet.Planet) :
  st !! i = Some self ->
  0 < planet.period_days self -> 0 < planet.a_au self ->
  exists self',
    planet.update_position dt i st !! i = Some self'
    /\ planet.angle self' = planet_frame.next_angle dt self
    /\ 0 <= planet.angle self' < 2 * PI.
Proof.
  intros Hi Hp Ha.
  assert (Hnd : planet.degenerate self = false) by (apply not_degenerate; auto).
  destruct (update_position_orbiting dt i st self Hi Hnd)
    as (_ & _ & self' & Hi' & Hangle).
  exists self'. split; [exact Hi'|]. split; [exact Hangle|].
  rewrite Hangle. apply py_mod_range. pose proof PI_RGT_0. lra.
Qed.

Lemma orbit_angle_in_range_witness :
  examples.system !! 1%nat = Some examples.earth
  /\ exists self',
       planet.update_position 0.016 1 examples.system !! 1%nat = Some self'
       /\ planet.angle self' = planet_frame.next_angle 0.016 examples.earth
       /\ 0 <= planet.angle self' < 2 * PI.
Proof.
  assert (Hi : examples.system !! 1%nat = Some examples.earth) by reflexivity.
  split; [exact Hi|].
  apply (orbit_angle_in_range 0.016 examples.system 1 examples.earth Hi);
    simpl; lra.
Defined.

Section Periods.
Import planet planet_frame.

(** A frame that updates the body once advances its angle by one step
    and keeps its other parameters. *)
Lemma frame_angle dt order : forall st i self,
  NoDup order -> i ∈ order ->
  st !! i = Some self -> degenerate self = false ->
  exists self', frame dt order st !! i = Some self'
                /\ angle self' = next_angle dt self
                /\ same_static self self'.
Proof.
  induction order as [|k order IH]; intros st i self Hnd Hin Hi Hdeg.
  - apply elem_of_nil in Hin. contradiction.
  - apply NoDup_cons in Hnd as [Hk Hnd]. rewrite frame_cons.
    destruct (decide (i = k)) as [->|Hne].
    + destruct (update_position_orbiting dt k st self Hi Hdeg)
        as (_ & _ & self' & Hi' & Hangle).
      destruct (update_position_self dt k st self Hi) as (s1 & H1 & Hs1 & _).
      rewrite Hi' in H1. injection H1 as <-.
      exists self'. rewrite frame_other by exact Hk. auto.
    + apply elem_of_cons in Hin as [Hin|Hin]; [contradiction|].
      apply IH; [exact Hnd|exact Hin| |exact Hdeg].
      rewrite update_position_other by exact Hne. exact Hi.
Qed.

Lemma same_static_degenerate p q : same_static p q -> degenerate q = degenerate p.
Proof. intros (_ & _ & Ha & Hp & _). unfold degenerate. rewrite Ha, Hp. reflexivity. Qed.

Lemma next_angle_static dt p q a :
  same_static p q -> angle q = a ->
  next_angle dt q
  = py_mod (a + 2 * PI * time_scale p / (period_days p * 86400) * dt) (2 * PI).
Proof.
  intros (_ & _ & _ & Hp & _ & _ & _ & _ & _ & Hts & _) <-.
  unfold next_angle. rewrite Hp, Hts. reflexivity.
Qed.

Lemma frames_angle dt order i n : forall st self,
  NoDup order -> i ∈ order ->
  st !! i = Some self -> degenerate self = false ->
  0 <= angle self < 2 * PI ->
  exists self', Nat.iter n (frame dt order) st !! i = Some self'
    /\ angle self'
       = py_mod (angle self
                 + INR n * (2 * PI * time_scale self / (period_days self * 86400) * dt))
                (2 * PI)
    /\ same_static self self'.
Proof.
  pose proof PI_RGT_0 as Hpi.
  induction n as [|n IH]; intros st self Hnd Hin Hi Hdeg Ha.
  - exists self. split; [exact Hi|]. split; [|apply same_static_refl].
    cbn [INR]. rewrite Rmult_0_l, Rplus_0_r. symmetry. apply py_mod_small. exact Ha.
  - destruct (IH st self Hnd Hin Hi Hdeg Ha) as (s1 & H1 & Hangle1 & Hs1).
    cbn [Nat.iter].
    destruct (frame_angle dt order _ i s1 Hnd Hin H1) as (s2 & H2 & Hangle2 & Hs2).
    { rewrite (same_static_degenerate self s1 Hs1). exact Hdeg. }
    exists s2. split; [exact H2|]. split; [|eapply same_static_trans; eassumption].
    rewrite Hangle2, (next_angle_static dt self s1 _ Hs1 Hangle1).
    rewrite py_mod_add_l by lra. f_equal. rewrite S_INR. ring.
Qed.

End Periods.

(** X12. Orbit period: a body with positive period and semi-major axis
    and an angle in [0, 2*pi), updated once per frame for [n] frames of
    [dt] that add up to one period of simulated time
    ([n * dt * time_scale = period_days * 86400]), is back at its
    starting angle. *)
Theorem orbit_returns_after_one_period
    (dt : R) (n : nat) (order : list nat) (st : list planet.Planet)
    (i : nat) (self : planet.Planet) :
  NoDup order -> i ∈ order ->
  st !! i = Some self ->
  0 < planet.period_days self -> 0 < planet.a_au self ->
  0 <= planet.angle self < 2 * PI ->
  INR n * dt * planet.time_scale self = planet.period_days self * 86400 ->
  exists self',
    Nat.iter n (planet.frame dt order) st !! i = Some self'
    /\ planet.angle self' = planet.angle self.
Proof.
  intros Hnd Hin Hi Hp Ha Hangle Hperiod. pose proof PI_RGT_0 as Hpi.
  assert (Hdeg : planet.degenerate self = false) by (apply not_degenerate; auto).
  destruct (frames_angle dt order i n st self Hnd Hin Hi Hdeg Hangle)
    as (self' & Hi' & Hangle' & _).
  exists self'. split; [exact Hi'|]. rewrite Hangle'.
  replace (INR n * (2 * PI * planet.time_scale self
                    / (planet.period_days self * 86400) * dt))
    with (IZR 1 * (2 * PI)).
  - rewrite py_mod_add_turns by lra. apply py_mod_small. exact Hangle.
  - replace (INR n * (2 * PI * planet.time_scale self
                      / (planet.period_days self * 86400) * dt))
      with (2 * PI * (INR n * dt * planet.time_scale self)
            / (planet.period_days self * 86400)) by (field; lra).
    rewrite Hperiod. field. lra.
Qed.

Lemma orbit_returns_after_one_period_witness :
  exists self',
    Nat.iter 2 (planet.frame 788.94 [0; 1; 2]%nat) examples.system !! 1%nat
    = Some self'
    /\ planet.angle self' = planet.angle examples.earth.
Proof.
  apply (orbit_returns_after_one_period 788.94 2 [0; 1; 2]%nat examples.system
           1 examples.earth).
  - apply (bool_decide_unpack _). reflexivity.
  - apply (bool_decide_unpack _). reflexivity.
  - reflexivity.
  - simpl. lra.
  - simpl. lra.
  - pose proof PI_RGT_0. simpl. lra.
  - simpl. lra.
Defined.

Section Names.
Import planet main linking.

Lemma by_name_from_None bodies : forall i m s,
  by_name_from i bodies m !! s = None
  <-> m !! s = None /\ forall q, q ∈ bodies -> planet_name q <> s.
Proof.
  induction bodies as [|p bodies IH]; intros i m s; cbn [by_name_from].
  - split; [intros H; split; [exact H|]; intros q Hq; apply elem_of_nil in Hq; contradiction
           |intros [H _]; exact H].
  - rewrite IH. split.
    + intros [Hm Hall]. apply lookup_insert_None in Hm as [Hm Hne].
      split; [exact Hm|]. intros q Hq.
      apply elem_of_cons in Hq as [->|Hq]; [exact Hne|apply Hall; exact Hq].
    + intros [Hm Hall]. split.
      * apply lookup_insert_None. split; [exact Hm|].
        apply Hall. apply elem_of_cons. left. reflexivity.
      * intros q Hq. apply Hall. apply elem_of_cons. right. exact Hq.
Qed.

Lemma by_name_from_Some bodies : forall i m s j,
  by_name_from i bodies m !! s = Some j ->
  (m !! s = Some j /\ forall q, q ∈ bodies -> planet_name q <> s)
  \/ (exists k, j = (i + k)%nat /\ last_named bodies s k).
Proof.
  induction bodies as [|p bodies IH]; intros i m s j; cbn [by_name_from].
  - intros H. left. split; [exact H|]. intros q Hq. apply elem_of_nil in Hq. contradiction.
  - intros H. apply IH in H as [[Hm Hall]|(k & -> & q & Hk & Hname & Hlast)].
    + destruct (decide (planet_name p = s)) as [Hp|Hp].
      * right. exists 0%nat. rewrite Hp, lookup_insert_eq in Hm. injection Hm as <-.
        split; [lia|]. exists p. split; [reflexivity|]. split; [exact Hp|].
        intros k q' Hk Hq'. destruct k as [|k]; [lia|]. cbn in Hk.
        exfalso. apply (Hall q'); [|exact Hq'].
        apply list_elem_of_lookup. eauto.
      * left. rewrite lookup_insert_ne in Hm by exact Hp. split; [exact Hm|].
        intros q Hq. apply elem_of_cons in Hq as [->|Hq]; [exact Hp|apply Hall; exact Hq].
    + right. exists (S k). split; [lia|]. exists q. split; [exact Hk|].
      split; [exact Hname|]. intros k' q' Hk' Hq'.
      destruct k' as [|k']; [lia|]. cbn in Hk'.
      specialize (Hlast k' q' Hk' Hq'). lia.
Qed.

Lemma last_named_unique bodies s j k :
  last_named bodies s j -> last_named bodies s k -> j = k.
Proof.
  intros (q & Hj & Hq & Hlast) (q' & Hk & Hq' & Hlast').
  specialize (Hlast k q' Hk Hq'). specialize (Hlast' j q Hj Hq). lia.
Qed.

(** The dictionary of names: a name leads to the last body that bears it,
    and to nothing when no body does. *)
Lemma by_name_lookup bodies s :
  (forall j, by_name bodies !! s = Some j <-> last_named bodies s j)
  /\ (by_name bodies !! s = None <-> forall q, q ∈ bodies -> planet_name q <> s).
Proof.
  unfold by_name. split.
  - intros j. split.
    + intros H. apply by_name_from_Some in H as [[Hm _]|(k & -> & Hk)].
      * rewrite lookup_empty in Hm. discriminate.
      * exact Hk.
    + intros Hj. destruct (by_name_from 0 bodies ∅ !! s) as [k|] eqn:E.
      * apply by_name_from_Some in E as [[Hm _]|(k' & -> & Hk)].
        -- rewrite lookup_empty in Hm. discriminate.
        -- f_equal. apply (last_named_unique bodies s); assumption.
      * apply by_name_from_None in E as [_ Hall].
        destruct Hj as (q & Hq & Hname & _). exfalso.
        apply (Hall q); [|exact Hname]. apply list_elem_of_lookup. eauto.
  - rewrite by_name_from_None. split; [intros [_ H]; exact H|].
    intros H. split; [apply lookup_empty|exact H].
Qed.

Lemma truthy_iff o : truthy o = true <-> exists s, o = Some s /\ s <> "".
Proof.
  destruct o as [s|]; cbn.
  - rewrite negb_true_iff. split.
    + intros H. exists s. split; [reflexivity|]. intros ->. discriminate.
    + intros (s' & [= <-] & Hne). apply String.eqb_neq. exact Hne.
  - split; [discriminate|]. intros (s & H & _). discriminate.
Qed.

Lemma link_same_but_parent names p : same_but_parent p (link names p).
Proof.
  unfold link. destruct (truthy (parent_name p)); [|repeat split].
  destruct (parent_name p) as [s|]; [|repeat split].
  destruct (names !! s); repeat split.
Qed.

End Names.

(** X13. Link resolution: the second pass changes nothing of a body but
    [parent]. A body whose [parent_name] is a non-empty string gets as
    parent the last body of the list bearing that name, and keeps its
    parent as it was when no body bears it; so does a body whose
    [parent_name] is [None] or empty. *)
Theorem link_resolution
    (bodies : list planet.Planet) (i : nat) (p : planet.Planet) :
  bodies !! i = Some p ->
  exists p',
    fst (main.second_pass bodies) !! i = Some p'
    /\ linking.same_but_parent p p'
    /\ (forall s j, planet.parent_name p = Some s -> s <> "" ->
                    linking.last_named bodies s j -> planet.parent p' = Some j)
    /\ (forall s, planet.parent_name p = Some s ->
                  (forall q, q ∈ bodies -> planet.planet_name q <> s) ->
                  planet.parent p' = planet.parent p)
    /\ (planet.parent_name p = None \/ planet.parent_name p = Some "" ->
        planet.parent p' = planet.parent p).
Proof.
  intros Hi. exists (main.link (main.by_name bodies) p).
  split; [apply link_parents_lookup; exact Hi|].
  split; [apply link_same_but_parent|].
  split; [|split].
  - intros s j Hs Hne Hlast. unfold main.link. rewrite Hs.
    cbn [main.truthy].
    destruct (String.eqb_spec s "") as [->|_]; [contradiction|]. cbn [negb].
    apply (proj1 (by_name_lookup bodies s)) in Hlast. rewrite Hlast. reflexivity.
  - intros s Hs Hnone. unfold main.link. rewrite Hs.
    apply (proj2 (by_name_lookup bodies s)) in Hnone. rewrite Hnone.
    destruct (main.truthy (Some s)); reflexivity.
  - intros [Hn|Hn]; unfold main.link; rewrite Hn; reflexivity.
Qed.

Lemma link_resolution_witness :
  [examples.sun; examples.earth; examples.station] !! 2%nat = Some examples.station
  /\ exists p',
       fst (main.second_pass [examples.sun; examples.earth; examples.station]) !! 2%nat
       = Some p'
       /\ planet.parent p' = Some 1%nat.
Proof.
  assert (Hi : [examples.sun; examples.earth; examples.station] !! 2%nat
               = Some examples.station) by reflexivity.
  split; [exact Hi|].
  destruct (link_resolution _ 2 examples.station Hi) as (p' & Hp' & _ & Hlast & _).
  exists p'. split; [exact Hp'|].
  apply (Hlast "Terra" 1%nat); [reflexivity|discriminate|].
  exists examples.earth. split; [reflexivity|]. split; [reflexivity|].
  intros k q' Hk Hq'. destruct k as [|[|[|k]]]; try lia; cbn in Hk.
  - injection Hk as <-. discriminate.
  - discriminate.
Defined.

Section UpdateOrder.
Import planet main linking planet_frame.

Lemma sort_parents_first_NoDup st : NoDup (sort_parents_first st).
Proof.
  unfold sort_parents_first. apply NoDup_app. split; [|split].
  - apply NoDup_filter, NoDup_seq.
  - intros i Hi Hi'. apply list_elem_of_filter in Hi as [Hi _].
    apply list_elem_of_filter in Hi' as [Hi' _]. congruence.
  - apply NoDup_filter, NoDup_seq.
Qed.

Lemma sort_parents_first_elem st i :
  i ∈ sort_parents_first st <-> (i < length st)%nat.
Proof.
  unfold sort_parents_first. rewrite elem_of_app, !list_elem_of_filter, !elem_of_seq.
  destruct (has_parent st i); split; intros H; lia.
Qed.

Lemma sort_parents_first_before st i j :
  (i < length st)%nat -> (j < length st)%nat ->
  has_parent st i = false -> has_parent st j = true ->
  exists l1 l2 l3, sort_parents_first st = l1 ++ i :: l2 ++ j :: l3.
Proof.
  intros Hi Hj Hpi Hpj. unfold sort_parents_first.
  assert (Hin : i ∈ filter (fun i => has_parent st i = false) (seq 0 (length st))).
  { apply list_elem_of_filter. split; [exact Hpi|]. apply elem_of_seq. lia. }
  assert (Hjn : j ∈ filter (fun i => has_parent st i = true) (seq 0 (length st))).
  { apply list_elem_of_filter. split; [exact Hpj|]. apply elem_of_seq. lia. }
  apply list_elem_of_split in Hin as (l1 & l2 & ->).
  apply list_elem_of_split in Hjn as (l2' & l3 & ->).
  exists l1, (l2 ++ l2'), l3. rewrite <- !app_assoc. reflexivity.
Qed.

Lemma has_parent_static st st' :
  length st' = length st ->
  (forall i p, st !! i = Some p -> exists p', st' !! i = Some p' /\ same_static p p') ->
  forall i, has_parent st' i = has_parent st i.
Proof.
  intros Hlen Hstatic i. unfold has_parent.
  destruct (st !! i) as [p|] eqn:Hi.
  - destruct (Hstatic i p Hi) as (p' & -> & Hs).
    destruct Hs as (_ & _ & _ & _ & _ & _ & _ & _ & _ & _ & -> & _). reflexivity.
  - apply lookup_ge_None in Hi. rewrite (proj2 (lookup_ge_None st' i)) by lia.
    reflexivity.
Qed.

Lemma sort_parents_first_frame dt order st :
  sort_parents_first (frame dt order st) = sort_parents_first st.
Proof.
  unfold sort_parents_first. rewrite frame_length.
  assert (Hp : forall i, has_parent (frame dt order st) i = has_parent st i).
  { apply has_parent_static; [apply frame_length|].
    intros i p Hi. apply frame_static. exact Hi. }
  f_equal; apply list_filter_iff; intros i; rewrite Hp; reflexivity.
Qed.

(** Right after its update a body is placed from its parent's position
    of that moment. *)
Lemma attached_after_update dt c p st child :
  st !! c = Some child -> parent child = Some p -> p <> c ->
  (p < length st)%nat ->
  attached c p (update_position dt c st).
Proof.
  intros Hc Hpar Hne Hp.
  destruct (lookup_lt_is_Some_2 st p Hp) as (par & Hpp).
  destruct (degenerate child) eqn:Hdeg.
  - destruct (update_position_degenerate dt c st child Hc Hdeg) as [_ Hsnap].
    specialize (Hsnap p par Hpar Hpp).
    exists (set_position (position par) child), par.
    rewrite (update_position_other dt c p st Hne).
    split; [exact Hsnap|]. split; [exact Hpp|]. split; [exact Hpar|].
    unfold orbit_offset. change (degenerate (set_position _ child)) with (degenerate child).
    rewrite Hdeg. cbn. lra.
  - destruct (update_position_orbiting dt c st child Hc Hdeg) as (_ & Hsome & _).
    specialize (Hsome p par Hpar Hne Hpp).
    eexists _, par.
    rewrite (update_position_other dt c p st Hne).
    split; [exact Hsome|]. split; [exact Hpp|]. split; [exact Hpar|].
    unfold orbit_offset.
    change (degenerate (set_position _ (set_angle _ child))) with (degenerate child).
    rewrite Hdeg. cbn. lra.
Qed.

Lemma attached_step dt k c p st :
  k <> p -> k <> c -> attached c p st -> attached c p (update_position dt k st).
Proof.
  intros Hkp Hkc (child & par & Hc & Hp & Hrest).
  exists child, par. rewrite !update_position_other by congruence. auto.
Qed.

Lemma attached_frame dt order c p : forall st,
  p ∉ order -> c ∉ order -> attached c p st -> attached c p (frame dt order st).
Proof.
  induction order as [|k order IH]; intros st Hp Hc Hat; [exact Hat|].
  rewrite frame_cons. apply not_elem_of_cons in Hp as [Hpk Hp].
  apply not_elem_of_cons in Hc as [Hck Hc].
  apply IH; [exact Hp|exact Hc|]. apply attached_step; congruence.
Qed.

End UpdateOrder.

(** X14. The update order: the order in which the second pass returns the
    bodies holds every body once, has every body without parent before
    every body with one, and is the order the same sort would give after
    any frame. *)
Theorem update_order_parents_first (st : list planet.Planet) :
  NoDup (main.sort_parents_first st)
  /\ (forall i, i ∈ main.sort_parents_first st <-> (i < length st)%nat)
  /\ (forall i j, (i < length st)%nat -> (j < length st)%nat ->
        main.has_parent st i = false -> main.has_parent st j = true ->
        exists l1 l2 l3, main.sort_parents_first st = l1 ++ i :: l2 ++ j :: l3)
  /\ (forall dt order,
        main.sort_parents_first (planet.frame dt order st)
        = main.sort_parents_first st).
Proof.
  split; [apply sort_parents_first_NoDup|].
  split; [apply sort_parents_first_elem|].
  split; [apply sort_parents_first_before|].
  intros dt order. apply sort_parents_first_frame.
Qed.

Lemma update_order_parents_first_witness :
  NoDup (main.sort_parents_first examples.system)
  /\ exists l1 l2 l3,
       main.sort_parents_first examples.system = l1 ++ 0%nat :: l2 ++ 2%nat :: l3.
Proof.
  destruct (update_order_parents_first examples.system) as (Hnd & _ & Hbefore & _).
  split; [exact Hnd|].
  apply (Hbefore 0%nat 2%nat); [simpl; lia|simpl; lia|reflexivity|reflexivity].
Defined.

Section Buttons.
Import planet main.
Variable lower : string -> string.
Variable st : list Planet.

Abbreviation is_earth b := (lower_name_in lower st b ["terra"; "earth"]).
Abbreviation is_moon b := (lower_name_in lower st b ["lua"; "moon"]).

Lemma find_earth_moon_spec bodies : forall e0 m0 e m,
  find_earth_moon lower st bodies e0 m0 = (e, m) ->
  (e = e0 \/ exists b, e = Some b /\ b ∈ bodies /\ is_earth b = true)
  /\ (m = m0 \/ exists b, m = Some b /\ b ∈ bodies
                          /\ is_earth b = false /\ is_moon b = true).
Proof.
  induction bodies as [|b bodies IH]; intros e0 m0 e m; cbn [find_earth_moon].
  - intros [= <- <-]. auto.
  - destruct (is_earth b) eqn:He; [|destruct (is_moon b) eqn:Hm].
    + intros H. apply IH in H as [[->|(b' & -> & Hb' & Hn)] Hmoon].
      * split; [right; exists b; split; [reflexivity|]; split; [left|exact He]|].
        destruct Hmoon as [->|(b' & -> & Hb' & Hn)]; [auto|].
        right. exists b'. split; [reflexivity|]. split; [right; exact Hb'|exact Hn].
      * split; [right; exists b'; split; [reflexivity|]; split; [right; exact Hb'|exact Hn]|].
        destruct Hmoon as [->|(b'' & -> & Hb'' & Hn')]; [auto|].
        right. exists b''. split; [reflexivity|]. split; [right; exact Hb''|exact Hn'].
    + intros H. apply IH in H as [Hearth [->|(b' & -> & Hb' & Hn)]].
      * split.
        -- destruct Hearth as [->|(b' & -> & Hb' & Hn)]; [auto|].
           right. exists b'. split; [reflexivity|]. split; [right; exact Hb'|exact Hn].
        -- right. exists b. split; [reflexivity|]. split; [left|auto].
      * split.
        -- destruct Hearth as [->|(b'' & -> & Hb'' & Hn')]; [auto|].
           right. exists b''. split; [reflexivity|]. split; [right; exact Hb''|exact Hn'].
        -- right. exists b'. split; [reflexivity|]. split; [right; exact Hb'|exact Hn].
    + intros H. apply IH in H as [Hearth Hmoon]. split.
      * destruct Hearth as [->|(b' & -> & Hb' & Hn)]; [auto|].
        right. exists b'. split; [reflexivity|]. split; [right; exact Hb'|exact Hn].
      * destruct Hmoon as [->|(b' & -> & Hb' & Hn)]; [auto|].
        right. exists b'. split; [reflexivity|]. split; [right; exact Hb'|exact Hn].
Qed.

Lemma find_earth_moon_distinct bodies e m :
  find_earth_moon lower st bodies None None = (Some e, Some m) ->
  e <> m /\ e ∈ bodies /\ m ∈ bodies.
Proof.
  intros H. apply find_earth_moon_spec in H as [[He|(b & [= <-] & Hb & Hn)]
                                                 [Hm|(b' & [= <-] & Hb' & Hn' & _)]];
    try discriminate.
  split; [|auto]. intros ->. congruence.
Qed.

Lemma find_no_earth bodies : forall e0 m0,
  (forall b, b ∈ bodies -> is_earth b = false) ->
  fst (find_earth_moon lower st bodies e0 m0) = e0.
Proof.
  induction bodies as [|b bodies IH]; intros e0 m0 Hall; [reflexivity|].
  cbn [find_earth_moon]. rewrite (Hall b) by (left).
  destruct (is_moon b); apply IH; intros b' Hb'; apply Hall; right; exact Hb'.
Qed.

Lemma find_no_moon bodies : forall e0 m0,
  (forall b, b ∈ bodies -> is_earth b = true \/ is_moon b = false) ->
  snd (find_earth_moon lower st bodies e0 m0) = m0.
Proof.
  induction bodies as [|b bodies IH]; intros e0 m0 Hall; [reflexivity|].
  cbn [find_earth_moon].
  assert (Htail : forall b', b' ∈ bodies -> is_earth b' = true \/ is_moon b' = false)
    by (intros b' Hb'; apply Hall; right; exact Hb').
  destruct (Hall b ltac:(left)) as [He|Hm].
  - rewrite He. apply IH. exact Htail.
  - destruct (is_earth b); [apply IH; exact Htail|].
    rewrite Hm. apply IH. exact Htail.
Qed.

Lemma place_moon_plain e m l : forall rest added,
  e ∉ l -> m ∉ l ->
  place_moon e m (l ++ rest) added = l ++ place_moon e m rest added.
Proof.
  induction l as [|b l IH]; intros rest added He Hm; [reflexivity|].
  apply not_elem_of_cons in He as [Hbe He]. apply not_elem_of_cons in Hm as [Hbm Hm].
  cbn [app place_moon].
  destruct (Nat.eqb_spec b e) as [->|_]; [congruence|].
  destruct (Nat.eqb_spec b m) as [->|_]; [congruence|].
  rewrite IH by assumption. reflexivity.
Qed.

Lemma place_moon_untouched e m l added :
  e ∉ l -> m ∉ l -> place_moon e m l added = l.
Proof.
  intros He Hm. rewrite <- (app_nil_r l) at 1.
  rewrite place_moon_plain by assumption. cbn. apply app_nil_r.
Qed.

Lemma place_moon_others e m l : forall added,
  e <> m ->
  filter (fun b => b <> m) (place_moon e m l added) = filter (fun b => b <> m) l.
Proof.
  intros added Hem. revert added.
  induction l as [|b l IH]; intros added; [reflexivity|]. cbn [place_moon].
  destruct (Nat.eqb_spec b e) as [->|Hbe].
  - rewrite (filter_cons_True _ e (m :: _)) by exact Hem.
    rewrite (filter_cons_True _ e l) by exact Hem.
    rewrite filter_cons_False by (intros H; apply H; reflexivity).
    rewrite IH. reflexivity.
  - destruct (Nat.eqb_spec b m) as [->|Hbm].
    + rewrite (filter_cons_False _ m l) by (intros H; apply H; reflexivity).
      destruct added; [apply IH|].
      rewrite filter_cons_False by (intros H; apply H; reflexivity). apply IH.
    + rewrite (filter_cons_True _ b (place_moon _ _ _ _)) by exact Hbm.
      rewrite (filter_cons_True _ b l) by exact Hbm. rewrite IH. reflexivity.
Qed.

End Buttons.

(** ** The button bar *)

(** X16. The button order: when the earth comes before the moon in a
    list without repetition, [reorder_bodies_for_buttons] moves the moon
    right behind the earth and keeps every other body in place. *)
Theorem moon_moves_behind_earth
    (lower : string -> string) (st : list planet.Planet)
    (l1 l2 l3 : list nat) (e m : nat) :
  NoDup (l1 ++ e :: l2 ++ m :: l3) ->
  main.find_earth_moon lower st (l1 ++ e :: l2 ++ m :: l3) None None
  = (Some e, Some m) ->
  main.reorder_bodies_for_buttons lower st (l1 ++ e :: l2 ++ m :: l3)
  = l1 ++ e :: m :: l2 ++ l3.
Proof.
  intros Hnd Hfind. unfold main.reorder_bodies_for_buttons. rewrite Hfind.
  apply NoDup_app in Hnd as (_ & H1 & Hnd).
  apply NoDup_cons in Hnd as [He Hnd].
  apply NoDup_app in Hnd as (_ & H2 & Hnd).
  apply NoDup_cons in Hnd as [Hm _].
  assert (Hem : e <> m) by (intros ->; apply He; apply elem_of_app; right; left).
  assert (He1 : e ∉ l1) by (intros H; apply (H1 e H); left).
  assert (Hm1 : m ∉ l1)
    by (intros H; apply (H1 m H); right; apply elem_of_app; right; left).
  assert (He2 : e ∉ l2) by (intros H; apply He; apply elem_of_app; left; exact H).
  assert (Hm2 : m ∉ l2) by (intros H; apply (H2 m H); left).
  assert (He3 : e ∉ l3)
    by (intros H; apply He; apply elem_of_app; right; right; exact H).
  rewrite place_moon_plain by assumption.
  cbn [main.place_moon]. rewrite Nat.eqb_refl.
  rewrite place_moon_plain by assumption.
  cbn [main.place_moon]. destruct (Nat.eqb_spec m e) as [E|_]; [congruence|].
  rewrite Nat.eqb_refl.
  rewrite place_moon_untouched by assumption. reflexivity.
Qed.

Lemma moon_moves_behind_earth_witness :
  main.reorder_bodies_for_buttons samples.ascii_lower samples.inner_system
    [0; 1; 2; 3]%nat
  = [0; 1; 3; 2]%nat.
Proof.
  apply (moon_moves_behind_earth samples.ascii_lower samples.inner_system
           [0%nat] [2%nat] [] 1%nat 3%nat).
  - apply (bool_decide_unpack _). reflexivity.
  - reflexivity.
Defined.

(** X17. The same function when the moon comes first: the moon keeps its
    place and is appended once more behind the earth, so the returned
    list is one entry longer and holds the moon twice. *)
Theorem moon_before_earth_is_doubled
    (lower : string -> string) (st : list planet.Planet)
    (l1 l2 l3 : list nat) (e m : nat) :
  NoDup (l1 ++ m :: l2 ++ e :: l3) ->
  main.find_earth_moon lower st (l1 ++ m :: l2 ++ e :: l3) None None
  = (Some e, Some m) ->
  main.reorder_bodies_for_buttons lower st (l1 ++ m :: l2 ++ e :: l3)
  = l1 ++ m :: l2 ++ e :: m :: l3.
Proof.
  intros Hnd Hfind. unfold main.reorder_bodies_for_buttons. rewrite Hfind.
  apply NoDup_app in Hnd as (_ & H1 & Hnd).
  apply NoDup_cons in Hnd as [Hm Hnd].
  apply NoDup_app in Hnd as (_ & H2 & Hnd).
  apply NoDup_cons in Hnd as [He _].
  assert (Hem : e <> m) by (intros ->; apply Hm; apply elem_of_app; right; left).
  assert (He1 : e ∉ l1)
    by (intros H; apply (H1 e H); right; apply elem_of_app; right; left).
  assert (Hm1 : m ∉ l1) by (intros H; apply (H1 m H); left).
  assert (He2 : e ∉ l2) by (intros H; apply (H2 e H); left).
  assert (Hm2 : m ∉ l2) by (intros H; apply Hm; apply elem_of_app; left; exact H).
  assert (Hm3 : m ∉ l3)
    by (intros H; apply Hm; apply elem_of_app; right; right; exact H).
  rewrite place_moon_plain by assumption.
  cbn [main.place_moon]. destruct (Nat.eqb_spec m e) as [E|_]; [congruence|].
  rewrite Nat.eqb_refl.
  rewrite place_moon_plain by assumption.
  cbn [main.place_moon]. rewrite Nat.eqb_refl.
  rewrite place_moon_untouched by assumption. reflexivity.
Qed.

Lemma moon_before_earth_is_doubled_witness :
  main.reorder_bodies_for_buttons samples.ascii_lower samples.inner_system
    [0; 3; 2; 1]%nat
  = [0; 3; 2; 1; 3]%nat.
Proof.
  apply (moon_before_earth_is_doubled samples.ascii_lower samples.inner_system
           [0%nat] [2%nat] [] 1%nat 3%nat).
  - apply (bool_decide_unpack _). reflexivity.
  - reflexivity.
Defined.

(** X18. Without an earth or without a moon the list is returned as it
    is: when no body is called terra or earth, or when every body called
    lua or moon is also called terra or earth. *)
Theorem no_earth_or_no_moon_keeps_order
    (lower : string -> string) (st : list planet.Planet) (bodies : list nat) :
  (forall b, b ∈ bodies ->
     main.lower_name_in lower st b ["terra"; "earth"] = false)
  \/ (forall b, b ∈ bodies ->
        main.lower_name_in lower st b ["terra"; "earth"] = true
        \/ main.lower_name_in lower st b ["lua"; "moon"] = false) ->
  main.reorder_bodies_for_buttons lower st bodies = bodies.
Proof.
  intros [Hnone|Hnone]; unfold main.reorder_bodies_for_buttons.
  - pose proof (find_no_earth lower st bodies None None Hnone) as H.
    destruct (main.find_earth_moon lower st bodies None None) as [e m].
    cbn in H. subst e. reflexivity.
  - pose proof (find_no_moon lower st bodies None None Hnone) as H.
    destruct (main.find_earth_moon lower st bodies None None) as [e m].
    cbn in H. subst m. destruct e; reflexivity.
Qed.

Lemma no_earth_or_no_moon_keeps_order_witness :
  main.reorder_bodies_for_buttons samples.ascii_lower examples.system
    [0; 1; 2]%nat
  = [0; 1; 2]%nat.
Proof.
  apply (no_earth_or_no_moon_keeps_order samples.ascii_lower examples.system).
  right. intros b Hb.
  apply elem_of_cons in Hb as [->|Hb]; [right; reflexivity|].
  apply elem_of_cons in Hb as [->|Hb]; [left; reflexivity|].
  apply elem_of_cons in Hb as [->|Hb]; [right; reflexivity|].
  apply elem_of_nil in Hb. contradiction.
Defined.

(** X19. Whatever the list, the bodies other than the moon come out in
    the order and number in which they went in. *)
Theorem reorder_keeps_the_others
    (lower : string -> string) (st : list planet.Planet) (bodies : list nat)
    (e m : nat) :
  main.find_earth_moon lower st bodies None None = (Some e, Some m) ->
  filter (fun b => b <> m) (main.reorder_bodies_for_buttons lower st bodies)
  = filter (fun b => b <> m) bodies.
Proof.
  intros Hfind. unfold main.reorder_bodies_for_buttons. rewrite Hfind.
  apply place_moon_others.
  apply (find_earth_moon_distinct lower st bodies e m Hfind).
Qed.

Lemma reorder_keeps_the_others_witness :
  filter (fun b => b <> 3%nat)
    (main.reorder_bodies_for_buttons samples.ascii_lower samples.inner_system
       [3; 0; 1; 2]%nat)
  = filter (fun b => b <> 3%nat) [3; 0; 1; 2]%nat.
Proof.
  apply (reorder_keeps_the_others samples.ascii_lower samples.inner_system
           [3; 0; 1; 2]%nat 1%nat 3%nat).
  reflexivity.
Defined.

(** ** The list the main loop walks *)

Section MainLoopOrder.
Import planet main linking planet_frame.

(** The child's last update decides: whatever ran before it, the child is
    placed from its parent when neither is updated afterwards. *)
Lemma frame_attached_last dt pre rest st c p child :
  st !! c = Some child -> parent child = Some p ->
  (p < length st)%nat -> p <> c -> p ∉ rest -> c ∉ rest ->
  attached c p (frame dt (pre ++ c :: rest) st).
Proof.
  intros Hc Hpar Hp Hpc Hp3 Hc3.
  rewrite frame_app, frame_cons.
  apply attached_frame; [exact Hp3|exact Hc3|].
  destruct (frame_static dt pre st c child Hc) as (child1 & Hc1 & Hs1).
  apply (attached_after_update dt c p _ child1 Hc1); [|exact Hpc|].
  - destruct Hs1 as (_ & _ & _ & _ & _ & _ & _ & _ & _ & _ & -> & _). exact Hpar.
  - rewrite frame_length. exact Hp.
Qed.

Lemma place_moon_app e m a : forall b added,
  exists added',
    place_moon e m (a ++ b) added
    = place_moon e m a added ++ place_moon e m b added'.
Proof.
  induction a as [|x a IH]; intros b added.
  - exists added. reflexivity.
  - cbn [app place_moon].
    destruct (Nat.eqb x e).
    + destruct (IH b true) as (added' & ->). exists added'. reflexivity.
    + destruct (IH b added) as (added' & ->). exists added'.
      destruct (Nat.eqb x m); [destruct added|]; reflexivity.
Qed.

Lemma place_moon_elem e m l : forall added x,
  x ∈ place_moon e m l added -> x ∈ l \/ x = m.
Proof.
  induction l as [|b l IH]; intros added x; cbn [place_moon].
  - intros H. apply elem_of_nil in H. contradiction.
  - destruct (Nat.eqb b e).
    + intros H. apply elem_of_cons in H as [->|H]; [left; left|].
      apply elem_of_cons in H as [->|H]; [right; reflexivity|].
      apply IH in H as [H| ->]; [left; right; exact H|right; reflexivity].
    + assert (Hgen : x ∈ b :: place_moon e m l added -> x ∈ b :: l \/ x = m).
      { intros H. apply elem_of_cons in H as [->|H]; [left; left|].
        apply IH in H as [H| ->]; [left; right; exact H|right; reflexivity]. }
      destruct (Nat.eqb b m); [destruct added|]; try exact Hgen.
      intros H. apply IH in H as [H| ->]; [left; right; exact H|right; reflexivity].
Qed.

Lemma place_moon_added e m l :
  e ∉ l -> m ∉ place_moon e m l true.
Proof.
  induction l as [|b l IH]; intros He; cbn [place_moon].
  - apply not_elem_of_nil.
  - apply not_elem_of_cons in He as [Hbe He].
    destruct (Nat.eqb_spec b e) as [->|_]; [congruence|].
    destruct (Nat.eqb_spec b m) as [->|Hbm]; [apply IH; exact He|].
    apply not_elem_of_cons. split; [congruence|apply IH; exact He].
Qed.

(** Where the child's last update is in the list the main loop walks. *)
Lemma reorder_child_last lower st c p :
  (p < length st)%nat -> (c < length st)%nat ->
  has_parent st p = false -> has_parent st c = true ->
  (forall e m,
     find_earth_moon lower st (sort_parents_first st) None None = (Some e, Some m) ->
     (c <> m /\ p <> m) \/ (c = m /\ p = e)) ->
  exists pre rest,
    reorder_bodies_for_buttons lower st (sort_parents_first st) = pre ++ c :: rest
    /\ (p ∉ rest) /\ (c ∉ rest).
Proof.
  intros Hp Hc Hroot Hchild Hcases.
  pose proof (sort_parents_first_NoDup st) as Hnd.
  assert (Hplain : forall l1 l2 l3, NoDup (l1 ++ p :: l2 ++ c :: l3) -> (p ∉ l3) /\ (c ∉ l3)).
  { intros l1 l2 l3 H. apply NoDup_app in H as (_ & _ & H).
    apply NoDup_cons in H as [Hp23 H]. apply NoDup_app in H as (_ & _ & H).
    apply NoDup_cons in H as [Hc3 _]. split; [|exact Hc3].
    intros Hin. apply Hp23. apply elem_of_app. right. right. exact Hin. }
  unfold reorder_bodies_for_buttons.
  destruct (find_earth_moon lower st (sort_parents_first st) None None)
    as [[e|] [m|]] eqn:Hfind.
  2-4: destruct (sort_parents_first_before st p c Hp Hc Hroot Hchild)
         as (l1 & l2 & l3 & Horder);
       rewrite Horder in *; exists (l1 ++ p :: l2), l3;
       (split; [rewrite <- app_assoc; reflexivity|]); apply (Hplain l1 l2 l3 Hnd).
  destruct (find_earth_moon_distinct lower st _ e m Hfind) as (Hem & He & _).
  destruct (Hcases e m eq_refl) as [[Hcm Hpm]|[-> ->]].
  - destruct (sort_parents_first_before st p c Hp Hc Hroot Hchild)
      as (l1 & l2 & l3 & Horder).
    rewrite Horder in *. destruct (Hplain l1 l2 l3 Hnd) as [Hp3 Hc3].
    replace (l1 ++ p :: l2 ++ c :: l3) with ((l1 ++ p :: l2) ++ c :: l3)
      by (rewrite <- app_assoc; reflexivity).
    destruct (place_moon_app e m (l1 ++ p :: l2) (c :: l3) false) as (added & ->).
    assert (Htail : exists rest, place_moon e m (c :: l3) added = c :: rest
                                 /\ forall x, x ∈ rest -> x ∈ l3 \/ x = m).
    { cbn [place_moon]. destruct (Nat.eqb c e).
      - eexists. split; [reflexivity|]. intros x Hx.
        apply elem_of_cons in Hx as [->|Hx]; [right; reflexivity|].
        apply place_moon_elem in Hx. exact Hx.
      - destruct (Nat.eqb_spec c m) as [E|_]; [congruence|].
        eexists. split; [reflexivity|]. intros x Hx.
        apply place_moon_elem in Hx. exact Hx. }
    destruct Htail as (rest & -> & Hrest).
    exists (place_moon e m (l1 ++ p :: l2) false), rest.
    split; [reflexivity|].
    split; intros Hin; apply Hrest in Hin as [Hin|Hin]; congruence || auto.
  - apply list_elem_of_split in He as (a & b & Hsplit). rewrite Hsplit in *.
    apply NoDup_app in Hnd as (_ & _ & Hnd). apply NoDup_cons in Hnd as [Heb _].
    destruct (place_moon_app e m a (e :: b) false) as (added & ->).
    cbn [place_moon]. rewrite Nat.eqb_refl.
    exists (place_moon e m a false ++ [e]), (place_moon e m b true).
    split; [rewrite <- app_assoc; reflexivity|]. split.
    + intros Hin. apply place_moon_elem in Hin as [Hin|Hin]; [auto|congruence].
    + apply place_moon_added. exact Heb.
Qed.

Lemma lower_name_in_static lower st st' :
  length st' = length st ->
  (forall i p, st !! i = Some p -> exists p', st' !! i = Some p' /\ same_static p p') ->
  forall b names, lower_name_in lower st' b names = lower_name_in lower st b names.
Proof.
  intros Hlen Hstatic b names. unfold lower_name_in.
  destruct (st !! b) as [p|] eqn:Hb.
  - destruct (Hstatic b p Hb) as (p' & -> & Hs).
    destruct Hs as (-> & _). reflexivity.
  - apply lookup_ge_None in Hb. rewrite <- Hlen in Hb.
    apply lookup_ge_None in Hb. rewrite Hb. reflexivity.
Qed.

Lemma find_earth_moon_static lower st st' :
  (forall b names, lower_name_in lower st' b names = lower_name_in lower st b names) ->
  forall bodies e m,
    find_earth_moon lower st' bodies e m = find_earth_moon lower st bodies e m.
Proof.
  intros Hsame bodies. induction bodies as [|b bodies IH]; intros e m; [reflexivity|].
  cbn [find_earth_moon]. rewrite !Hsame, !IH. reflexivity.
Qed.

Lemma reorder_frame lower dt order st :
  reorder_bodies_for_buttons lower (frame dt order st)
    (sort_parents_first (frame dt order st))
  = reorder_bodies_for_buttons lower st (sort_parents_first st).
Proof.
  unfold reorder_bodies_for_buttons. rewrite sort_parents_first_frame.
  rewrite (find_earth_moon_static lower st (frame dt order st)); [reflexivity|].
  apply lower_name_in_static; [apply frame_length|].
  intros i p Hi. apply frame_static. exact Hi.
Qed.

End MainLoopOrder.

(** The sample moon makes a quarter turn in a frame of 1.08 seconds. *)
Lemma lone_moon_quarter_turn : planet_frame.next_angle 1.08 samples.lone_moon = PI / 2.
Proof.
  unfold planet_frame.next_angle. cbn.
  pose proof PI_RGT_0 as Hpi.
  replace (0 + 2 * PI * 20000 / (1 * 86400) * 1.08) with (PI / 2) by lra.
  apply py_mod_small. lra.
Qed.

(** C5, counterexample. In the list the main loop walks, with a moon that
    has no parent listed before an earth that has one, the list holds the
    moon twice, the second time behind the earth.  The base on the moon has
    [a_au = 0] and the moon as parent, and the moon's [update_position]
    runs before the base's; it runs once more after it, so a frame of
    [dt = 1.08] (a quarter turn of the moon) ends with the base at height 3
    and the moon at height 0. *)
Lemma degenerate_orbit_and_parent_rigidity_counterexample :
  let st := fst (main.second_pass samples.moon_first) in
  let bodies := main.reorder_bodies_for_buttons samples.ascii_lower st
                  (snd (main.second_pass samples.moon_first)) in
  bodies = [0; 1; 2; 3; 1]%nat
  /\ (exists child, st !! 2%nat = Some child
        /\ planet.a_au child = 0 /\ planet.parent child = Some 1%nat)
  /\ exists child' parent',
       planet.frame 1.08 bodies st !! 2%nat = Some child'
       /\ planet.frame 1.08 bodies st !! 1%nat = Some parent'
       /\ vy (planet.position child') = 3
       /\ vy (planet.position parent') = 0.
Proof.
  cbv zeta.
  assert (Hb : main.reorder_bodies_for_buttons samples.ascii_lower
                 (fst (main.second_pass samples.moon_first))
                 (snd (main.second_pass samples.moon_first)) = [0; 1; 2; 3; 1]%nat)
    by reflexivity.
  rewrite Hb. split; [reflexivity|]. split.
  { eexists. split; [reflexivity|]. split; reflexivity. }
  set (st := fst (main.second_pass samples.moon_first)).
  assert (H1 : st !! 1%nat = Some samples.lone_moon) by reflexivity.
  assert (H2 : st !! 2%nat = Some (planet.set_parent (Some 1%nat) samples.moon_base))
    by reflexivity.
  rewrite !frame_cons. change (planet.frame 1.08 [] ?s) with s.
  set (s1 := planet.update_position 1.08 0 st).
  assert (H1a : s1 !! 1%nat = Some samples.lone_moon).
  { unfold s1. rewrite update_position_other by lia. exact H1. }
  assert (Hnd : planet.degenerate samples.lone_moon = false).
  { apply not_degenerate. simpl. lra. }
  destruct (update_position_orbiting 1.08 1 s1 _ H1a Hnd) as [Horb _].
  specialize (Horb eq_refl).
  set (s2 := planet.update_position 1.08 1 s1) in *.
  assert (H2a : s2 !! 2%nat = Some (planet.set_parent (Some 1%nat) samples.moon_base)).
  { unfold s2, s1. rewrite !update_position_other by lia. exact H2. }
  rewrite lone_moon_quarter_turn in Horb.
  set (moved := planet.set_position _ _) in Horb.
  assert (Hdeg : planet.degenerate (planet.set_parent (Some 1%nat) samples.moon_base) = true).
  { unfold planet.degenerate. simpl. destruct (Rle_dec 0 0); [reflexivity|lra]. }
  destruct (update_position_degenerate 1.08 2 s2 _ H2a Hdeg) as [_ Hsnap].
  specialize (Hsnap 1%nat moved eq_refl Horb).
  set (s3 := planet.update_position 1.08 2 s2) in *.
  set (s4 := planet.update_position 1.08 3 s3).
  assert (H1d : s4 !! 1%nat = Some moved).
  { unfold s4, s3. rewrite !update_position_other by lia. exact Horb. }
  assert (Hnd' : planet.degenerate moved = false).
  { apply not_degenerate. simpl. lra. }
  destruct (update_position_orbiting 1.08 1 s4 _ H1d Hnd') as [Horb' _].
  specialize (Horb' eq_refl).
  assert (Hhalf : planet_frame.next_angle 1.08 moved = PI).
  { unfold planet_frame.next_angle. cbn. pose proof PI_RGT_0 as Hpi.
    replace (PI / 2 + 2 * PI * 20000 / (1 * 86400) * 1.08) with PI by lra.
    apply py_mod_small. lra. }
  rewrite Hhalf in Horb'.
  eexists _, _. split.
  { rewrite update_position_other by lia. unfold s4.
    rewrite update_position_other by lia. exact Hsnap. }
  split; [exact Horb'|]. split.
  - cbn. rewrite sin_PI2. lra.
  - cbn. rewrite sin_PI. lra.
Qed.

(** X15. No stale parent position for the children of parentless bodies,
    in the list the main loop walks
    ([reorder_bodies_for_buttons(load_solar_system())]): a body whose
    parent has no parent itself ends the frame placed from the position
    its parent has at the end of that frame (on it when its orbit is
    degenerate, on its ring around it otherwise), provided that, when the
    list holds an earth and a moon, either neither the body nor its parent
    is that moon, or the body is the moon and its parent the earth.  The
    list itself is the one the same two functions would give after any
    frame. *)
Theorem children_of_roots_follow_their_parent
    (lower : string -> string) (dt : R) (st : list planet.Planet)
    (c p : nat) (child : planet.Planet) :
  st !! c = Some child ->
  planet.parent child = Some p ->
  (p < length st)%nat ->
  main.has_parent st p = false ->
  (forall e m,
     main.find_earth_moon lower st (main.sort_parents_first st) None None
     = (Some e, Some m) ->
     (c <> m /\ p <> m) \/ (c = m /\ p = e)) ->
  let bodies := main.reorder_bodies_for_buttons lower st (main.sort_parents_first st) in
  (forall dt' order,
     main.reorder_bodies_for_buttons lower (planet.frame dt' order st)
       (main.sort_parents_first (planet.frame dt' order st)) = bodies)
  /\ exists child' par',
       planet.frame dt bodies st !! c = Some child'
       /\ planet.frame dt bodies st !! p = Some par'
       /\ vx (planet.position child')
          = vx (planet.position par') + vx (linking.orbit_offset child')
       /\ vy (planet.position child')
          = vy (planet.position par') + vy (linking.orbit_offset child').
Proof.
  intros Hc Hpar Hp Hroot Hcases bodies.
  split; [intros dt' order; apply reorder_frame|].
  assert (Hchild : main.has_parent st c = true).
  { unfold main.has_parent. rewrite Hc, Hpar. reflexivity. }
  assert (Hpc : p <> c) by (intros ->; congruence).
  destruct (reorder_child_last lower st c p Hp (lookup_lt_Some _ _ _ Hc)
              Hroot Hchild Hcases) as (pre & rest & Hbodies & Hp3 & Hc3).
  subst bodies. rewrite Hbodies.
  destruct (frame_attached_last dt pre rest st c p child Hc Hpar Hp Hpc Hp3 Hc3)
    as (child' & par' & Hc' & Hp' & _ & Hx & Hy).
  exists child', par'. auto.
Qed.

Lemma children_of_roots_follow_their_parent_witness :
  let st := samples.inner_system in
  let bodies := main.reorder_bodies_for_buttons samples.ascii_lower st
                  (main.sort_parents_first st) in
  bodies = [0; 1; 3; 2]%nat
  /\ st !! 3%nat = Some (planet.set_parent (Some 1%nat) samples.moon)
  /\ exists child' par',
       planet.frame 0.016 bodies st !! 3%nat = Some child'
       /\ planet.frame 0.016 bodies st !! 1%nat = Some par'
       /\ vx (planet.position child')
          = vx (planet.position par') + vx (linking.orbit_offset child')
       /\ vy (planet.position child')
          = vy (planet.position par') + vy (linking.orbit_offset child').
Proof.
  cbv zeta.
  assert (Hc : samples.inner_system !! 3%nat
               = Some (planet.set_parent (Some 1%nat) samples.moon))
    by reflexivity.
  split; [reflexivity|]. split; [exact Hc|].
  apply (children_of_roots_follow_their_parent samples.ascii_lower 0.016
           samples.inner_system 3 1 _ Hc).
  - reflexivity.
  - simpl. lia.
  - reflexivity.
  - intros e m Hfind. right.
    assert (Hem : main.find_earth_moon samples.ascii_lower samples.inner_system
                    (main.sort_parents_first samples.inner_system) None None
                  = (Some 1%nat, Some 3%nat)) by reflexivity.
    rewrite Hem in Hfind. injection Hfind as <- <-. split; reflexivity.
Defined.

Section Layout.
Import main layout.
Local Open Scope Z_scope.

Lemma wrap32_id z : in_int z -> wrap32 z = z.
Proof.
  unfold in_int, wrap32. intros Hz.
  rewrite Z.mod_small by lia. lia.
Qed.

Lemma in_int_long z : in_int z -> in_long z = true.
Proof.
  unfold in_int, in_long. intros Hz.
  apply andb_true_intro. split; [apply Z.leb_le|apply Z.ltb_lt]; lia.
Qed.

Lemma Rect_new_in_int x y w h :
  in_int x -> in_int y -> in_int w -> in_int h ->
  Rect_new x y w h = Some (mkRect x y w h).
Proof.
  intros Hx Hy Hw Hh. unfold Rect_new.
  rewrite !in_int_long, !wrap32_id by assumption. reflexivity.
Qed.

(** While the left edges stay within a C int, the loop stores the
    rectangles it computes. *)
Lemma place_buttons_in_int bodies : forall x y w h m,
  in_int y -> in_int w -> in_int h ->
  (forall i, (i < length bodies)%nat -> in_int (x + Z.of_nat i * (w + m))) ->
  exists buttons,
    place_buttons bodies x y w h m = Some buttons
    /\ length buttons = length bodies
    /\ forall i p, bodies !! i = Some p ->
         buttons !! i = Some (p, mkRect (x + Z.of_nat i * (w + m)) y w h).
Proof.
  induction bodies as [|p bodies IH]; intros x y w h m Hy Hw Hh Hx.
  - exists []. split; [reflexivity|]. split; [reflexivity|]. intros i q Hq. discriminate.
  - cbn [place_buttons].
    assert (Hx0 : in_int x).
    { replace x with (x + Z.of_nat 0 * (w + m)) by lia. apply Hx. cbn. lia. }
    rewrite Rect_new_in_int by assumption.
    destruct (IH (x + w + m) y w h m Hy Hw Hh) as (buttons & -> & Hlen & Hlook).
    { intros i Hi.
      replace (x + w + m + Z.of_nat i * (w + m)) with (x + Z.of_nat (S i) * (w + m))
        by lia.
      apply Hx. cbn. lia. }
    exists ((p, mkRect x y w h) :: buttons).
    split; [reflexivity|]. split; [cbn; rewrite Hlen; reflexivity|].
    intros [|i] q Hq.
    + cbn in Hq. injection Hq as <-.
      change (Some (p, mkRect x y w h)
              = Some (p, mkRect (x + Z.of_nat 0 * (w + m)) y w h)).
      do 3 f_equal. lia.
    + cbn in Hq.
      change (buttons !! i = Some (q, mkRect (x + Z.of_nat (S i) * (w + m)) y w h)).
      rewrite (Hlook i q Hq). do 3 f_equal. lia.
Qed.

Lemma button_width_bounds n sw :
  0 < n -> 0 <= sw -> 80 <= button_width n sw <= Z.max 80 sw.
Proof.
  intros Hn Hsw. unfold button_width. split; [lia|].
  apply Z.max_lub; [lia|].
  destruct (Z_lt_le_dec (sw - 2 * 10 - (n - 1) * 10) 0) as [Hneg|Hpos].
  - pose proof (Z.quot_opp_l (- (sw - 2 * 10 - (n - 1) * 10)) n ltac:(lia)) as Hq.
    rewrite Z.opp_involutive in Hq.
    pose proof (Z.quot_pos (- (sw - 2 * 10 - (n - 1) * 10)) n ltac:(lia) ltac:(lia)).
    lia.
  - rewrite Z.quot_div_nonneg by lia.
    assert ((sw - 2 * 10 - (n - 1) * 10) / n <= sw - 2 * 10 - (n - 1) * 10)
      by (apply Z.div_le_upper_bound; nia).
    lia.
Qed.

(** On a screen whose bar ends within a C int, the buttons are the
    rectangles the arithmetic of [build_planet_buttons] gives. *)
Lemma build_planet_buttons_in_int bodies sw sh :
  in_int sw -> 0 <= sw -> in_int sh -> 0 <= sh ->
  in_int (bar_end (Z.of_nat (length bodies)) sw) ->
  exists buttons,
    build_planet_buttons bodies sw sh = Some buttons
    /\ length buttons = length bodies
    /\ forall i p, bodies !! i = Some p ->
         buttons !! i
         = Some (p, mkRect
                      (10 + Z.of_nat i * (button_width (Z.of_nat (length bodies)) sw + 10))
                      (sh - 36 - 10)
                      (button_width (Z.of_nat (length bodies)) sw) 36).
Proof.
  intros Hsw Hsw0 Hsh Hsh0 Hend. unfold build_planet_buttons.
  destruct (Z.eqb_spec (Z.of_nat (length bodies)) 0) as [E|Hn].
  - exists []. split; [reflexivity|].
    destruct bodies; [|cbn in E; lia].
    split; [reflexivity|]. intros i p Hp. discriminate.
  - fold (button_width (Z.of_nat (length bodies)) sw).
    set (n := Z.of_nat (length bodies)) in *.
    pose proof (button_width_bounds n sw ltac:(lia) Hsw0) as Hw.
    unfold in_int, bar_end in *.
    apply place_buttons_in_int; unfold in_int; try lia.
    intros i Hi. nia.
Qed.

Lemma find_unique {A} (f : A -> bool) (l : list A) : forall i b,
  l !! i = Some b -> f b = true ->
  (forall j b', l !! j = Some b' -> f b' = true -> j = i) ->
  List.find f l = Some b.
Proof.
  induction l as [|a l IH]; intros i b Hi Hb Huniq; [discriminate|].
  cbn [List.find]. destruct (f a) eqn:Hfa.
  - specialize (Huniq 0%nat a eq_refl Hfa). subst i. cbn in Hi. exact Hi.
  - destruct i as [|i]; [cbn in Hi; congruence|].
    apply (IH i b Hi Hb). intros j b' Hj Hb'.
    specialize (Huniq (S j) b' Hj Hb'). lia.
Qed.

End Layout.

(** X20. The button bar, for a screen size [screen.get_size()] can return
    (two non-negative C ints) and a bar whose right end
    [10 + n * (button_width + 10)] is within a C int, so that
    [pygame.Rect] stores the coordinates it is given: the call returns one
    button per list entry, in order; the buttons share the top
    [screen_height - 46], the height 36 and a width of at least 80, and
    start 10 from the left edge, each 10 to the right of the one before;
    when 80-wide buttons fit between the margins, so does the whole bar.
    No body, no button. *)
Theorem button_bar_layout (bodies : list nat) (sw sh : Z) :
  (0 <= sw < 2 ^ 31)%Z ->
  (0 <= sh < 2 ^ 31)%Z ->
  (layout.bar_end (Z.of_nat (length bodies)) sw < 2 ^ 31)%Z ->
  exists buttons,
    main.build_planet_buttons bodies sw sh = Some buttons
    /\ length buttons = length bodies
    /\ (bodies = [] -> buttons = [])
    /\ (80 <= layout.button_width (Z.of_nat (length bodies)) sw)%Z
    /\ (forall i p, bodies !! i = Some p ->
          buttons !! i
          = Some (p, main.mkRect
                       (10 + Z.of_nat i
                             * (layout.button_width (Z.of_nat (length bodies)) sw + 10))%Z
                       (sh - 36 - 10)%Z
                       (layout.button_width (Z.of_nat (length bodies)) sw) 36%Z))
    /\ ((80 * Z.of_nat (length bodies) + 10 * (Z.of_nat (length bodies) - 1)
         <= sw - 20)%Z ->
        forall i b, buttons !! i = Some b ->
          (10 <= main.rect_x (snd b)
           /\ main.rect_x (snd b) + main.rect_w (snd b) <= sw - 10)%Z).
Proof.
  intros Hsw Hsh Hend.
  assert (H80 : (80 <= layout.button_width (Z.of_nat (length bodies)) sw)%Z)
    by (unfold layout.button_width; lia).
  destruct (build_planet_buttons_in_int bodies sw sh)
    as (buttons & Hbuild & Hlen & Hlook).
  1-5: unfold layout.in_int, layout.bar_end in *; nia.
  exists buttons. split; [exact Hbuild|]. split; [exact Hlen|].
  split; [intros ->; destruct buttons; [reflexivity|discriminate]|].
  split; [exact H80|]. split; [exact Hlook|].
  intros Hfit i b Hb.
  assert (Hi : (i < length bodies)%nat).
  { apply lookup_lt_Some in Hb. rewrite Hlen in Hb. exact Hb. }
  destruct (lookup_lt_is_Some_2 bodies i Hi) as (p & Hp).
  rewrite (Hlook i p Hp) in Hb.
  injection Hb as <-. cbn [snd main.rect_x main.rect_w].
  set (n := Z.of_nat (length bodies)) in *.
  assert (Hn : (0 < n)%Z) by lia.
  assert (Hw : (n * layout.button_width n sw <= sw - 2 * 10 - (n - 1) * 10)%Z).
  { unfold layout.button_width. rewrite Z.quot_div_nonneg by lia.
    assert (80 <= (sw - 2 * 10 - (n - 1) * 10) / n)%Z
      by (apply Z.div_le_lower_bound; lia).
    rewrite Z.max_r by lia. apply Z.mul_div_le. lia. }
  split; [nia|]. nia.
Qed.

Lemma button_bar_layout_witness :
  ((0 <= 1280 < 2 ^ 31) /\ (0 <= 720 < 2 ^ 31)
   /\ layout.bar_end (Z.of_nat (length [0; 1; 2]%nat)) 1280 < 2 ^ 31)%Z
  /\ exists buttons,
       main.build_planet_buttons [0; 1; 2]%nat 1280 720 = Some buttons
       /\ buttons !! 1%nat = Some (1%nat, main.mkRect 433 674 413 36)
       /\ forall i b, buttons !! i = Some b ->
            (10 <= main.rect_x (snd b)
             /\ main.rect_x (snd b) + main.rect_w (snd b) <= 1280 - 10)%Z.
Proof.
  assert (Hsw : (0 <= 1280 < 2 ^ 31)%Z) by lia.
  assert (Hsh : (0 <= 720 < 2 ^ 31)%Z) by lia.
  assert (Hend : (layout.bar_end (Z.of_nat (length [0; 1; 2]%nat)) 1280 < 2 ^ 31)%Z)
    by (vm_compute; reflexivity).
  split; [auto|].
  destruct (button_bar_layout [0; 1; 2]%nat 1280 720 Hsw Hsh Hend)
    as (buttons & Hbuild & _ & _ & _ & Hlook & Hfit).
  exists buttons. split; [exact Hbuild|].
  split; [exact (Hlook 1%nat 1%nat eq_refl)|].
  apply Hfit. cbn. lia.
Defined.

(** X21. A click is on at most one button, on such a screen and for a
    mouse position [event.pos] can hold: two buttons of the bar that hold
    the same point are the same entry, so the search of the main loop
    returns the one button that holds the mouse position. *)
Theorem click_selects_one_button
    (bodies : list nat) (sw sh : Z) (buttons : list (nat * main.Rect))
    (mouse_pos : Z * Z) (i : nat) (b : nat * main.Rect) :
  (0 <= sw < 2 ^ 31)%Z ->
  (0 <= sh < 2 ^ 31)%Z ->
  (layout.bar_end (Z.of_nat (length bodies)) sw < 2 ^ 31)%Z ->
  layout.in_int (fst mouse_pos) -> layout.in_int (snd mouse_pos) ->
  main.build_planet_buttons bodies sw sh = Some buttons ->
  buttons !! i = Some b ->
  main.collidepoint (snd b) mouse_pos = true ->
  (forall j b', buttons !! j = Some b' ->
                main.collidepoint (snd b') mouse_pos = true -> j = i)
  /\ main.clicked_button buttons mouse_pos = Some b.
Proof.
  intros Hsw Hsh Hend Hmx Hmy Hbuild Hb Hhit.
  assert (H80 : (80 <= layout.button_width (Z.of_nat (length bodies)) sw)%Z)
    by (unfold layout.button_width; lia).
  destruct (build_planet_buttons_in_int bodies sw sh)
    as (buttons' & Hbuild' & Hlen & Hlook).
  1-5: unfold layout.in_int, layout.bar_end in *; nia.
  rewrite Hbuild in Hbuild'. injection Hbuild' as <-.
  assert (Huniq : forall j b', buttons !! j = Some b' ->
                    main.collidepoint (snd b') mouse_pos = true -> j = i).
  { intros j b' Hb' Hhit'.
    pose proof (lookup_lt_Some _ _ _ Hb) as Hi. pose proof (lookup_lt_Some _ _ _ Hb') as Hj.
    rewrite Hlen in Hi, Hj.
    destruct (lookup_lt_is_Some_2 bodies i Hi) as (p & Hp).
    destruct (lookup_lt_is_Some_2 bodies j Hj) as (p' & Hp').
    rewrite (Hlook i p Hp) in Hb. rewrite (Hlook j p' Hp') in Hb'.
    injection Hb as <-. injection Hb' as <-.
    unfold main.collidepoint in Hhit, Hhit'. cbn [snd main.rect_x main.rect_w] in Hhit, Hhit'.
    set (w := layout.button_width (Z.of_nat (length bodies)) sw) in *.
    assert (80 <= w)%Z by (unfold w, layout.button_width; lia).
    unfold layout.bar_end in Hend. fold w in Hend.
    rewrite wrap32_id in Hhit by (unfold layout.in_int; nia).
    rewrite wrap32_id in Hhit' by (unfold layout.in_int; nia).
    apply andb_prop in Hhit as [Hhit _]. apply andb_prop in Hhit as [Hhit _].
    apply andb_prop in Hhit as [Hx1 Hx2].
    apply andb_prop in Hhit' as [Hhit' _]. apply andb_prop in Hhit' as [Hhit' _].
    apply andb_prop in Hhit' as [Hx1' Hx2'].
    apply Z.leb_le in Hx1, Hx1'. apply Z.ltb_lt in Hx2, Hx2'.
    destruct (Nat.lt_trichotomy j i) as [Hlt|[->|Hgt]]; [|reflexivity|]; nia. }
  split; [exact Huniq|].
  apply (find_unique _ _ i b Hb Hhit). exact Huniq.
Qed.

Lemma click_selects_one_button_witness :
  main.build_planet_buttons [0; 1; 2]%nat 1280 720
  = Some [(0%nat, main.mkRect 10 674 413 36); (1%nat, main.mkRect 433 674 413 36);
          (2%nat, main.mkRect 856 674 413 36)]
  /\ main.clicked_button
       [(0%nat, main.mkRect 10 674 413 36); (1%nat, main.mkRect 433 674 413 36);
        (2%nat, main.mkRect 856 674 413 36)] (500, 700)%Z
     = Some (1%nat, main.mkRect 433 674 413 36).
Proof.
  assert (Hbuild : main.build_planet_buttons [0; 1; 2]%nat 1280 720
                   = Some [(0%nat, main.mkRect 10 674 413 36);
                           (1%nat, main.mkRect 433 674 413 36);
                           (2%nat, main.mkRect 856 674 413 36)])
    by (vm_compute; reflexivity).
  split; [exact Hbuild|].
  apply (click_selects_one_button [0; 1; 2]%nat 1280 720 _ (500, 700)%Z 1
           (1%nat, main.mkRect 433 674 413 36)); try exact Hbuild.
  - lia.
  - lia.
  - vm_compute. reflexivity.
  - unfold layout.in_int. cbn. lia.
  - unfold layout.in_int. cbn. lia.
  - reflexivity.
  - vm_compute. reflexivity.
Defined.

Section Wrapping.
Import main layout.
Local Open Scope string_scope.

Variable font_width : string -> Z.
Variable max_width : Z.

Lemma append_nil_l (b : string) : "" ++ b = b.
Proof. reflexivity. Qed.

Lemma append_cons x (a b : string) : String x a ++ b = String x (a ++ b).
Proof. reflexivity. Qed.

Lemma append_assoc (a b c : string) : (a ++ b) ++ c = a ++ (b ++ c).
Proof.
  induction a as [|x a IH]; [reflexivity|].
  rewrite !append_cons, IH. reflexivity.
Qed.

Lemma join_cons sep x xs :
  xs <> [] -> String.concat sep (x :: xs) = x ++ sep ++ String.concat sep xs.
Proof. destruct xs; [contradiction|reflexivity]. Qed.

(** Joining with spaces does not see whether two words were first put
    on one line. *)
Lemma join_merge (l r : list string) (a b : string) :
  String.concat " " (l ++ (a ++ " " ++ b) :: r)
  = String.concat " " (l ++ a :: b :: r).
Proof.
  induction l as [|x l IH].
  - cbn [app]. rewrite (join_cons " " a (b :: r)) by discriminate.
    destruct r as [|y r]; [reflexivity|].
    rewrite !join_cons by discriminate.
    rewrite !append_assoc. reflexivity.
  - cbn [app]. rewrite !join_cons by (destruct l; discriminate).
    rewrite IH. reflexivity.
Qed.

Lemma nonempty_true s : nonempty s = true <-> s <> "".
Proof.
  unfold nonempty. rewrite negb_true_iff. apply String.eqb_neq.
Qed.

Lemma nonempty_append a b : b <> "" -> nonempty (a ++ b) = true.
Proof.
  intros Hb. apply nonempty_true.
  destruct a; [rewrite append_nil_l; exact Hb|rewrite append_cons; discriminate].
Qed.

Lemma wrap_words_joined words : forall lines current_line,
  "" ∉ words ->
  String.concat " "
    (flush (fst (wrap_words font_width words max_width lines current_line))
           (snd (wrap_words font_width words max_width lines current_line)))
  = String.concat " " (flush lines current_line ++ words).
Proof.
  induction words as [|w words IH]; intros lines cur Hne.
  - cbn [wrap_words fst snd]. rewrite app_nil_r. reflexivity.
  - apply not_elem_of_cons in Hne as [Hw Hne].
    assert (Hw' : w <> "") by congruence.
    cbn [wrap_words].
    destruct (font_width _ <=? max_width)%Z.
    + rewrite IH by exact Hne. unfold flush at 1.
      destruct (nonempty cur) eqn:Hcur.
      * rewrite nonempty_append by (rewrite append_cons; discriminate).
        unfold flush. rewrite Hcur. rewrite <- !app_assoc. cbn [app].
        apply join_merge.
      * apply negb_false_iff, String.eqb_eq in Hcur. subst cur.
        rewrite !append_nil_l, (proj2 (nonempty_true w) Hw').
        unfold flush. cbn [nonempty String.eqb negb]. rewrite <- app_assoc. reflexivity.
    + rewrite IH by exact Hne. unfold flush at 1.
      rewrite (proj2 (nonempty_true w) Hw'). fold (flush lines cur).
      rewrite <- app_assoc. reflexivity.
Qed.

Lemma wrap_text_flush words :
  wrap_text font_width words max_width
  = flush (fst (wrap_words font_width words max_width [] ""))
          (snd (wrap_words font_width words max_width [] "")).
Proof.
  unfold wrap_text, flush.
  destruct (wrap_words font_width words max_width [] "") as [lines cur]. reflexivity.
Qed.

Lemma wrap_words_good all words : forall lines current_line,
  "" ∉ words -> (forall w, w ∈ words -> w ∈ all) ->
  Forall (good_line font_width max_width all) lines ->
  (current_line = "" \/ good_line font_width max_width all current_line) ->
  Forall (good_line font_width max_width all)
    (flush (fst (wrap_words font_width words max_width lines current_line))
           (snd (wrap_words font_width words max_width lines current_line))).
Proof.
  induction words as [|w words IH]; intros lines cur Hne Hsub Hlines Hcur.
  - cbn [wrap_words fst snd]. unfold flush.
    destruct (nonempty cur) eqn:E; [|exact Hlines].
    apply Forall_app. split; [exact Hlines|].
    apply Forall_singleton. destruct Hcur as [->|H]; [discriminate|exact H].
  - apply not_elem_of_cons in Hne as [Hw Hne].
    assert (Hw' : w <> "") by congruence.
    assert (Hsub' : forall w', w' ∈ words -> w' ∈ all)
      by (intros w' H; apply Hsub; right; exact H).
    cbn [wrap_words].
    destruct (Z.leb_spec (font_width (cur ++ (if nonempty cur then " " else "") ++ w))
                max_width) as [Hfit|Hover].
    + apply IH; [exact Hne|exact Hsub'|exact Hlines|].
      right. split; [|left; exact Hfit].
      destruct cur; [|rewrite append_cons; discriminate].
      rewrite !append_nil_l. exact Hw'.
    + apply IH; [exact Hne|exact Hsub'| |].
      * destruct (nonempty cur) eqn:E; [|exact Hlines].
        apply Forall_app. split; [exact Hlines|].
        apply Forall_singleton. destruct Hcur as [->|H]; [discriminate|exact H].
      * right. split; [exact Hw'|]. right. apply Hsub. left.
Qed.

End Wrapping.

(** X22. Wrapping loses nothing: for words that are not empty, as
    [str.split] gives them, the lines of [wrap_text] joined by single
    spaces are the words joined by single spaces, whatever the font and
    the width. *)
Theorem wrap_text_keeps_the_words
    (font_width : string -> Z) (words : list string) (max_width : Z) :
  "" ∉ words ->
  String.concat " " (main.wrap_text font_width words max_width)
  = String.concat " " words.
Proof.
  intros Hne. rewrite wrap_text_flush.
  rewrite wrap_words_joined by exact Hne. reflexivity.
Qed.

Lemma wrap_text_keeps_the_words_witness :
  String.concat " "
    (main.wrap_text (fun s => Z.of_nat (String.length s))
       ["the"; "third"; "planet"; "from"; "the"; "sun"] 10)
  = String.concat " " ["the"; "third"; "planet"; "from"; "the"; "sun"].
Proof.
  apply (wrap_text_keeps_the_words (fun s => Z.of_nat (String.length s))).
  apply (bool_decide_unpack _). reflexivity.
Defined.

(** X23. Every line of [wrap_text] is non-empty and either fits in
    [max_width] or is a single word of the text that is too wide by
    itself. *)
Theorem wrap_text_lines_fit
    (font_width : string -> Z) (words : list string) (max_width : Z)
    (line : string) :
  "" ∉ words ->
  line ∈ main.wrap_text font_width words max_width ->
  line <> ""
  /\ ((font_width line <= max_width)%Z \/ line ∈ words).
Proof.
  intros Hne Hline. rewrite wrap_text_flush in Hline.
  pose proof (wrap_words_good font_width max_width words words [] ""
                Hne (fun w H => H) (Forall_nil_2 _) (or_introl eq_refl)) as Hgood.
  rewrite Forall_forall in Hgood. apply (Hgood line Hline).
Qed.

Lemma wrap_text_lines_fit_witness :
  "planet" <> ""
  /\ ((Z.of_nat (String.length "planet") <= 4)%Z
      \/ "planet" ∈ ["the"; "third"; "planet"]).
Proof.
  apply (wrap_text_lines_fit (fun s => Z.of_nat (String.length s))
           ["the"; "third"; "planet"] 4 "planet").
  - apply (bool_decide_unpack _). reflexivity.
  - apply (bool_decide_unpack _). reflexivity.
Defined.

(** X24. The information box stays on the screen: its left edge is never
    left of 10 and its bottom edge never below [screen_h - 10]; when the
    box is no larger than the screen less the margins and the planet is
    not more than 50 beyond the right edge, the whole box lies within the
    margins of 10. *)
Theorem info_box_within_screen
    (pos : Vector2) (bw bh : R) (sw sh : Z) :
  let box := main.info_box_corner pos bw bh sw sh in
  10 <= fst box
  /\ snd box + bh <= IZR sh - 10
  /\ (bh <= IZR sh - 20 -> 10 <= snd box)
  /\ (bw <= IZR sw - 20 -> vx pos <= IZR sw + 50 ->
      fst box + bw <= IZR sw - 10).
Proof.
  unfold main.info_box_corner. cbn [fst snd].
  repeat match goal with
         | |- context [Rlt_dec ?a ?b] => destruct (Rlt_dec a b)
         end; repeat split; intros; lra.
Qed.

Lemma info_box_within_screen_witness :
  let box := main.info_box_corner (mkVector2 1250 20) 320 120 1280 720 in
  10 <= fst box /\ snd box + 120 <= IZR 720 - 10
  /\ 10 <= snd box /\ fst box + 320 <= IZR 1280 - 10.
Proof.
  destruct (info_box_within_screen (mkVector2 1250 20) 320 120 1280 720)
    as (H1 & H2 & H3 & H4).
  cbv zeta. split; [exact H1|]. split; [exact H2|].
  split; [apply H3; lra|apply H4; simpl; lra].
Defined.

Section Tiles.
Import main.
Local Open Scope Z_scope.

Lemma py_range_elem start stop step x :
  0 < step ->
  x ∈ py_range start stop step
  <-> exists k, 0 <= k /\ x = start + k * step /\ x < stop.
Proof.
  intros Hstep. unfold py_range. rewrite list_elem_of_fmap. split.
  - intros (k & -> & Hk). apply elem_of_seq in Hk. exists (Z.of_nat k).
    split; [lia|]. split; [reflexivity|].
    assert (Hk' : Z.of_nat k < (stop - start + step - 1) / step) by lia.
    assert ((Z.of_nat k + 1) * step <= stop - start + step - 1).
    { transitivity (((stop - start + step - 1) / step) * step); [nia|].
      rewrite Z.mul_comm. apply Z.mul_div_le. lia. }
    lia.
  - intros (k & Hk & -> & Hlt). exists (Z.to_nat k). split; [lia|].
    apply elem_of_seq. split; [lia|]. cbn.
    assert (k + 1 <= (stop - start + step - 1) / step); [|lia].
    apply Z.div_le_lower_bound; [lia|]. nia.
Qed.

(** A row of tiles of width [w] shifted by an offset within [0, w)
    covers every pixel from 0 to [screen]. *)
Lemma tiles_cover_axis screen w offset px :
  0 < w -> 0 <= offset < w -> 0 <= px < screen ->
  exists x, x ∈ py_range (- w) (screen + w) w
            /\ x + offset <= px < x + offset + w.
Proof.
  intros Hw Hoff Hpx.
  set (k := (px - offset) / w + 1).
  assert (Hdiv : w * ((px - offset) / w) <= px - offset < w * ((px - offset) / w + 1)).
  { pose proof (Z.div_mod (px - offset) w ltac:(lia)).
    pose proof (Z.mod_pos_bound (px - offset) w Hw). lia. }
  assert (Hk : 0 <= k).
  { unfold k. assert (-1 <= (px - offset) / w); [|lia].
    apply Z.div_le_lower_bound; lia. }
  exists (- w + k * w). split.
  - apply py_range_elem; [exact Hw|]. exists k. split; [exact Hk|].
    split; [reflexivity|]. unfold k. nia.
  - unfold k. nia.
Qed.

End Tiles.

(** X25. The tiled background leaves no gap: for an image of positive
    size the blits are made, and every pixel of the screen lies inside
    one of the tiles, wherever the camera is. *)
Theorem background_covers_the_screen
    (sw sh bw bh : Z) (cam : camera.Camera) (px py : Z) :
  (0 < bw)%Z -> (0 < bh)%Z ->
  (0 <= px < sw)%Z -> (0 <= py < sh)%Z ->
  exists tiles,
    main.tile_positions sw sh bw bh cam = Some tiles
    /\ exists tx ty, (tx, ty) ∈ tiles
         /\ (tx <= px < tx + bw)%Z /\ (ty <= py < ty + bh)%Z.
Proof.
  intros Hbw Hbh Hpx Hpy. unfold main.tile_positions.
  destruct (Z.eqb_spec bw 0) as [E|_]; [lia|].
  destruct (Z.eqb_spec bh 0) as [E|_]; [lia|].
  eexists. split; [reflexivity|].
  set (ox := (py_int (- vx (camera.position cam) * 0.1) mod bw)%Z).
  set (oy := (py_int (- vy (camera.position cam) * 0.1) mod bh)%Z).
  assert (Hox : (0 <= ox < bw)%Z) by (apply Z.mod_pos_bound; exact Hbw).
  assert (Hoy : (0 <= oy < bh)%Z) by (apply Z.mod_pos_bound; exact Hbh).
  destruct (tiles_cover_axis sw bw ox px Hbw Hox Hpx) as (x & Hx & Hxin).
  destruct (tiles_cover_axis sh bh oy py Hbh Hoy Hpy) as (y & Hy & Hyin).
  exists (x + ox)%Z, (y + oy)%Z. split; [|split; lia].
  apply list_elem_of_In, in_flat_map. exists x.
  split; [apply list_elem_of_In; exact Hx|].
  apply list_elem_of_In, list_elem_of_fmap. exists y. split; [reflexivity|exact Hy].
Qed.

Lemma background_covers_the_screen_witness :
  exists tiles,
    main.tile_positions 1280 720 512 512 camera.default_camera = Some tiles
    /\ exists tx ty, (tx, ty) ∈ tiles
         /\ (tx <= 1279 < tx + 512)%Z /\ (ty <= 0 < ty + 512)%Z.
Proof.
  apply (background_covers_the_screen 1280 720 512 512 camera.default_camera
           1279 0); lia.
Defined.

